(** * isPrime.js: Miller-Rabin primality testing over Montgomery arithmetic

    A shallow embedding of [src/isPrime.js].  JavaScript [BigInt] values are
    modelled by [Z]; the operators keep their JavaScript meaning:
    [/] truncates ([Z.quot]), [%] takes the sign of the dividend ([Z.rem]),
    [>>] is the arithmetic shift ([Z.shiftr]), [<<] is [Z.shiftl] and [&], [|]
    act on the infinite two's complement representation ([Z.land], [Z.lor]).
    JavaScript numbers that only ever hold loop counts and string lengths are
    modelled by [nat]. *)

From Stdlib Require Import ZArith List String Ascii Bool Lia Znumtheory.
From Stdlib Require Zmod.ZmodInv.
From Stdlib Require Uint63.
Import ListNotations.

Local Open Scope Z_scope.

(** ** JavaScript values and control *)

(** A [BigInt] used as a condition is true exactly when it is not [0n]. *)
Definition truthy (z : Z) : bool := negb (z =? 0).

(** What a [throw] inside the [try] block of [primalityTest] can carry.
    [OutOfFuel] is not a JavaScript value: it marks a run of the model whose
    loop budget (or supply of random draws) was used up before the program
    finished. *)
Inductive exn : Type :=
| RangeError (b : Z)          (* invalid base (must be in the range [2, n-2]) *)
| TypeError                   (* invalid bases option (must be an array) *)
| Error_base_must_be_odd      (* thrown by getReductionContext *)
| OutOfFuel.

Inductive result (A : Type) : Type :=
| Ok (a : A)
| Throw (e : exn).
Arguments Ok {A} a.
Arguments Throw {A} e.

(** ** bitLength (lines 489-492) *)

(** [p.toString(2)] for a positive [BigInt]: most significant digit first. *)
Fixpoint binaryDigits (p : positive) : string :=
  match p with
  | xH => "1"
  | xO q => binaryDigits q ++ "0"
  | xI q => binaryDigits q ++ "1"
  end.

(** [n.toString(2)]. *)
Definition toString2 (n : Z) : string :=
  match n with
  | Z0 => "0"
  | Zpos p => binaryDigits p
  | Zneg p => "-" ++ binaryDigits p
  end.

Definition bitLength (n : Z) : nat := String.length (toString2 n).

(** ** invertPowerOfTwo (lines 48-61) *)

Fixpoint invertPowerOfTwo_loop (count : nat) (base inv : Z) : Z :=
  match count with
  | O => inv
  | S count' =>
      let inv1 := if truthy (Z.land inv 1) then inv + base else inv in
      invertPowerOfTwo_loop count' base (Z.shiftr inv1 1)
  end.

Definition invertPowerOfTwo (exp : nat) (base : Z) : Z :=
  invertPowerOfTwo_loop exp base 1.

(** ** twoMultiplicity (lines 70-79) *)

(** The [while (true)] loop, [m] counting up; [fuel] bounds the number of
    iterations the model follows. *)
Fixpoint twoMultiplicity_loop (fuel : nat) (n m : Z) : option Z :=
  match fuel with
  | O => None
  | S fuel' =>
      if truthy (Z.land n (Z.shiftl 1 m)) then Some m
      else twoMultiplicity_loop fuel' n (m + 1)
  end.

Definition twoMultiplicity (fuel : nat) (n : Z) : option Z :=
  if n =? 0 then Some 0 else twoMultiplicity_loop fuel n 0.

(** ** getRandomBitString (lines 88-96) *)

(** [s.substring(start, stop)] for [start <= stop]: the characters from index
    [start] up to, not including, [stop] or the end of [s]. *)
Definition js_substring (s : string) (start stop : nat) : string :=
  String.substring start (stop - start) s.

(** The [while] loop.  [randoms] is what [Math.random().toString(2)] will
    return, call after call; the loop stops once [bits] is long enough and
    the model gives up when the supply has run dry. *)
Fixpoint getRandomBitString_loop (randoms : list string) (bits : string)
    (numBits : nat) : option (string * list string) :=
  if (String.length bits <? numBits)%nat then
    match randoms with
    | [] => None
    | s :: randoms' =>
        getRandomBitString_loop randoms' (bits ++ js_substring s 2 50) numBits
    end
  else Some (bits, randoms).

(** The bit string returned, and what is left of the supply. *)
Definition getRandomBitString (randoms : list string) (numBits : nat)
    : option (string * list string) :=
  match getRandomBitString_loop randoms "" numBits with
  | Some (bits, randoms') => Some (js_substring bits 0 numBits, randoms')
  | None => None
  end.

(** [BigInt("0b" + bits)] (line 420): the digits are read most significant
    first; a character that is not a binary digit, or no digit at all, is a
    [SyntaxError] ([None]). *)
Fixpoint parseBinaryDigits (bits : string) (acc : Z) : option Z :=
  match bits with
  | EmptyString => Some acc
  | String c bits' =>
      if Ascii.eqb c "0" then parseBinaryDigits bits' (2 * acc)
      else if Ascii.eqb c "1" then parseBinaryDigits bits' (2 * acc + 1)
      else None
  end.

Definition BigInt_0b (bits : string) : option Z :=
  match bits with
  | EmptyString => None
  | _ => parseBinaryDigits bits 0
  end.

(** ** Montgomery reduction context (lines 105-119) *)

Module MontgomeryReductionContext.
Record t : Type := make {
  base : Z;
  shift : Z;
  r : Z;
  rInv : Z;
  baseInv : Z
}.
End MontgomeryReductionContext.
Module Ctx := MontgomeryReductionContext.

Definition getReductionContext (base : Z) : result Ctx.t :=
  if negb (truthy (Z.land base 1)) then Throw Error_base_must_be_odd
  else
    let numBits := bitLength base in
    let littleShift := numBits in
    let shift := Z.of_nat littleShift in
    let r := Z.shiftl 1 shift in
    let rInv := invertPowerOfTwo littleShift base in
    let baseInv := r - Z.rem (Z.quot (rInv * r - 1) base) r in
    Ok (Ctx.make base shift r rInv baseInv).

(** ** Montgomery operations (lines 128-200) *)

Definition montgomeryReduce (n : Z) (ctx : Ctx.t) : Z :=
  Z.rem (Z.shiftl n (Ctx.shift ctx)) (Ctx.base ctx).

Definition invMontgomeryReduce (n : Z) (ctx : Ctx.t) : Z :=
  Z.rem (n * Ctx.rInv ctx) (Ctx.base ctx).

(** The value of [product] at line 169, before it is folded into range. *)
Definition montgomeryMul_product (a b : Z) (ctx : Ctx.t) : Z :=
  let rm1 := Ctx.r ctx - 1 in
  let unredProduct := a * b in
  let t := Z.land (Z.land unredProduct rm1 * Ctx.baseInv ctx) rm1 * Ctx.base ctx in
  Z.shiftr (unredProduct - t) (Ctx.shift ctx).

(** Lines 171-175: one conditional subtraction or addition of the modulus. *)
Definition montgomeryMul_fold (product : Z) (ctx : Ctx.t) : Z :=
  if Ctx.base ctx <=? product then product - Ctx.base ctx
  else if product <? 0 then product + Ctx.base ctx
  else product.

Definition montgomeryMul (a b : Z) (ctx : Ctx.t) : Z :=
  if (a =? 0) || (b =? 0) then 0
  else montgomeryMul_fold (montgomeryMul_product a b ctx) ctx.

Definition montgomerySqr (n : Z) (ctx : Ctx.t) : Z :=
  montgomeryMul n n ctx.

(** The [for] loop of [montgomeryPow]: [count] iterations remain, [i] is the
    index of the exponent bit looked at and [x] the running square. *)
Fixpoint montgomeryPow_loop (count : nat) (i x res exp : Z)
    (ctx : Ctx.t) : Z :=
  match count with
  | O => res
  | S count' =>
      let res1 :=
        if truthy (Z.land exp (Z.shiftl 1 i)) then montgomeryMul res x ctx
        else res in
      montgomeryPow_loop count' (i + 1) (montgomerySqr x ctx) res1 exp ctx
  end.

Definition montgomeryPow (n exp : Z) (ctx : Ctx.t) : Z :=
  let expLen := bitLength exp in
  let res := montgomeryReduce 1 ctx in
  montgomeryPow_loop expLen 0 n res exp ctx.

(** ** ugcd (lines 225-255) *)

(** Lines 232-236: strip the factors of two shared by [a] and [b]. *)
Fixpoint ugcd_sharedTwos (fuel : nat) (a b sharedTwoFactors : Z)
    : option (Z * Z * Z) :=
  match fuel with
  | O => None
  | S fuel' =>
      if negb (truthy (Z.lor (Z.land a 1) (Z.land b 1))) then
        ugcd_sharedTwos fuel' (Z.shiftr a 1) (Z.shiftr b 1) (sharedTwoFactors + 1)
      else Some (a, b, sharedTwoFactors)
  end.

(** Lines 240 and 241: [while (!(a & ONE)) a >>= ONE]. *)
Fixpoint ugcd_stripTwos (fuel : nat) (a : Z) : option Z :=
  match fuel with
  | O => None
  | S fuel' =>
      if negb (truthy (Z.land a 1)) then ugcd_stripTwos fuel' (Z.shiftr a 1)
      else Some a
  end.

(** Lines 238-251; the value returned is [b] when the loop is left. *)
Fixpoint ugcd_loop (fuel : nat) (a b : Z) : option Z :=
  match fuel with
  | O => None
  | S fuel' =>
      if negb (a =? b) && (1 <? b) then
        match ugcd_stripTwos fuel a with
        | None => None
        | Some a1 =>
            match ugcd_stripTwos fuel b with
            | None => None
            | Some b1 =>
                if a1 <? b1 then ugcd_loop fuel' (b1 - a1) a1
                else if a1 =? b1 then Some b1
                else ugcd_loop fuel' (a1 - b1) b1
            end
        end
      else Some b
  end.

Definition ugcd (fuel : nat) (a b : Z) : option Z :=
  if a =? b then Some a
  else if a =? 0 then Some b
  else if b =? 0 then Some a
  else
    match ugcd_sharedTwos fuel a b 0 with
    | None => None
    | Some (a1, b1, sharedTwoFactors) =>
        match ugcd_loop fuel a1 b1 with
        | None => None
        | Some b2 => Some (Z.shiftl b2 sharedTwoFactors)
        end
    end.

(** ** validateBases (lines 270-291) *)

(** The [bases] option after the elements of an array have been coerced by
    [BigInt(b)]: absent, an array, or a value that is not an array.  An array
    holds integers: [BigInt]s, or values that [BigInt(b)] at lines 276-278
    converts.  An element on which that conversion throws (a [SyntaxError],
    a [RangeError] or a [TypeError] of [BigInt] itself) is outside the
    model. *)
Inductive basesOption : Type :=
| BasesUndefined
| BasesArray (l : list Z)
| BasesNotArray.

(** [bases.map(b => ...)]: the callback runs on the elements in order and the
    first invalid base throws. *)
Fixpoint validateBases_map (l : list Z) (nSub : Z) : result (list Z) :=
  match l with
  | [] => Ok []
  | b :: l' =>
      if negb (2 <=? b) || negb (b <? nSub) then Throw (RangeError b)
      else
        match validateBases_map l' nSub with
        | Ok l'' => Ok (b :: l'')
        | Throw e => Throw e
        end
  end.

Definition validateBases (bases : basesOption) (nSub : Z)
    : result (option (list Z)) :=
  match bases with
  | BasesUndefined => Ok None
  | BasesArray l =>
      match validateBases_map l nSub with
      | Ok l' => Ok (Some l')
      | Throw e => Throw e
      end
  | BasesNotArray => Throw TypeError
  end.

(** ** getAdaptiveNumRounds (lines 502-508) *)

Definition getAdaptiveNumRounds (inputBits : nat) : nat :=
  if (1000 <? inputBits)%nat then 2%nat
  else if (500 <? inputBits)%nat then 3%nat
  else if (250 <? inputBits)%nat then 4%nat
  else if (150 <? inputBits)%nat then 5%nat
  else 6%nat.

(** ** PrimalityResult (lines 205-216) and the options of primalityTest *)

Module PrimalityResult.
Record t : Type := make {
  n : Z;
  probablePrime : bool;
  witness : option Z;
  divisor : option Z
}.
End PrimalityResult.

(** [numRounds] is restricted to integers ([None] for [undefined]). *)
Record Options : Type := mkOptions {
  numRounds : option Z;
  bases : basesOption;
  findDivisor : bool;
  small_determinism_mode : bool
}.

(** The defaults of the destructuring pattern at line 316. *)
Definition defaultOptions : Options :=
  mkOptions None BasesUndefined true false.

(** ** The effects of primalityTest

    Two things in [primalityTest] are not functions of its arguments: the
    random bases it draws, and the order in which it calls the Montgomery
    routines and the validation.  A [world] carries both: [draws] is what is
    left of the random source, one element for each evaluation of
    [BigInt("0b" + getRandomBitString(nBits))] at line 420, and [calls] lists,
    oldest first, the Montgomery routines [primalityTest] has called itself
    (the calls [montgomeryPow] makes in turn are not listed). *)

Inductive montgomeryCall : Type :=
| Call_getReductionContext (base : Z)
| Call_montgomeryReduce (n : Z)
| Call_montgomeryPow (n exp : Z)
| Call_montgomerySqr (n : Z)
| Call_invMontgomeryReduce (n : Z).

Record world : Type := mkWorld {
  draws : list Z;
  calls : list montgomeryCall
}.

Definition M (A : Type) : Type := world -> world * result A.

Definition ret {A : Type} (a : A) : M A := fun w => (w, Ok a).

Definition throw {A : Type} (e : exn) : M A := fun w => (w, Throw e).

Definition bind {A B : Type} (m : M A) (k : A -> M B) : M B :=
  fun w =>
    match m w with
    | (w1, Ok a) => k a w1
    | (w1, Throw e) => (w1, Throw e)
    end.

Notation "x <- m ;; k" := (bind m (fun x => k))
  (at level 61, m at next level, right associativity).

Definition ofResult {A : Type} (x : result A) : M A := fun w => (w, x).

Definition ofOption {A : Type} (x : option A) : M A :=
  match x with
  | Some a => ret a
  | None => throw OutOfFuel
  end.

(** [call c v]: the routine named by [c] is called and returns [v]. *)
Definition call {A : Type} (c : montgomeryCall) (v : result A) : M A :=
  fun w => (mkWorld (draws w) (calls w ++ [c]), v).

(** Lines 419-421: draw until the base lies within [[2, n-2]]. *)
Fixpoint randomBase_loop (l : list Z) (nSub : Z) : option (Z * list Z) :=
  match l with
  | [] => None
  | b :: l' =>
      if negb (2 <=? b) || negb (b <? nSub) then randomBase_loop l' nSub
      else Some (b, l')
  end.

Definition randomBase (nSub : Z) : M Z :=
  fun w =>
    match randomBase_loop (draws w) nSub with
    | Some (b, l') => (mkWorld l' (calls w), Ok b)
    | None => (mkWorld [] (calls w), Throw OutOfFuel)
    end.

(** ** primalityTest (lines 314-481) *)

(** Lines 367-381. *)
Definition smallDeterminismBases (n : Z) : list Z :=
  if n <? 2047 then [2]
  else if n <? 1373653 then [2; 3]
  else if n <? 25326001 then [2; 3; 5]
  else if n <? 3215031751 then [2; 3; 5; 7]
  else if n <? 2152302898747 then [2; 3; 5; 7; 11]
  else if n <? 3474749660383 then [2; 3; 5; 7; 11; 13]
  else [2; 3; 5; 7; 11; 13; 17].

(** The variables [probablePrime], [witness] and [divisor] of lines 406-408. *)
Record verdict : Type := mkVerdict {
  v_probablePrime : bool;
  v_witness : option Z;
  v_divisor : option Z
}.

(** How the loop of lines 441-459 is left. *)
Inductive innerExit : Type :=
| Inner_composite (x : Z)   (* y === oneReduced, [break outer] *)
| Inner_passed              (* y === nSubReduced, [break] *)
| Inner_exhausted (x : Z).  (* i === r *)

Section Rounds.

Variable fuel : nat.
Variable findDivisor : bool.
Variables n nSub r d : Z.
Variable reductionContext : Ctx.t.
Variables oneReduced nSubReduced : Z.
Variable validBases : option (list Z).

(** Lines 412-422. *)
Definition nextBase (baseIndex : nat) : M Z :=
  match validBases with
  | Some l =>
      match nth_error l baseIndex with
      | Some b => ret b
      | None => throw TypeError (* arithmetic on [undefined] *)
      end
  | None => randomBase nSub
  end.

(** Lines 441-459, [count] iterations of the [for] loop remaining. *)
Fixpoint millerRabin_loop (count : nat) (x : Z) : M innerExit :=
  match count with
  | O => ret (Inner_exhausted x)
  | S count' =>
      y <- call (Call_montgomerySqr x) (Ok (montgomerySqr x reductionContext)) ;;
      if y =? oneReduced then ret (Inner_composite x)
      else if y =? nSubReduced then ret Inner_passed
      else millerRabin_loop count' y
  end.

(** Lines 445-450, and the same statements at lines 464-469. *)
Definition compositeBy (base x : Z) : M verdict :=
  if findDivisor then
    xi <- call (Call_invMontgomeryReduce x)
            (Ok (invMontgomeryReduce x reductionContext)) ;;
    g <- ofOption (ugcd fuel (xi - 1) n) ;;
    ret (mkVerdict false (Some base) (if g =? 1 then None else Some g))
  else ret (mkVerdict false (Some base) None).

(** Lines 435-471: the strong probable prime test to one base.  [Some v]
    when the [outer] loop is left with the variables [v], [None] when the
    next round is to run. *)
Definition millerRabin_test (base : Z) : M (option verdict) :=
  baseReduced <- call (Call_montgomeryReduce base)
                   (Ok (montgomeryReduce base reductionContext)) ;;
  x <- call (Call_montgomeryPow baseReduced d)
         (Ok (montgomeryPow baseReduced d reductionContext)) ;;
  if (x =? oneReduced) || (x =? nSubReduced) then ret None
  else
    e <- millerRabin_loop (Z.to_nat r) x ;;
    match e with
    | Inner_composite x' => v <- compositeBy base x' ;; ret (Some v)
    | Inner_passed => ret None
    | Inner_exhausted x' => v <- compositeBy base x' ;; ret (Some v)
    end.

(** Lines 424-471: the body of the [outer] loop once the base is chosen. *)
Definition millerRabin_round (base : Z) : M (option verdict) :=
  if findDivisor then
    gcd <- ofOption (ugcd fuel n base) ;;
    if negb (gcd =? 1) then
      ret (Some (mkVerdict false (Some base) (Some gcd)))
    else millerRabin_test base
  else millerRabin_test base.

(** Lines 411-472, [count] rounds remaining. *)
Fixpoint millerRabin_rounds (count baseIndex : nat) : M verdict :=
  match count with
  | O => ret (mkVerdict true None None)
  | S count' =>
      base <- nextBase baseIndex ;;
      v <- millerRabin_round base ;;
      match v with
      | Some v' => ret v'
      | None =>
          millerRabin_rounds count'
            (match validBases with
             | Some _ => S baseIndex
             | None => baseIndex
             end)
      end
  end.

End Rounds.

(** Lines 330-476: [n] is no longer negative, [sign] records whether it was. *)
Definition primalityTest_body (fuel : nat) (sign n : Z) (options : Options)
    : M PrimalityResult.t :=
  if n <? 2 then
    ret (PrimalityResult.make (sign * n) false None None)
  else if n <? 4 then
    ret (PrimalityResult.make (sign * n) true None None)
  else if negb (truthy (Z.land n 1)) then
    ret (PrimalityResult.make (sign * n) false None (Some 2))
  else
    let bases :=
      if small_determinism_mode options && (n <? 341550071728321)
      then BasesArray (smallDeterminismBases n)
      else bases options in
    let nBits := bitLength n in
    let nSub := n - 1 in
    r <- ofOption (twoMultiplicity fuel nSub) ;;
    let d := Z.shiftr nSub r in
    reductionContext <- call (Call_getReductionContext n) (getReductionContext n) ;;
    oneReduced <- call (Call_montgomeryReduce 1)
                    (Ok (montgomeryReduce 1 reductionContext)) ;;
    nSubReduced <- call (Call_montgomeryReduce nSub)
                     (Ok (montgomeryReduce nSub reductionContext)) ;;
    validBases <- ofResult (validateBases bases nSub) ;;
    let numRounds :=
      match validBases with
      | Some l => List.length l
      | None =>
          match numRounds options with
          | None => getAdaptiveNumRounds nBits
          | Some k => if k <? 1 then getAdaptiveNumRounds nBits else Z.to_nat k
          end
      end in
    v <- millerRabin_rounds fuel (findDivisor options) n nSub r d
           reductionContext oneReduced nSubReduced validBases numRounds 0 ;;
    ret (PrimalityResult.make (sign * n) (v_probablePrime v) (v_witness v)
           (v_divisor v)).

(** Lines 320-328, then the rest of the [try] block.  [n] is an integer: a
    [BigInt], or a value that [BigInt(n)] at lines 320-322 converts; an [n]
    on which that conversion throws is outside the model. *)
Definition primalityTest (fuel : nat) (n : Z) (options : Options)
    : M PrimalityResult.t :=
  let sign := if n <? 0 then -1 else 1 in
  let n := if sign =? -1 then - n else n in
  primalityTest_body fuel sign n options.

(** A run of [primalityTest] from a random source [rnd], no call made yet:
    the world the run ends in, and the value the promise is resolved with
    ([Ok]) or the error it is rejected with ([Throw]). *)
Definition run (fuel : nat) (rnd : list Z) (n : Z) (options : Options)
    : world * result PrimalityResult.t :=
  primalityTest fuel n options (mkWorld rnd []).

(** * Specification

    The vocabulary the properties below are stated with. *)

(** ** Montgomery forms *)

(** What the Montgomery routines need of a context: an odd modulus [base]
    above 1, the auxiliary modulus [r = 2 ^ shift] above it, and the two
    inverses. *)
Record wellFormed (ctx : Ctx.t) : Prop := mkWellFormed {
  wf_base : 1 < Ctx.base ctx;
  wf_shift : 0 <= Ctx.shift ctx;
  wf_r : Ctx.r ctx = 2 ^ Ctx.shift ctx;
  wf_lt : Ctx.base ctx < Ctx.r ctx;
  wf_rInv : 0 <= Ctx.rInv ctx < Ctx.base ctx;
  wf_rInv_inverse : (Ctx.r ctx * Ctx.rInv ctx) mod Ctx.base ctx = 1;
  wf_baseInv_inverse : (Ctx.base ctx * Ctx.baseInv ctx) mod Ctx.r ctx = 1
}.

(** [x] is the Montgomery form of the residue of [X]. *)
Definition represents (ctx : Ctx.t) (x X : Z) : Prop :=
  0 <= x < Ctx.base ctx /\
  x mod Ctx.base ctx = (X * Ctx.r ctx) mod Ctx.base ctx.

(** [x] is the Montgomery form of a residue that is invertible modulo [n]. *)
Definition unitForm (n : Z) (ctx : Ctx.t) (x : Z) : Prop :=
  exists X, represents ctx x X /\ Z.gcd X n = 1.

(** ** Loop budgets *)

(** The number of rounds of the main loop of [ugcd] is bounded by this
    quantity, which every round decreases. *)
Definition ugcd_potential (a b : Z) : Z :=
  2 * (Z.log2 a + Z.log2 b) + (if Z.odd a && Z.odd b then 1 else 0).

(** A loop budget that lets [ugcd a b] finish. *)
Definition ugcd_fuel (a b : Z) : Z := 2 * (Z.log2 a + Z.log2 b) + 1.

(** ** Runs *)

(** [hoare P m Q E]: from a world that satisfies [P], the computation [m]
    either returns a value [a] in a world [w'] with [Q a w'], or throws an
    error [e] in a world [w'] with [E e w']. *)
Definition hoare {A : Type} (P : world -> Prop) (m : M A)
    (Q : A -> world -> Prop) (E : exn -> world -> Prop) : Prop :=
  forall w, P w ->
    match m w with
    | (w', Ok a) => Q a w'
    | (w', Throw e) => E e w'
    end.

(** [returns m phi]: whenever [m] returns, the value satisfies [phi]. *)
Definition returns {A : Type} (m : M A) (phi : A -> Prop) : Prop :=
  hoare (fun _ => True) m (fun a _ => phi a) (fun _ _ => True).

(** [resolves m phi]: from every world, [m] returns a value that satisfies
    [phi] (it neither throws nor runs out of budget). *)
Definition resolves {A : Type} (m : M A) (phi : A -> Prop) : Prop :=
  forall w, exists w' a, m w = (w', Ok a) /\ phi a.

(** The world after lines 392-394: the context is built and 1 and [n - 1]
    are reduced, nothing is drawn. *)
Definition afterContext (rnd : list Z) (n : Z) : world :=
  mkWorld rnd
    [Call_getReductionContext n; Call_montgomeryReduce 1;
     Call_montgomeryReduce (n - 1)].

(** The value of [bases] that reaches [validateBases] at line 397. *)
Definition basesInEffect (n : Z) (options : Options) : basesOption :=
  if small_determinism_mode options && (n <? 341550071728321)
  then BasesArray (smallDeterminismBases n)
  else bases options.

(** ** Verdicts *)

(** A verdict that says prime names no witness and no divisor. *)
Definition verdictConsistent (v : verdict) : Prop :=
  v_probablePrime v = true -> v_witness v = None /\ v_divisor v = None.

(** A round that leaves the [outer] loop does so on a composite verdict. *)
Definition stopsComposite (v : option verdict) : Prop :=
  forall v', v = Some v' -> v_probablePrime v' = false.

(** A divisor, when there is one, divides [n] and is neither 1 nor [n]. *)
Definition properDivisor (n : Z) (v : option Z) : Prop :=
  forall dv, v = Some dv -> (dv | n) /\ 1 < dv < n.

Definition stopsWithDivisor (n : Z) (v : option verdict) : Prop :=
  forall v', v = Some v' -> properDivisor n (v_divisor v').

(** The value [x] the loop of lines 441-459 hands to the divisor search is
    the Montgomery form of an invertible residue other than 1. *)
Definition innerExitGood (n : Z) (ctx : Ctx.t) (e : innerExit) : Prop :=
  match e with
  | Inner_composite x | Inner_exhausted x =>
      unitForm n ctx x /\ x <> montgomeryReduce 1 ctx
  | Inner_passed => True
  end.

(** ** The calls to getReductionContext *)

Definition oddContextCall (c : montgomeryCall) : Prop :=
  match c with
  | Call_getReductionContext b => Z.odd b = true
  | _ => True
  end.

Definition oddContextCalls (w : world) : Prop :=
  Forall oddContextCall (calls w).

(** [m] keeps the calls to [getReductionContext] on odd moduli, and does not
    throw its error. *)
Definition quiet {A : Type} (m : M A) : Prop :=
  hoare oddContextCalls m (fun _ w => oddContextCalls w)
    (fun e w => oddContextCalls w /\ e <> Error_base_must_be_odd).

(** ** Comparing two runs *)

(** Two runs end alike: in the same world, with the same error or with
    results that differ at most in their [n] field. *)
Definition sameVerdict (x y : world * result PrimalityResult.t) : Prop :=
  match x, y with
  | (w1, Ok r1), (w2, Ok r2) =>
      w1 = w2 /\
      PrimalityResult.probablePrime r1 = PrimalityResult.probablePrime r2 /\
      PrimalityResult.witness r1 = PrimalityResult.witness r2 /\
      PrimalityResult.divisor r1 = PrimalityResult.divisor r2
  | (w1, Throw e1), (w2, Throw e2) => w1 = w2 /\ e1 = e2
  | _, _ => False
  end.

(** The [n] field of the result of a run, when it has one. *)
Definition resultN (x : world * result PrimalityResult.t) (n : Z) : Prop :=
  match x with
  | (_, Ok r) => PrimalityResult.n r = n
  | (_, Throw _) => True
  end.

Definition signRelated (n1 n2 : Z) (x y : world * result PrimalityResult.t)
    : Prop :=
  sameVerdict x y /\ resultN x n1 /\ resultN y n2.


(** ** Bases *)

(** The range the documentation of [validateBases] gives for a base. *)
Definition validBase (n b : Z) : Prop := 2 <= b <= n - 2.

(** A run rejected with a range error before any Montgomery routine has been
    called. *)
Definition rejectedBeforeMontgomery (x : world * result PrimalityResult.t)
    : Prop :=
  exists b, snd x = Throw (RangeError b) /\ calls (fst x) = [].

(** The options [{bases: [2,3,5,7,11,13,17]}] and
    [{small_determinism_mode: true}], the others at their defaults. *)
Definition explicitBases : Options :=
  mkOptions None (BasesArray [2; 3; 5; 7; 11; 13; 17]) true false.

Definition smallDeterminism : Options :=
  mkOptions None BasesUndefined true true.

(** ** Strong probable primes *)

(** What one round of [primalityTest] checks of the base [b], with
    [n - 1 = d * 2 ^ r]: [b ^ d] is 1, or one of the [r + 1] values
    [b ^ (d * 2 ^ i)], [0 <= i <= r], is [-1], modulo [n]. *)
Definition passesRound (n r d b : Z) : Prop :=
  b ^ d mod n = 1 \/
  exists i, 0 <= i <= r /\ b ^ (d * 2 ^ i) mod n = n - 1.

(** [n] is a strong probable prime to base [b], as Miller and Rabin define
    it: with [n - 1 = d * 2 ^ r] and [d] odd, [b ^ d] is 1 or one of
    [b ^ (d * 2 ^ i)], [0 <= i < r], is [-1], modulo [n]. *)
Definition strongProbablePrime (n b : Z) : Prop :=
  exists r d,
    0 <= r /\ Z.odd d = true /\ n - 1 = d * 2 ^ r /\
    (b ^ d mod n = 1 \/
     exists i, 0 <= i < r /\ b ^ (d * 2 ^ i) mod n = n - 1).

(** What a round that ran on [base] leaves: nothing when the base passed, a
    composite verdict with [base] as witness when it did not. *)
Definition roundOutcome (n r d base : Z) (v : option verdict) : Prop :=
  match v with
  | None => passesRound n r d base
  | Some v' =>
      ~ passesRound n r d base /\
      v_probablePrime v' = false /\ v_witness v' = Some base
  end.

(** The verdict of the rounds on the bases [l] against a property [P] of
    bases: prime when every base has it, else composite with the first base
    that lacks it as witness. *)
Definition firstFailure (P : Z -> Prop) (l : list Z) (probablePrime : bool)
    (witness : option Z) : Prop :=
  (probablePrime = true /\ witness = None /\ Forall P l) \/
  (probablePrime = false /\
   exists l1 b l2,
     l = l1 ++ b :: l2 /\ Forall P l1 /\ ~ P b /\ witness = Some b).

(** ** Random bases *)

(** A computation that neither draws nor looks at the random source: the
    calls it logs and its outcome depend on the calls logged so far only. *)
Definition drawless {A : Type} (m : M A) : Prop :=
  forall cs, exists cs' x, forall dr, m (mkWorld dr cs) = (mkWorld dr cs', x).

(** A draw the loop of lines 419-421 keeps: its condition is false. *)
Definition inRange (nSub b : Z) : bool :=
  negb (negb (2 <=? b) || negb (b <? nSub)).

(** The number of rounds lines 400-404 settle on when there are no bases. *)
Definition roundsInEffect (n : Z) (options : Options) : nat :=
  match numRounds options with
  | None => getAdaptiveNumRounds (bitLength n)
  | Some k =>
      if k <? 1 then getAdaptiveNumRounds (bitLength n) else Z.to_nat k
  end.

(** The first [k] draws of [rnd] that the loop of lines 419-421 keeps. *)
Definition acceptedDraws (n : Z) (k : nat) (rnd : list Z) : list Z :=
  firstn k (filter (inRange (n - 1)) rnd).

(** A string of binary digits. *)
Fixpoint binaryString (s : string) : Prop :=
  match s with
  | EmptyString => True
  | String c s' => (c = "0"%char \/ c = "1"%char) /\ binaryString s'
  end.

(** The digits [getRandomBitString] can take from the supply [randoms]. *)
Fixpoint suppliedDigits (randoms : list string) : string :=
  match randoms with
  | [] => EmptyString
  | s :: randoms' => js_substring s 2 50 ++ suppliedDigits randoms'
  end.

(** ** Rejections *)

(** [m] fails, if at all, only because the loop budget or the supply of
    random draws of the model ran out: it throws no JavaScript error. *)
Definition failsOnlyOutOfFuel {A : Type} (m : M A) : Prop :=
  forall w w' e, m w = (w', Throw e) -> e = OutOfFuel.

(** ** Primality by trial division *)

(** [n > 1] has no divisor [d] with [d * d <= n] among [2], ..., [k + 1]. *)
Definition trialDivision (n : Z) (k : nat) : bool :=
  (1 <? n) &&
  forallb (fun d => (n <? d * d) || negb (n mod d =? 0))
    (map Z.of_nat (seq 2 k)).

(** The [probablePrime] a run resolves with. *)
Definition verdictOf (x : world * result PrimalityResult.t) : option bool :=
  match snd x with
  | Ok res => Some (PrimalityResult.probablePrime res)
  | Throw _ => None
  end.

(** The runs in small-determinism mode on the odd numbers [lo], [lo + 2],
    ..., [count] of them, all agree with trial division by [2], ...,
    [k + 1]. *)
Definition agreesWithTrialDivision (fuel : nat) (lo : Z) (count k : nat)
    : bool :=
  forallb
    (fun i =>
       let n := lo + 2 * Z.of_nat i in
       match verdictOf (run fuel [] n smallDeterminism) with
       | Some b => Bool.eqb b (trialDivision n k)
       | None => false
       end)
    (seq 0 count).

(** ** Strong probable primes on machine integers

    A decision procedure for [strongProbablePrime] on the 63-bit integers of
    the kernel, for moduli up to [2 ^ 31] (so that no product overflows).  It
    is no part of [isPrime.js]: it serves to check, number by number, what
    the table of [small_determinism_mode] promises on a range. *)

Module Machine.
Import Uint63.
Local Open Scope uint63_scope.








End Machine.

(** ** The cost of a run *)

Definition isPow (c : montgomeryCall) : bool :=
  match c with
  | Call_montgomeryPow _ _ => true
  | _ => false
  end.

Definition isSqr (c : montgomeryCall) : bool :=
  match c with
  | Call_montgomerySqr _ => true
  | _ => false
  end.

Definition countCalls (p : montgomeryCall -> bool)
    (cs : list montgomeryCall) : nat :=
  List.length (filter p cs).

(** [m] only adds to the log of calls, at most [p] calls of [montgomeryPow]
    and [s] calls of [montgomerySqr]. *)
Definition spends {A : Type} (m : M A) (p s : nat) : Prop :=
  forall w,
    exists cs,
      calls (fst (m w)) = calls w ++ cs /\
      (countCalls isPow cs <= p)%nat /\ (countCalls isSqr cs <= s)%nat.

(** The number of rounds a run on [n] can make: the number of bases in
    effect, or the number of rounds lines 400-404 settle on. *)
Definition roundsBudget (n : Z) (options : Options) : nat :=
  match validateBases (basesInEffect n options) (n - 1) with
  | Ok (Some l) => List.length l
  | Ok None => roundsInEffect n options
  | Throw _ => 0
  end.

(** * Properties *)

(** ** Conditions on bits *)

Lemma land_1_mod (x : Z) : Z.land x 1 = x mod 2.
Proof.
  change 1 with (Z.ones 1) at 1. now rewrite Z.land_ones by lia.
Qed.

Lemma truthy_land_1 (x : Z) : truthy (Z.land x 1) = Z.odd x.
Proof.
  rewrite land_1_mod, Zmod_odd. unfold truthy. now destruct (Z.odd x).
Qed.

Lemma land_pow2 (e i : Z) :
  0 <= i -> Z.land e (Z.shiftl 1 i) = if Z.testbit e i then 2 ^ i else 0.
Proof.
  intros Hi. rewrite Z.shiftl_1_l.
  apply Z.bits_inj'. intros j Hj.
  rewrite Z.land_spec, Z.pow2_bits_eqb by lia.
  destruct (Z.eqb_spec i j) as [->|Hne].
  - destruct (Z.testbit e j); simpl.
    + rewrite Z.pow2_bits_eqb by lia. now rewrite Z.eqb_refl.
    + now rewrite Z.bits_0.
  - rewrite andb_false_r. destruct (Z.testbit e i).
    + rewrite Z.pow2_bits_eqb by lia. symmetry. now apply Z.eqb_neq.
    + now rewrite Z.bits_0.
Qed.

Lemma truthy_land_bit (e i : Z) :
  0 <= i -> truthy (Z.land e (Z.shiftl 1 i)) = Z.testbit e i.
Proof.
  intros Hi. rewrite land_pow2 by assumption. unfold truthy.
  destruct (Z.testbit e i); [|reflexivity].
  assert (0 < 2 ^ i) by (apply Z.pow_pos_nonneg; lia).
  destruct (Z.eqb_spec (2 ^ i) 0); [lia|reflexivity].
Qed.

(** ** bitLength *)

Lemma string_length_app (s1 s2 : string) :
  String.length (s1 ++ s2) = (String.length s1 + String.length s2)%nat.
Proof.
  induction s1 as [|c s1 IH]; simpl; [reflexivity|now rewrite IH].
Qed.

Lemma binaryDigits_length (p : positive) :
  Z.of_nat (String.length (binaryDigits p)) = Z.log2 (Zpos p) + 1.
Proof.
  induction p as [p IH|p IH|]; simpl binaryDigits.
  - rewrite string_length_app, Nat2Z.inj_add, IH. simpl String.length.
    rewrite Pos2Z.inj_xI, Z.log2_succ_double by lia. lia.
  - rewrite string_length_app, Nat2Z.inj_add, IH. simpl String.length.
    rewrite Pos2Z.inj_xO, Z.log2_double by lia. lia.
  - reflexivity.
Qed.

Lemma bitLength_log2 (x : Z) :
  0 < x -> Z.of_nat (bitLength x) = Z.log2 x + 1.
Proof.
  destruct x as [|p|p]; try lia. intros _. apply binaryDigits_length.
Qed.

Lemma bitLength_spec (x : Z) :
  0 < x -> 2 ^ (Z.of_nat (bitLength x) - 1) <= x < 2 ^ Z.of_nat (bitLength x).
Proof.
  intros Hx. rewrite bitLength_log2 by assumption.
  replace (Z.log2 x + 1 - 1) with (Z.log2 x) by lia.
  replace (Z.log2 x + 1) with (Z.succ (Z.log2 x)) by lia.
  now apply Z.log2_spec.
Qed.

(** ** The reduction context *)

Lemma invertPowerOfTwo_loop_spec (base : Z) :
  0 < base -> Z.odd base = true ->
  forall (count : nat) (inv : Z),
    0 <= inv < base ->
    0 <= invertPowerOfTwo_loop count base inv < base /\
    (invertPowerOfTwo_loop count base inv * 2 ^ Z.of_nat count) mod base
    = inv mod base.
Proof.
  intros Hpos Hodd. induction count as [|count IH]; intros inv Hinv.
  - simpl. split; [assumption|]. now rewrite Z.mul_1_r.
  - cbn [invertPowerOfTwo_loop]. rewrite truthy_land_1.
    set (inv1 := if Z.odd inv then inv + base else inv).
    assert (Heven : Z.odd inv1 = false).
    { subst inv1. destruct (Z.odd inv) eqn:E; [|assumption].
      rewrite Z.odd_add, E, Hodd. reflexivity. }
    assert (Hhalf : inv1 = 2 * Z.shiftr inv1 1).
    { rewrite Z.shiftr_div_pow2 by lia. change (2 ^ 1) with 2.
      pose proof (Z.div_mod inv1 2 ltac:(lia)) as Hdm.
      rewrite Zmod_odd, Heven in Hdm. lia. }
    assert (Hrange : 0 <= Z.shiftr inv1 1 < base).
    { subst inv1. destruct (Z.odd inv); lia. }
    destruct (IH _ Hrange) as [Hb Hc]. split; [assumption|].
    rewrite Nat2Z.inj_succ, Z.pow_succ_r by lia.
    replace (invertPowerOfTwo_loop count base (Z.shiftr inv1 1)
             * (2 * 2 ^ Z.of_nat count))
      with (invertPowerOfTwo_loop count base (Z.shiftr inv1 1)
            * 2 ^ Z.of_nat count * 2) by ring.
    rewrite <- Z.mul_mod_idemp_l, Hc, Z.mul_mod_idemp_l by lia.
    replace (Z.shiftr inv1 1 * 2) with inv1 by lia.
    subst inv1. destruct (Z.odd inv); [|reflexivity].
    rewrite <- Z.add_mod_idemp_r, Z.mod_same, Z.add_0_r by lia. reflexivity.
Qed.

Lemma getReductionContext_odd (base : Z) :
  Z.odd base = true ->
  exists ctx, getReductionContext base = Ok ctx /\ Ctx.base ctx = base.
Proof.
  intros Hodd. unfold getReductionContext. rewrite truthy_land_1, Hodd.
  simpl. eexists. split; reflexivity.
Qed.

Lemma getReductionContext_wellFormed (base : Z) (ctx : Ctx.t) :
  3 <= base -> Z.odd base = true ->
  getReductionContext base = Ok ctx ->
  Ctx.base ctx = base /\ wellFormed ctx.
Proof.
  intros Hge Hodd. unfold getReductionContext.
  rewrite truthy_land_1, Hodd. simpl. intros [= <-]. split; [reflexivity|].
  pose proof (bitLength_spec base ltac:(lia)) as [_ Hlt].
  set (k := Z.of_nat (bitLength base)) in *.
  assert (Hk : 0 <= k) by (subst k; lia).
  assert (Hr : Z.shiftl 1 k = 2 ^ k) by apply Z.shiftl_1_l.
  destruct (invertPowerOfTwo_loop_spec base ltac:(lia) Hodd (bitLength base) 1
              ltac:(lia)) as [Hinv Hcong].
  fold (invertPowerOfTwo (bitLength base) base) in Hinv, Hcong.
  fold k in Hcong. rewrite (Z.mod_small 1) in Hcong by lia.
  set (rInv := invertPowerOfTwo (bitLength base) base) in *.
  constructor; cbn [Ctx.base Ctx.shift Ctx.r Ctx.rInv Ctx.baseInv];
    rewrite ?Hr; try lia.
  - rewrite Z.mul_comm. exact Hcong.
  - assert (Hpos : rInv <> 0).
    { intros E. rewrite E, Z.mul_0_l, Z.mod_0_l in Hcong by lia. lia. }
    assert (Hr1 : 1 < 2 ^ k) by lia.
    set (N := rInv * 2 ^ k - 1).
    assert (HN : 0 <= N) by (subst N; nia).
    assert (Hdiv : N = base * (N / base)).
    { apply Z.div_exact; [lia|]. subst N.
      rewrite <- Zminus_mod_idemp_l, Hcong. reflexivity. }
    rewrite Z.quot_div_nonneg by lia.
    assert (Hq : 0 <= N / base) by (apply Z.div_pos; lia).
    rewrite Z.rem_mod_nonneg by lia.
    set (q := N / base) in *.
    transitivity (1 mod 2 ^ k); [|apply Z.mod_small; lia].
    apply Z.cong_iff_ex. exists (base - rInv + base * (q / 2 ^ k)).
    rewrite (Z.mod_eq q (2 ^ k)) by lia.
    subst N. nia.
Qed.

(** ** Montgomery multiplication *)

Section Montgomery.

Variable ctx : Ctx.t.
Hypothesis wf : wellFormed ctx.

Local Abbreviation N := (Ctx.base ctx).
Local Abbreviation R := (Ctx.r ctx).

Lemma R_pos : 1 < R.
Proof. pose proof (wf_base _ wf). pose proof (wf_lt _ wf). lia. Qed.

Lemma N_pos : 1 < N.
Proof. exact (wf_base _ wf). Qed.

(** [R] can be cancelled modulo [N]. *)
Lemma cancel_R (u v : Z) :
  (u * R) mod N = (v * R) mod N -> u mod N = v mod N.
Proof.
  intros H. pose proof N_pos as HN. pose proof (wf_rInv_inverse _ wf) as Hinv.
  assert (E : forall w, w mod N = (w * R * Ctx.rInv ctx) mod N).
  { intros w. rewrite <- Z.mul_assoc, <- Z.mul_mod_idemp_r, Hinv, Z.mul_1_r by lia.
    reflexivity. }
  rewrite (E u), (E v).
  rewrite <- (Z.mul_mod_idemp_l (u * R)), H, Z.mul_mod_idemp_l by lia.
  reflexivity.
Qed.

Lemma land_rm1 (x : Z) : Z.land x (R - 1) = x mod R.
Proof.
  rewrite (wf_r _ wf).
  replace (2 ^ Ctx.shift ctx - 1) with (Z.ones (Ctx.shift ctx))
    by (rewrite Z.ones_equiv; lia).
  apply Z.land_ones. exact (wf_shift _ wf).
Qed.

Lemma montgomeryMul_product_spec (a b : Z) :
  0 <= a < N -> 0 <= b < N ->
  - N < montgomeryMul_product a b ctx < N /\
  (montgomeryMul_product a b ctx * R) mod N = (a * b) mod N.
Proof.
  intros Ha Hb. pose proof N_pos as HN. pose proof R_pos as HR.
  pose proof (wf_lt _ wf) as Hlt.
  unfold montgomeryMul_product. rewrite !land_rm1.
  set (T := a * b).
  set (m := ((T mod R) * Ctx.baseInv ctx) mod R).
  assert (Hm : 0 <= m < R) by (apply Z.mod_pos_bound; lia).
  assert (HT : 0 <= T <= (N - 1) * (N - 1)) by (subst T; nia).
  assert (Hex : (T - m * N) mod R = 0).
  { rewrite <- Zminus_mod_idemp_r. subst m.
    rewrite Z.mul_mod_idemp_l, <- Z.mul_assoc, Z.mul_mod_idemp_l by lia.
    rewrite <- Z.mul_mod_idemp_r by lia.
    rewrite (Z.mul_comm (Ctx.baseInv ctx) N).
    pose proof (wf_baseInv_inverse _ wf) as Hinv.
    rewrite Hinv, Z.mul_1_r, Zminus_mod_idemp_r, Z.sub_diag. reflexivity. }
  rewrite Z.shiftr_div_pow2 by exact (wf_shift _ wf).
  rewrite <- (wf_r _ wf).
  assert (Hp : T - m * N = R * ((T - m * N) / R)).
  { apply Z.div_exact; [lia|assumption]. }
  set (p := (T - m * N) / R) in *.
  split; [nia|].
  replace (p * R) with (T + - m * N) by lia.
  now rewrite Z.mod_add by lia.
Qed.

Lemma montgomeryMul_fold_spec (p : Z) :
  - N < p < N ->
  0 <= montgomeryMul_fold p ctx < N /\
  (montgomeryMul_fold p ctx = p \/ montgomeryMul_fold p ctx = p + N).
Proof.
  intros Hp. unfold montgomeryMul_fold.
  destruct (Z.leb_spec N p); [lia|].
  destruct (Z.ltb_spec p 0); lia.
Qed.

Lemma montgomeryMul_spec (a b : Z) :
  0 <= a < N -> 0 <= b < N ->
  0 <= montgomeryMul a b ctx < N /\
  (montgomeryMul a b ctx * R) mod N = (a * b) mod N.
Proof.
  intros Ha Hb. pose proof N_pos as HN. unfold montgomeryMul.
  destruct (Z.eqb_spec a 0) as [->|Hna]; simpl.
  { split; [lia|]. reflexivity. }
  destruct (Z.eqb_spec b 0) as [->|Hnb]; simpl.
  { split; [lia|]. now rewrite Z.mul_0_r. }
  destruct (montgomeryMul_product_spec a b Ha Hb) as [Hrange Hcong].
  destruct (montgomeryMul_fold_spec _ Hrange) as [Hfold [E|E]].
  - split; [assumption|]. now rewrite E.
  - split; [assumption|]. rewrite E, Z.mul_add_distr_r, Z.mul_comm with (n := N).
    now rewrite Z.mod_add by lia.
Qed.

Lemma montgomeryMul_rInv (a b : Z) :
  0 <= a < N -> 0 <= b < N ->
  montgomeryMul a b ctx mod N = (a * b * Ctx.rInv ctx) mod N.
Proof.
  intros Ha Hb. pose proof N_pos as HN.
  destruct (montgomeryMul_spec a b Ha Hb) as [_ Hc].
  apply cancel_R. rewrite Hc.
  replace (a * b * Ctx.rInv ctx * R) with (a * b * (R * Ctx.rInv ctx)) by ring.
  pose proof (wf_rInv_inverse _ wf) as Hinv.
  rewrite <- (Z.mul_mod_idemp_r (a * b) (R * Ctx.rInv ctx)) by lia.
  now rewrite Hinv, Z.mul_1_r.
Qed.

End Montgomery.

Lemma montgomeryMul_product_zero (a b : Z) (ctx : Ctx.t) :
  a = 0 \/ b = 0 -> montgomeryMul_product a b ctx = 0.
Proof.
  intros H. unfold montgomeryMul_product. cbv zeta.
  replace (a * b) with 0 by (destruct H; subst; ring).
  change (Z.land 0 (Ctx.r ctx - 1)) with 0.
  change (0 * Ctx.baseInv ctx) with 0.
  change (Z.land 0 (Ctx.r ctx - 1)) with 0.
  change (0 - 0 * Ctx.base ctx) with 0.
  apply Z.shiftr_0_l.
Qed.

(** ** Montgomery exponentiation *)

Section MontgomeryPow.

Variable ctx : Ctx.t.
Hypothesis wf : wellFormed ctx.

Local Abbreviation N := (Ctx.base ctx).
Local Abbreviation R := (Ctx.r ctx).

Lemma montgomeryReduce_mod (v : Z) :
  0 <= v -> montgomeryReduce v ctx = (v * R) mod N.
Proof.
  intros Hv. pose proof (N_pos ctx wf) as HN. pose proof (R_pos ctx wf) as HR.
  unfold montgomeryReduce.
  rewrite Z.shiftl_mul_pow2 by exact (wf_shift _ wf).
  rewrite <- (wf_r _ wf). apply Z.rem_mod_nonneg; nia.
Qed.

Lemma invMontgomeryReduce_mod (x : Z) :
  0 <= x -> invMontgomeryReduce x ctx = (x * Ctx.rInv ctx) mod N.
Proof.
  intros Hx. pose proof (N_pos ctx wf) as HN. pose proof (wf_rInv _ wf).
  unfold invMontgomeryReduce. apply Z.rem_mod_nonneg; nia.
Qed.

Lemma montgomeryReduce_represents (v : Z) :
  0 <= v -> represents ctx (montgomeryReduce v ctx) v.
Proof.
  intros Hv. pose proof (N_pos ctx wf) as HN.
  rewrite montgomeryReduce_mod by assumption. split.
  - apply Z.mod_pos_bound; lia.
  - apply Z.mod_mod; lia.
Qed.

Lemma invMontgomeryReduce_represents (x X : Z) :
  represents ctx x X -> invMontgomeryReduce x ctx = X mod N.
Proof.
  intros [Hx Hc]. pose proof (N_pos ctx wf) as HN.
  rewrite invMontgomeryReduce_mod by lia.
  rewrite <- Z.mul_mod_idemp_l, Hc, Z.mul_mod_idemp_l by lia.
  rewrite <- Z.mul_assoc, <- Z.mul_mod_idemp_r, (wf_rInv_inverse _ wf) by lia.
  now rewrite Z.mul_1_r.
Qed.

Lemma represents_invMontgomeryReduce (x : Z) :
  0 <= x < N -> represents ctx x (invMontgomeryReduce x ctx).
Proof.
  intros Hx. pose proof (N_pos ctx wf) as HN. split; [assumption|].
  rewrite invMontgomeryReduce_mod by lia.
  rewrite Z.mul_mod_idemp_l by lia.
  rewrite <- Z.mul_assoc, (Z.mul_comm (Ctx.rInv ctx)).
  rewrite <- Z.mul_mod_idemp_r, (wf_rInv_inverse _ wf) by lia.
  now rewrite Z.mul_1_r.
Qed.

Lemma montgomeryMul_represents (x y X Y : Z) :
  represents ctx x X -> represents ctx y Y ->
  represents ctx (montgomeryMul x y ctx) (X * Y).
Proof.
  intros [Hx Hcx] [Hy Hcy]. pose proof (N_pos ctx wf) as HN.
  destruct (montgomeryMul_spec ctx wf x y Hx Hy) as [Hrange Hc].
  split; [assumption|]. apply (cancel_R ctx wf). rewrite Hc.
  rewrite <- Z.mul_mod_idemp_l, <- Z.mul_mod_idemp_r, Hcx, Hcy by lia.
  rewrite Z.mul_mod_idemp_l, Z.mul_mod_idemp_r by lia.
  f_equal. ring.
Qed.

Lemma montgomerySqr_represents (x X : Z) :
  represents ctx x X -> represents ctx (montgomerySqr x ctx) (X * X).
Proof. intros H. now apply montgomeryMul_represents. Qed.

Lemma mod_pow2_succ (e i : Z) :
  0 <= i ->
  e mod 2 ^ (i + 1) = e mod 2 ^ i + (if Z.testbit e i then 2 ^ i else 0).
Proof.
  intros Hi. assert (0 < 2 ^ i) by (apply Z.pow_pos_nonneg; lia).
  rewrite Z.pow_add_r, Z.pow_1_r by lia.
  rewrite Z.rem_mul_r by lia.
  rewrite <- Z.testbit_spec' by lia.
  destruct (Z.testbit e i); simpl; lia.
Qed.

Lemma montgomeryPow_loop_represents (A exp : Z) (count : nat) :
  forall i x res,
    0 <= i ->
    represents ctx x (A ^ (2 ^ i)) ->
    represents ctx res (A ^ (exp mod 2 ^ i)) ->
    represents ctx (montgomeryPow_loop count i x res exp ctx)
      (A ^ (exp mod 2 ^ (i + Z.of_nat count))).
Proof.
  induction count as [|count IH]; intros i x res Hi Hx Hres.
  - simpl. now rewrite Z.add_0_r.
  - cbn [montgomeryPow_loop]. rewrite truthy_land_bit by assumption.
    replace (i + Z.of_nat (S count)) with ((i + 1) + Z.of_nat count) by lia.
    assert (Hp : 0 < 2 ^ i) by (apply Z.pow_pos_nonneg; lia).
    apply IH; [lia| |].
    + rewrite Z.pow_add_r, Z.pow_1_r by lia.
      replace (2 ^ i * 2) with (2 ^ i + 2 ^ i) by lia.
      rewrite Z.pow_add_r by lia. now apply montgomerySqr_represents.
    + rewrite mod_pow2_succ by assumption.
      assert (0 <= exp mod 2 ^ i) by (apply Z.mod_pos_bound; lia).
      destruct (Z.testbit exp i).
      * rewrite Z.pow_add_r by lia. now apply montgomeryMul_represents.
      * now rewrite Z.add_0_r.
Qed.

Lemma montgomeryPow_represents (a A exp : Z) :
  0 <= exp -> represents ctx a A ->
  represents ctx (montgomeryPow a exp ctx) (A ^ exp).
Proof.
  intros Hexp Ha. unfold montgomeryPow.
  pose proof (montgomeryPow_loop_represents A exp (bitLength exp) 0 a
                (montgomeryReduce 1 ctx) ltac:(lia)) as H.
  simpl Z.add in H. rewrite Z.pow_0_r, Z.pow_1_r, Z.mod_1_r, Z.pow_0_r in H.
  specialize (H Ha (montgomeryReduce_represents 1 ltac:(lia))).
  replace (exp mod 2 ^ Z.of_nat (bitLength exp)) with exp in H; [exact H|].
  symmetry. destruct (Z.eq_dec exp 0) as [->|Hne].
  - apply Z.mod_0_l. apply Z.pow_nonzero; lia.
  - apply Z.mod_small. pose proof (bitLength_spec exp ltac:(lia)). lia.
Qed.

End MontgomeryPow.

(** ** ugcd *)

Lemma odd_not_divide_2 (q b : Z) :
  Z.odd b = true -> (q | b) -> Z.gcd q 2 = 1.
Proof.
  intros Hb [k Hk].
  assert (Hq : Z.odd q = true).
  { rewrite Hk, Z.odd_mul in Hb. now apply andb_true_iff in Hb. }
  pose proof (Z.gcd_nonneg q 2) as Hnn.
  pose proof (Z.gcd_divide_r q 2) as H2.
  pose proof (Z.gcd_divide_l q 2) as [j Hj].
  assert (Hle : Z.gcd q 2 <= 2) by (apply Z.divide_pos_le; [lia|assumption]).
  assert (Hne : Z.gcd q 2 <> 0).
  { intros E. rewrite E in H2. destruct H2 as [c Hc]. lia. }
  assert (Hne2 : Z.gcd q 2 <> 2).
  { intros E. rewrite E in Hj. rewrite Hj, Z.odd_mul in Hq.
    apply andb_true_iff in Hq. destruct Hq as [_ Hq]. discriminate. }
  lia.
Qed.

Lemma gcd_double_odd (c b : Z) :
  Z.odd b = true -> Z.gcd (2 * c) b = Z.gcd c b.
Proof.
  intros Hb. apply Z.gcd_unique.
  - apply Z.gcd_nonneg.
  - apply Z.divide_mul_r, Z.gcd_divide_l.
  - apply Z.gcd_divide_r.
  - intros q Hqc Hqb. apply Z.gcd_greatest; [|assumption].
    apply (Z.gauss q 2 c); [assumption|].
    now apply (odd_not_divide_2 q b).
Qed.

Lemma even_half (a : Z) :
  Z.odd a = false -> a = 2 * Z.shiftr a 1.
Proof.
  intros He. rewrite Z.shiftr_div_pow2 by lia. change (2 ^ 1) with 2.
  pose proof (Z.div_mod a 2 ltac:(lia)) as Hdm.
  rewrite Zmod_odd, He in Hdm. lia.
Qed.

Lemma log2_half (a : Z) :
  0 < a -> Z.odd a = false ->
  0 < Z.shiftr a 1 /\ Z.log2 (Z.shiftr a 1) = Z.log2 a - 1.
Proof.
  intros Ha He. pose proof (even_half a He) as Hh.
  assert (Hpos : 0 < Z.shiftr a 1) by lia. split; [assumption|].
  rewrite Hh at 2. rewrite Z.log2_double by assumption. lia.
Qed.

Lemma ugcd_stripTwos_spec (fuel : nat) :
  forall a,
    0 < a -> Z.log2 a < Z.of_nat fuel ->
    exists a',
      ugcd_stripTwos fuel a = Some a' /\
      Z.odd a' = true /\ 0 < a' <= a /\
      (Z.odd a = true -> a' = a) /\
      (Z.odd a = false -> Z.log2 a' < Z.log2 a) /\
      (forall b, Z.odd b = true -> Z.gcd a' b = Z.gcd a b).
Proof.
  induction fuel as [|fuel IH]; intros a Ha Hfuel.
  - pose proof (Z.log2_nonneg a). lia.
  - cbn [ugcd_stripTwos]. rewrite truthy_land_1.
    destruct (Z.odd a) eqn:Hodd; simpl.
    + exists a. repeat split; try lia; try discriminate; auto.
    + destruct (log2_half a Ha Hodd) as [Hpos Hlog].
      destruct (IH (Z.shiftr a 1) Hpos ltac:(lia))
        as (a' & Hrun & Hodd' & Hrange & _ & _ & Hgcd).
      pose proof (even_half a Hodd) as Hh.
      exists a'. repeat split; try lia; try discriminate; auto.
      * intros _. pose proof (Z.log2_le_mono a' (Z.shiftr a 1) ltac:(lia)). lia.
      * intros b Hb. rewrite Hgcd by assumption. rewrite Hh at 2.
        symmetry. now apply gcd_double_odd.
Qed.

Lemma ugcd_sharedTwos_spec (fuel : nat) :
  forall a b s,
    0 < a -> 0 < b -> 0 <= s -> Z.log2 a < Z.of_nat fuel ->
    exists a' b' s',
      ugcd_sharedTwos fuel a b s = Some (a', b', s') /\
      0 < a' <= a /\ 0 < b' <= b /\ s <= s' /\
      (Z.odd a' = true \/ Z.odd b' = true) /\
      Z.gcd a' b' * 2 ^ s' = Z.gcd a b * 2 ^ s.
Proof.
  induction fuel as [|fuel IH]; intros a b s Ha Hb Hs Hfuel.
  - pose proof (Z.log2_nonneg a). lia.
  - cbn [ugcd_sharedTwos]. rewrite !land_1_mod, !Zmod_odd.
    destruct (Z.odd a) eqn:Hoa, (Z.odd b) eqn:Hob; simpl.
    + exists a, b, s. repeat split; try lia. now left.
    + exists a, b, s. repeat split; try lia. now left.
    + exists a, b, s. repeat split; try lia. now right.
    + destruct (log2_half a Ha Hoa) as [Hpa Hla].
      destruct (log2_half b Hb Hob) as [Hpb _].
      destruct (IH (Z.shiftr a 1) (Z.shiftr b 1) (s + 1) Hpa Hpb ltac:(lia)
                  ltac:(lia))
        as (a' & b' & s' & Hrun & Hra & Hrb & Hss & Hodd & Hgcd).
      pose proof (even_half a Hoa) as Hha. pose proof (even_half b Hob) as Hhb.
      exists a', b', s'. repeat split; try lia; auto.
      rewrite Hgcd. rewrite Hha at 2. rewrite Hhb at 2.
      rewrite Z.gcd_mul_mono_l_nonneg by lia.
      rewrite Z.pow_add_r, Z.pow_1_r by lia. ring.
Qed.

Lemma ugcd_potential_step (a b a1 b1 : Z) :
  0 < a1 <= a -> 0 < b1 <= b ->
  (Z.odd a = true -> a1 = a) -> (Z.odd a = false -> Z.log2 a1 < Z.log2 a) ->
  (Z.odd b = true -> b1 = b) -> (Z.odd b = false -> Z.log2 b1 < Z.log2 b) ->
  2 * (Z.log2 a1 + Z.log2 b1) < ugcd_potential a b.
Proof.
  intros Ha Hb Hao Hae Hbo Hbe. unfold ugcd_potential.
  pose proof (Z.log2_le_mono a1 a ltac:(lia)).
  pose proof (Z.log2_le_mono b1 b ltac:(lia)).
  destruct (Z.odd a), (Z.odd b); cbn [andb];
    try specialize (Hao eq_refl); try specialize (Hbo eq_refl);
    try specialize (Hae eq_refl); try specialize (Hbe eq_refl);
    subst; lia.
Qed.

Lemma ugcd_potential_sub (a1 b1 : Z) :
  0 < b1 < a1 -> Z.odd a1 = true -> Z.odd b1 = true ->
  ugcd_potential (a1 - b1) b1 <= 2 * (Z.log2 a1 + Z.log2 b1).
Proof.
  intros Hlt Ha Hb. unfold ugcd_potential.
  rewrite Z.odd_sub, Ha, Hb. cbn [xorb andb].
  pose proof (Z.log2_le_mono (a1 - b1) a1 ltac:(lia)). lia.
Qed.

Lemma ugcd_loop_spec (fuel : nat) :
  forall a b,
    0 < a -> 0 < b -> Z.odd a = true \/ Z.odd b = true ->
    ugcd_potential a b < Z.of_nat fuel ->
    ugcd_loop fuel a b = Some (Z.gcd a b).
Proof.
  induction fuel as [|fuel IH]; intros a b Ha Hb Hodd Hfuel.
  - unfold ugcd_potential in Hfuel.
    pose proof (Z.log2_nonneg a). pose proof (Z.log2_nonneg b).
    destruct (Z.odd a && Z.odd b); lia.
  - cbn [ugcd_loop].
    destruct (Z.eqb_spec a b) as [->|Hne]; cbn [negb andb].
    { now rewrite Z.gcd_diag_nonneg by lia. }
    destruct (Z.ltb_spec 1 b) as [Hb1|Hb1].
    2:{ replace b with 1 by lia. now rewrite Z.gcd_1_r. }
    assert (Hla : Z.log2 a < Z.of_nat (S fuel)).
    { unfold ugcd_potential in Hfuel. pose proof (Z.log2_nonneg a).
      pose proof (Z.log2_nonneg b). destruct (Z.odd a && Z.odd b); lia. }
    assert (Hlb : Z.log2 b < Z.of_nat (S fuel)).
    { unfold ugcd_potential in Hfuel. pose proof (Z.log2_nonneg a).
      pose proof (Z.log2_nonneg b). destruct (Z.odd a && Z.odd b); lia. }
    destruct (ugcd_stripTwos_spec (S fuel) a Ha Hla)
      as (a1 & -> & Hoa1 & Hra & Hao & Hae & Hga).
    destruct (ugcd_stripTwos_spec (S fuel) b Hb Hlb)
      as (b1 & -> & Hob1 & Hrb & Hbo & Hbe & Hgb).
    pose proof (ugcd_potential_step a b a1 b1 Hra Hrb Hao Hae Hbo Hbe) as Hstep.
    assert (Hg : Z.gcd a1 b1 = Z.gcd a b).
    { destruct Hodd as [Ho|Ho].
      - rewrite (Hao Ho). rewrite Z.gcd_comm, (Z.gcd_comm a b).
        apply Hgb. assumption.
      - rewrite (Hbo Ho). apply Hga. assumption. }
    destruct (Z.ltb_spec a1 b1) as [Hlt|Hge].
    + rewrite IH; try lia.
      * f_equal. rewrite <- Hg, Z.gcd_comm. apply Z.gcd_sub_diag_r.
      * now right.
      * pose proof (ugcd_potential_sub b1 a1 ltac:(lia) Hob1 Hoa1). lia.
    + destruct (Z.eqb_spec a1 b1) as [E|Hne1].
      * f_equal. rewrite <- Hg, E. now rewrite Z.gcd_diag_nonneg by lia.
      * rewrite IH; try lia.
        -- f_equal. rewrite <- Hg, Z.gcd_comm, (Z.gcd_comm a1 b1).
           apply Z.gcd_sub_diag_r.
        -- now right.
        -- pose proof (ugcd_potential_sub a1 b1 ltac:(lia) Hoa1 Hob1). lia.
Qed.

Lemma ugcd_spec (fuel : nat) (a b : Z) :
  0 <= a -> 0 <= b -> ugcd_fuel a b < Z.of_nat fuel ->
  ugcd fuel a b = Some (Z.gcd a b).
Proof.
  intros Ha Hb Hfuel. unfold ugcd, ugcd_fuel in *.
  destruct (Z.eqb_spec a b) as [->|Hne].
  { now rewrite Z.gcd_diag_nonneg. }
  destruct (Z.eqb_spec a 0) as [->|Ha0].
  { rewrite Z.gcd_0_l, Z.abs_eq; auto. }
  destruct (Z.eqb_spec b 0) as [->|Hb0].
  { rewrite Z.gcd_0_r, Z.abs_eq; auto. }
  pose proof (Z.log2_nonneg a). pose proof (Z.log2_nonneg b).
  destruct (ugcd_sharedTwos_spec fuel a b 0 ltac:(lia) ltac:(lia) ltac:(lia)
              ltac:(lia))
    as (a' & b' & s' & -> & Hra & Hrb & Hs & Hodd & Hgcd).
  pose proof (Z.log2_le_mono a' a ltac:(lia)).
  pose proof (Z.log2_le_mono b' b ltac:(lia)).
  rewrite ugcd_loop_spec; try lia; try assumption.
  - f_equal. rewrite Z.shiftl_mul_pow2 by lia. rewrite Hgcd. simpl. ring.
  - unfold ugcd_potential. destruct (Z.odd a' && Z.odd b'); lia.
Qed.

(** ** Reasoning about runs *)

Lemma hoare_ret {A : Type} (P : world -> Prop) (a : A) Q E :
  (forall w, P w -> Q a w) -> hoare P (ret a) Q E.
Proof. intros H w Hw. simpl. auto. Qed.

Lemma hoare_throw {A : Type} (P : world -> Prop) (e : exn)
    (Q : A -> world -> Prop) E :
  (forall w, P w -> E e w) -> hoare P (throw e) Q E.
Proof. intros H w Hw. simpl. auto. Qed.

Lemma hoare_bind {A B : Type} (P : world -> Prop) (m : M A) (k : A -> M B)
    (Q1 : A -> world -> Prop) (Q : B -> world -> Prop) E :
  hoare P m Q1 E -> (forall a, hoare (Q1 a) (k a) Q E) ->
  hoare P (bind m k) Q E.
Proof.
  intros Hm Hk w Hw. unfold bind. specialize (Hm w Hw).
  destruct (m w) as [w1 [a|e]]; [|assumption].
  exact (Hk a w1 Hm).
Qed.

Lemma hoare_ofOption {A : Type} (P : world -> Prop) (x : option A)
    (Q : A -> world -> Prop) (E : exn -> world -> Prop) :
  (forall a w, x = Some a -> P w -> Q a w) ->
  (forall w, x = None -> P w -> E OutOfFuel w) ->
  hoare P (ofOption x) Q E.
Proof. intros HQ HE w Hw. destruct x; simpl; auto. Qed.

Lemma hoare_ofResult {A : Type} (P : world -> Prop) (x : result A)
    (Q : A -> world -> Prop) (E : exn -> world -> Prop) :
  (forall a w, x = Ok a -> P w -> Q a w) ->
  (forall e w, x = Throw e -> P w -> E e w) ->
  hoare P (ofResult x) Q E.
Proof. intros HQ HE w Hw. destruct x; simpl; auto. Qed.

Lemma hoare_call {A : Type} (P : world -> Prop) (c : montgomeryCall)
    (x : result A) (Q : A -> world -> Prop) (E : exn -> world -> Prop) :
  (forall a w, x = Ok a -> P w ->
     Q a (mkWorld (draws w) (calls w ++ [c]))) ->
  (forall e w, x = Throw e -> P w ->
     E e (mkWorld (draws w) (calls w ++ [c]))) ->
  hoare P (call c x) Q E.
Proof. intros HQ HE w Hw. destruct x; simpl; auto. Qed.

Lemma returns_ret {A : Type} (a : A) (phi : A -> Prop) :
  phi a -> returns (ret a) phi.
Proof. intros H. apply hoare_ret. auto. Qed.

Lemma returns_bind {A B : Type} (m : M A) (k : A -> M B)
    (phi : A -> Prop) (psi : B -> Prop) :
  returns m phi -> (forall a, phi a -> returns (k a) psi) ->
  returns (bind m k) psi.
Proof.
  intros Hm Hk w _. unfold bind. specialize (Hm w I).
  destruct (m w) as [w1 [a|e]]; [|exact I].
  exact (Hk a Hm w1 I).
Qed.

Lemma returns_true {A : Type} (m : M A) : returns m (fun _ => True).
Proof. intros w _. destruct (m w) as [w1 [a|e]]; exact I. Qed.

Lemma returns_call {A : Type} (c : montgomeryCall) (x : result A)
    (phi : A -> Prop) :
  (forall a, x = Ok a -> phi a) -> returns (call c x) phi.
Proof. intros H. apply hoare_call; auto. Qed.

Lemma returns_ofOption {A : Type} (x : option A) (phi : A -> Prop) :
  (forall a, x = Some a -> phi a) -> returns (ofOption x) phi.
Proof. intros H. apply hoare_ofOption; auto. Qed.

Lemma returns_ofResult {A : Type} (x : result A) (phi : A -> Prop) :
  (forall a, x = Ok a -> phi a) -> returns (ofResult x) phi.
Proof. intros H. apply hoare_ofResult; auto. Qed.

Lemma returns_throw {A : Type} (e : exn) (phi : A -> Prop) :
  returns (throw e) phi.
Proof. apply hoare_throw. auto. Qed.

Lemma returns_run {A : Type} (m : M A) (phi : A -> Prop) w w' a :
  returns m phi -> m w = (w', Ok a) -> phi a.
Proof. intros H E. specialize (H w I). now rewrite E in H. Qed.

(** ** A verdict that says prime names no witness and no divisor *)

Section RoundsVerdict.

Variable fuel : nat.
Variables n nSub r d : Z.
Variable ctx : Ctx.t.
Variables oneReduced nSubReduced : Z.
Variable validBases : option (list Z).

Lemma compositeBy_composite (findDivisor : bool) (base x : Z) :
  returns (compositeBy fuel findDivisor n ctx base x)
    (fun v => v_probablePrime v = false).
Proof.
  unfold compositeBy. destruct findDivisor.
  - apply returns_bind with (phi := fun _ => True); [apply returns_true|].
    intros xi _.
    apply returns_bind with (phi := fun _ => True); [apply returns_true|].
    intros g _. now apply returns_ret.
  - now apply returns_ret.
Qed.

Lemma millerRabin_test_composite (findDivisor : bool) (base : Z) :
  returns (millerRabin_test fuel findDivisor n r d ctx oneReduced nSubReduced base)
    stopsComposite.
Proof.
  unfold millerRabin_test.
  apply returns_bind with (phi := fun _ => True); [apply returns_true|].
  intros baseReduced _.
  apply returns_bind with (phi := fun _ => True); [apply returns_true|].
  intros x _.
  destruct ((x =? oneReduced) || (x =? nSubReduced)).
  { apply returns_ret. intros v Hv. discriminate. }
  apply returns_bind with (phi := fun _ => True); [apply returns_true|].
  intros [x'| |x'] _.
  - eapply returns_bind; [apply compositeBy_composite|].
    intros v Hv. apply returns_ret. intros v' [= <-]. exact Hv.
  - apply returns_ret. intros v Hv. discriminate.
  - eapply returns_bind; [apply compositeBy_composite|].
    intros v Hv. apply returns_ret. intros v' [= <-]. exact Hv.
Qed.

Lemma millerRabin_round_composite (findDivisor : bool) (base : Z) :
  returns
    (millerRabin_round fuel findDivisor n r d ctx oneReduced nSubReduced base)
    stopsComposite.
Proof.
  unfold millerRabin_round. destruct findDivisor.
  - apply returns_bind with (phi := fun _ => True); [apply returns_true|].
    intros g _. destruct (negb (g =? 1)).
    + apply returns_ret. intros v' [= <-]. reflexivity.
    + apply millerRabin_test_composite.
  - apply millerRabin_test_composite.
Qed.

Lemma millerRabin_rounds_consistent (findDivisor : bool) (count : nat) :
  forall baseIndex,
    returns
      (millerRabin_rounds fuel findDivisor n nSub r d ctx oneReduced
         nSubReduced validBases count baseIndex)
      verdictConsistent.
Proof.
  induction count as [|count IH]; intros baseIndex; cbn [millerRabin_rounds].
  - apply returns_ret. intros _. split; reflexivity.
  - apply returns_bind with (phi := fun _ => True); [apply returns_true|].
    intros base _.
    eapply returns_bind; [apply millerRabin_round_composite|].
    intros [v|] Hv.
    + apply returns_ret. intros Hp. rewrite (Hv v eq_refl) in Hp. discriminate.
    + apply IH.
Qed.

End RoundsVerdict.

Lemma primalityTest_consistent (fuel : nat) (n : Z) (options : Options) :
  returns (primalityTest fuel n options)
    (fun res =>
       PrimalityResult.probablePrime res = true ->
       PrimalityResult.witness res = None /\ PrimalityResult.divisor res = None).
Proof.
  unfold primalityTest, primalityTest_body. cbv zeta.
  set (sign := if n <? 0 then -1 else 1).
  set (m := if sign =? -1 then - n else n).
  destruct (m <? 2). { apply returns_ret. discriminate. }
  destruct (m <? 4). { apply returns_ret. intros _. split; reflexivity. }
  destruct (negb (truthy (Z.land m 1))). { apply returns_ret. discriminate. }
  apply returns_bind with (phi := fun _ => True); [apply returns_true|].
  intros r _.
  apply returns_bind with (phi := fun _ => True); [apply returns_true|].
  intros ctx _.
  apply returns_bind with (phi := fun _ => True); [apply returns_true|].
  intros oneReduced _.
  apply returns_bind with (phi := fun _ => True); [apply returns_true|].
  intros nSubReduced _.
  apply returns_bind with (phi := fun _ => True); [apply returns_true|].
  intros validBases _.
  eapply returns_bind; [apply millerRabin_rounds_consistent|].
  intros v Hv. apply returns_ret. exact Hv.
Qed.

(** ** Only odd moduli reach getReductionContext *)

Lemma quiet_ret {A : Type} (a : A) : quiet (ret a).
Proof. apply hoare_ret. auto. Qed.

Lemma quiet_throw {A : Type} (e : exn) :
  e <> Error_base_must_be_odd -> quiet (@throw A e).
Proof. intros H. apply hoare_throw. auto. Qed.

Lemma quiet_bind {A B : Type} (m : M A) (k : A -> M B) :
  quiet m -> (forall a, quiet (k a)) -> quiet (bind m k).
Proof. intros Hm Hk. eapply hoare_bind; [exact Hm|exact Hk]. Qed.

Lemma quiet_ofOption {A : Type} (x : option A) : quiet (ofOption x).
Proof. apply hoare_ofOption; auto. intros w _ Hw. split; [assumption|discriminate]. Qed.

Lemma quiet_ofResult {A : Type} (x : result A) :
  x <> Throw Error_base_must_be_odd -> quiet (ofResult x).
Proof.
  intros H. apply hoare_ofResult; auto.
  intros e w -> Hw. split; [assumption|congruence].
Qed.

Lemma quiet_call {A : Type} (c : montgomeryCall) (x : result A) :
  oddContextCall c -> x <> Throw Error_base_must_be_odd -> quiet (call c x).
Proof.
  intros Hc Hx.
  assert (Hstep : forall w, oddContextCalls w ->
            oddContextCalls (mkWorld (draws w) (calls w ++ [c]))).
  { intros w Hw. unfold oddContextCalls in *. simpl.
    apply Forall_app. split; [assumption|]. constructor; [assumption|constructor]. }
  apply hoare_call.
  - intros a w _ Hw. auto.
  - intros e w -> Hw. split; [auto|congruence].
Qed.

Lemma quiet_randomBase (nSub : Z) : quiet (randomBase nSub).
Proof.
  intros w Hw. unfold randomBase.
  destruct (randomBase_loop (draws w) nSub) as [[b l']|]; simpl.
  - exact Hw.
  - split; [exact Hw|discriminate].
Qed.

Ltac quiet_step :=
  first
    [ apply quiet_ret
    | apply quiet_throw; discriminate
    | apply quiet_ofOption
    | apply quiet_randomBase
    | apply quiet_call; [exact I|discriminate]
    | apply quiet_bind; [|intros ?] ].

Lemma quiet_millerRabin_loop ctx oneReduced nSubReduced (count : nat) :
  forall x, quiet (millerRabin_loop ctx oneReduced nSubReduced count x).
Proof.
  induction count as [|count IH]; intros x; cbn [millerRabin_loop].
  - quiet_step.
  - repeat quiet_step.
    destruct (_ =? oneReduced); [quiet_step|].
    destruct (_ =? nSubReduced); [quiet_step|]. apply IH.
Qed.

Lemma quiet_compositeBy fuel findDivisor n ctx base x :
  quiet (compositeBy fuel findDivisor n ctx base x).
Proof. unfold compositeBy. destruct findDivisor; repeat quiet_step. Qed.

Lemma quiet_millerRabin_test fuel findDivisor n r d ctx oneReduced nSubReduced base :
  quiet (millerRabin_test fuel findDivisor n r d ctx oneReduced nSubReduced base).
Proof.
  unfold millerRabin_test. repeat quiet_step.
  destruct (_ || _); [quiet_step|].
  apply quiet_bind; [apply quiet_millerRabin_loop|].
  intros [x'| |x']; repeat quiet_step; apply quiet_compositeBy.
Qed.

Lemma quiet_millerRabin_round fuel findDivisor n r d ctx oneReduced nSubReduced base :
  quiet (millerRabin_round fuel findDivisor n r d ctx oneReduced nSubReduced base).
Proof.
  unfold millerRabin_round. destruct findDivisor.
  - repeat quiet_step. destruct (negb _); [quiet_step|].
    apply quiet_millerRabin_test.
  - apply quiet_millerRabin_test.
Qed.

Lemma quiet_nextBase nSub validBases baseIndex :
  quiet (nextBase nSub validBases baseIndex).
Proof.
  unfold nextBase. destruct validBases as [l|]; [|quiet_step].
  destruct (nth_error l baseIndex); quiet_step.
Qed.

Lemma quiet_millerRabin_rounds fuel findDivisor n nSub r d ctx oneReduced
    nSubReduced validBases (count : nat) :
  forall baseIndex,
    quiet (millerRabin_rounds fuel findDivisor n nSub r d ctx oneReduced
             nSubReduced validBases count baseIndex).
Proof.
  induction count as [|count IH]; intros baseIndex; cbn [millerRabin_rounds].
  - quiet_step.
  - apply quiet_bind; [apply quiet_nextBase|]. intros base.
    apply quiet_bind; [apply quiet_millerRabin_round|].
    intros [v|]; [quiet_step|apply IH].
Qed.

Lemma validateBases_not_odd_error bases nSub :
  validateBases bases nSub <> Throw Error_base_must_be_odd.
Proof.
  destruct bases as [|l|]; simpl; try discriminate.
  assert (H : validateBases_map l nSub <> Throw Error_base_must_be_odd).
  { induction l as [|b l IH]; simpl; [discriminate|].
    destruct (negb (2 <=? b) || negb (b <? nSub)); [discriminate|].
    destruct (validateBases_map l nSub) eqn:E; [discriminate|congruence]. }
  destruct (validateBases_map l nSub) eqn:E; [discriminate|congruence].
Qed.

Lemma quiet_primalityTest (fuel : nat) (n : Z) (options : Options) :
  quiet (primalityTest fuel n options).
Proof.
  unfold primalityTest, primalityTest_body. cbv zeta.
  set (sign := if n <? 0 then -1 else 1).
  set (m := if sign =? -1 then - n else n).
  destruct (m <? 2); [quiet_step|].
  destruct (m <? 4); [quiet_step|].
  destruct (negb (truthy (Z.land m 1))) eqn:Hodd; [quiet_step|].
  apply negb_false_iff in Hodd. rewrite truthy_land_1 in Hodd.
  destruct (getReductionContext_odd m Hodd) as (ctx & Hctx & _).
  apply quiet_bind; [quiet_step|]. intros r.
  apply quiet_bind.
  { apply quiet_call; [exact Hodd|]. rewrite Hctx. discriminate. }
  intros ctx'.
  apply quiet_bind; [quiet_step|]. intros oneReduced.
  apply quiet_bind; [quiet_step|]. intros nSubReduced.
  apply quiet_bind.
  { apply quiet_ofResult, validateBases_not_odd_error. }
  intros validBases.
  apply quiet_bind; [apply quiet_millerRabin_rounds|].
  intros v. quiet_step.
Qed.

(** ** More fuel never changes a result of ugcd *)

Lemma ugcd_stripTwos_mono (fuel : nat) :
  forall fuel' a x,
    (fuel <= fuel')%nat ->
    ugcd_stripTwos fuel a = Some x -> ugcd_stripTwos fuel' a = Some x.
Proof.
  induction fuel as [|fuel IH]; intros fuel' a x Hle H; [discriminate|].
  destruct fuel' as [|fuel']; [lia|].
  cbn [ugcd_stripTwos] in *.
  destruct (negb (truthy (Z.land a 1))); [|assumption].
  apply IH; [lia|assumption].
Qed.

Lemma ugcd_sharedTwos_mono (fuel : nat) :
  forall fuel' a b s x,
    (fuel <= fuel')%nat ->
    ugcd_sharedTwos fuel a b s = Some x -> ugcd_sharedTwos fuel' a b s = Some x.
Proof.
  induction fuel as [|fuel IH]; intros fuel' a b s x Hle H; [discriminate|].
  destruct fuel' as [|fuel']; [lia|].
  cbn [ugcd_sharedTwos] in *.
  destruct (negb (truthy (Z.lor (Z.land a 1) (Z.land b 1)))); [|assumption].
  apply IH; [lia|assumption].
Qed.

Lemma ugcd_loop_mono (fuel : nat) :
  forall fuel' a b x,
    (fuel <= fuel')%nat ->
    ugcd_loop fuel a b = Some x -> ugcd_loop fuel' a b = Some x.
Proof.
  induction fuel as [|fuel IH]; intros fuel' a b x Hle H; [discriminate|].
  destruct fuel' as [|fuel']; [lia|].
  cbn [ugcd_loop] in *.
  destruct (negb (a =? b) && (1 <? b)); [|assumption].
  destruct (ugcd_stripTwos (S fuel) a) as [a1|] eqn:Ea; [|discriminate].
  rewrite (ugcd_stripTwos_mono _ (S fuel') _ _ Hle Ea).
  destruct (ugcd_stripTwos (S fuel) b) as [b1|] eqn:Eb; [|discriminate].
  rewrite (ugcd_stripTwos_mono _ (S fuel') _ _ Hle Eb).
  destruct (a1 <? b1); [apply IH; [lia|assumption]|].
  destruct (a1 =? b1); [assumption|].
  apply IH; [lia|assumption].
Qed.

Lemma ugcd_mono (fuel fuel' : nat) (a b x : Z) :
  (fuel <= fuel')%nat -> ugcd fuel a b = Some x -> ugcd fuel' a b = Some x.
Proof.
  intros Hle. unfold ugcd.
  destruct (a =? b); [auto|]. destruct (a =? 0); [auto|].
  destruct (b =? 0); [auto|].
  destruct (ugcd_sharedTwos fuel a b 0) as [[[a1 b1] s]|] eqn:Es; [|discriminate].
  rewrite (ugcd_sharedTwos_mono _ fuel' _ _ _ _ Hle Es).
  destruct (ugcd_loop fuel a1 b1) as [g|] eqn:El; [|discriminate].
  now rewrite (ugcd_loop_mono _ fuel' _ _ _ Hle El).
Qed.

(** Whatever [ugcd] returns on non-negative arguments is their gcd. *)
Lemma ugcd_sound (fuel : nat) (a b g : Z) :
  0 <= a -> 0 <= b -> ugcd fuel a b = Some g -> g = Z.gcd a b.
Proof.
  intros Ha Hb H.
  set (fuel' := Nat.max fuel (S (Z.to_nat (ugcd_fuel a b)))).
  pose proof (ugcd_mono fuel fuel' a b g (Nat.le_max_l _ _) H) as H'.
  rewrite ugcd_spec in H'; try assumption.
  - congruence.
  - subst fuel'. lia.
Qed.

(** ** A reported divisor divides [n] and is not trivial *)

Lemma validateBases_map_range (nSub : Z) (l l' : list Z) :
  validateBases_map l nSub = Ok l' ->
  l' = l /\ Forall (fun b => 2 <= b < nSub) l.
Proof.
  revert l'. induction l as [|b l IH]; intros l'; simpl.
  - intros [= <-]. split; [reflexivity|constructor].
  - destruct (Z.leb_spec 2 b); simpl; [|discriminate].
    destruct (Z.ltb_spec b nSub); simpl; [|discriminate].
    destruct (validateBases_map l nSub) as [l''|]; [|discriminate].
    intros [= <-]. destruct (IH l'' eq_refl) as [-> HF].
    split; [reflexivity|]. constructor; [lia|assumption].
Qed.

Lemma randomBase_loop_range (nSub : Z) (l l' : list Z) (b : Z) :
  randomBase_loop l nSub = Some (b, l') -> 2 <= b < nSub.
Proof.
  induction l as [|c l IH]; simpl; [discriminate|].
  destruct (Z.leb_spec 2 c); simpl; [|assumption].
  destruct (Z.ltb_spec c nSub); simpl; [|assumption].
  intros [= <- _]. lia.
Qed.

Lemma nextBase_range (nSub : Z) (validBases : option (list Z)) (baseIndex : nat) :
  (forall l, validBases = Some l -> Forall (fun b => 2 <= b < nSub) l) ->
  returns (nextBase nSub validBases baseIndex) (fun b => 2 <= b < nSub).
Proof.
  intros Hvalid. unfold nextBase. destruct validBases as [l|].
  - destruct (nth_error l baseIndex) as [b|] eqn:E; [|apply returns_throw].
    apply returns_ret. specialize (Hvalid l eq_refl).
    rewrite Forall_forall in Hvalid. apply Hvalid.
    eapply nth_error_In; eassumption.
  - intros w _. unfold randomBase.
    destruct (randomBase_loop (draws w) nSub) as [[b l']|] eqn:E; [|exact I].
    eapply randomBase_loop_range; eassumption.
Qed.

Section Divisor.

Variable fuel : nat.
Variables n nSub r d : Z.
Variable ctx : Ctx.t.
Variable nSubReduced : Z.

Hypothesis n_large : 5 <= n.
Hypothesis ctx_wf : wellFormed ctx.
Hypothesis ctx_base : Ctx.base ctx = n.
Hypothesis d_nonneg : 0 <= d.

Local Abbreviation oneReduced := (montgomeryReduce 1 ctx).

Lemma unitForm_reduce (base : Z) :
  0 <= base -> Z.gcd n base = 1 -> unitForm n ctx (montgomeryReduce base ctx).
Proof.
  intros Hb Hg. exists base. split.
  - now apply montgomeryReduce_represents.
  - now rewrite Z.gcd_comm.
Qed.

Lemma unitForm_pow (x e : Z) :
  0 <= e -> unitForm n ctx x -> unitForm n ctx (montgomeryPow x e ctx).
Proof.
  intros He (X & Hx & Hg). exists (X ^ e). split.
  - now apply montgomeryPow_represents.
  - now apply Z.coprime_pow_l.
Qed.

Lemma unitForm_sqr (x : Z) : unitForm n ctx x -> unitForm n ctx (montgomerySqr x ctx).
Proof.
  intros (X & Hx & Hg). exists (X * X). split.
  - now apply montgomerySqr_represents.
  - now apply Z.coprime_mul_l.
Qed.

(** An invertible residue other than 1 leaves [xi - 1] within [[1, n-2]]. *)
Lemma unitForm_inv_range (x : Z) :
  unitForm n ctx x -> x <> oneReduced ->
  1 <= invMontgomeryReduce x ctx - 1 <= n - 2.
Proof.
  intros (X & Hx & Hg) Hne.
  rewrite (invMontgomeryReduce_represents ctx ctx_wf x X Hx), ctx_base.
  pose proof (Z.mod_pos_bound X n ltac:(lia)) as Hr.
  assert (H0 : X mod n <> 0).
  { intros E. apply Z.mod_divide in E; [|lia].
    assert (Hd : (n | 1)).
    { rewrite <- Hg. apply Z.gcd_greatest; [assumption|apply Z.divide_refl]. }
    apply Z.divide_1_r_nonneg in Hd; lia. }
  assert (H1 : X mod n <> 1).
  { intros E. apply Hne. destruct Hx as [Hrange Hc].
    rewrite ctx_base in Hrange, Hc.
    rewrite (montgomeryReduce_mod ctx ctx_wf 1) by lia. rewrite ctx_base.
    rewrite <- (Z.mod_small x n) by lia. rewrite Hc.
    rewrite <- Z.mul_mod_idemp_l, E by lia. reflexivity. }
  lia.
Qed.

Lemma gcd_properDivisor (a g : Z) :
  1 <= a < n -> g = Z.gcd a n ->
  properDivisor n (if g =? 1 then None else Some g).
Proof.
  intros Ha -> dv. destruct (Z.eqb_spec (Z.gcd a n) 1) as [|Hne]; [discriminate|].
  intros [= <-].
  pose proof (Z.gcd_nonneg a n). pose proof (Z.gcd_divide_l a n) as Hl.
  pose proof (Z.gcd_divide_r a n) as Hr.
  assert (Z.gcd a n <> 0).
  { intros E. apply Z.gcd_eq_0 in E. lia. }
  apply Z.divide_pos_le in Hl; [|lia].
  split; [assumption|lia].
Qed.

Lemma compositeBy_divisor (findDivisor : bool) (base x : Z) :
  unitForm n ctx x -> x <> oneReduced ->
  returns (compositeBy fuel findDivisor n ctx base x)
    (fun v => properDivisor n (v_divisor v)).
Proof.
  intros Hx Hne. unfold compositeBy. destruct findDivisor.
  - pose proof (unitForm_inv_range x Hx Hne) as Hrange.
    apply returns_bind
      with (phi := fun xi => xi = invMontgomeryReduce x ctx).
    { apply returns_call. now intros a [= <-]. }
    intros xi ->.
    apply returns_bind
      with (phi := fun g => g = Z.gcd (invMontgomeryReduce x ctx - 1) n).
    { apply returns_ofOption. intros g Hg. eapply ugcd_sound; [| |eassumption]; lia. }
    intros g Hg. apply returns_ret. simpl.
    apply (gcd_properDivisor (invMontgomeryReduce x ctx - 1)); [lia|assumption].
  - apply returns_ret. intros dv. discriminate.
Qed.

Lemma compositeBy_no_divisor (base x : Z) :
  returns (compositeBy fuel false n ctx base x) (fun v => v_divisor v = None).
Proof. apply returns_ret. reflexivity. Qed.

Lemma millerRabin_loop_good (count : nat) :
  forall x,
    unitForm n ctx x -> x <> oneReduced ->
    returns (millerRabin_loop ctx oneReduced nSubReduced count x) (innerExitGood n ctx).
Proof.
  induction count as [|count IH]; intros x Hx Hne; cbn [millerRabin_loop].
  - apply returns_ret. simpl. auto.
  - apply returns_bind with (phi := fun y => y = montgomerySqr x ctx).
    { apply returns_call. now intros a [= <-]. }
    intros y ->.
    destruct (Z.eqb_spec (montgomerySqr x ctx) oneReduced) as [E|Hne'].
    { apply returns_ret. simpl. auto. }
    destruct (montgomerySqr x ctx =? nSubReduced).
    { apply returns_ret. exact I. }
    apply IH; [now apply unitForm_sqr|assumption].
Qed.

Lemma millerRabin_test_divisor (findDivisor : bool) (base : Z) :
  0 <= base -> (findDivisor = true -> Z.gcd n base = 1) ->
  returns
    (millerRabin_test fuel findDivisor n r d ctx oneReduced nSubReduced base)
    (stopsWithDivisor n).
Proof.
  intros Hb Hg. unfold millerRabin_test.
  destruct findDivisor.
  - specialize (Hg eq_refl).
    apply returns_bind with (phi := unitForm n ctx).
    { apply returns_call. intros a [= <-]. now apply unitForm_reduce. }
    intros baseReduced Hbr.
    apply returns_bind with (phi := unitForm n ctx).
    { apply returns_call. intros a [= <-]. now apply unitForm_pow. }
    intros x Hx.
    destruct (Z.eqb_spec x oneReduced) as [E|Hne]; cbn [orb].
    { apply returns_ret. intros v Hv. discriminate. }
    destruct (x =? nSubReduced).
    { apply returns_ret. intros v Hv. discriminate. }
    eapply returns_bind; [now apply millerRabin_loop_good|].
    intros [x'| |x'] Hgood; simpl in Hgood.
    + eapply returns_bind; [apply compositeBy_divisor; tauto|].
      intros v Hv. apply returns_ret. intros v' [= <-]. exact Hv.
    + apply returns_ret. intros v Hv. discriminate.
    + eapply returns_bind; [apply compositeBy_divisor; tauto|].
      intros v Hv. apply returns_ret. intros v' [= <-]. exact Hv.
  - apply returns_bind with (phi := fun _ => True); [apply returns_true|].
    intros baseReduced _.
    apply returns_bind with (phi := fun _ => True); [apply returns_true|].
    intros x _.
    destruct ((x =? oneReduced) || (x =? nSubReduced)).
    { apply returns_ret. intros v Hv. discriminate. }
    apply returns_bind with (phi := fun _ => True); [apply returns_true|].
    intros [x'| |x'] _.
    + eapply returns_bind; [apply compositeBy_no_divisor|].
      intros v Hv. apply returns_ret. intros v' [= <-] dv. rewrite Hv. discriminate.
    + apply returns_ret. intros v Hv. discriminate.
    + eapply returns_bind; [apply compositeBy_no_divisor|].
      intros v Hv. apply returns_ret. intros v' [= <-] dv. rewrite Hv. discriminate.
Qed.

Lemma millerRabin_round_divisor (findDivisor : bool) (base : Z) :
  2 <= base < n - 1 ->
  returns
    (millerRabin_round fuel findDivisor n r d ctx oneReduced nSubReduced base)
    (stopsWithDivisor n).
Proof.
  intros Hb. unfold millerRabin_round. destruct findDivisor.
  - apply returns_bind with (phi := fun g => g = Z.gcd n base).
    { apply returns_ofOption. intros g Hg. eapply ugcd_sound; [| |eassumption]; lia. }
    intros g ->. destruct (Z.eqb_spec (Z.gcd n base) 1) as [E|Hne]; cbn [negb].
    + apply millerRabin_test_divisor; [lia|auto].
    + apply returns_ret. intros v' [= <-]. simpl.
      pose proof (gcd_properDivisor base (Z.gcd base n) ltac:(lia) eq_refl) as H.
      rewrite (Z.gcd_comm n base).
      destruct (Z.eqb_spec (Z.gcd base n) 1) as [E|_]; [|exact H].
      rewrite Z.gcd_comm in E. contradiction.
  - apply millerRabin_test_divisor; [lia|discriminate].
Qed.

Lemma millerRabin_rounds_divisor (findDivisor : bool)
    (validBases : option (list Z)) (count : nat) :
  nSub = n - 1 ->
  (forall l, validBases = Some l -> Forall (fun b => 2 <= b < nSub) l) ->
  forall baseIndex,
    returns
      (millerRabin_rounds fuel findDivisor n nSub r d ctx oneReduced
         nSubReduced validBases count baseIndex)
      (fun v => properDivisor n (v_divisor v)).
Proof.
  intros HnSub Hvalid.
  induction count as [|count IH]; intros baseIndex; cbn [millerRabin_rounds].
  - apply returns_ret. intros dv. discriminate.
  - eapply returns_bind; [now apply nextBase_range|].
    intros base Hb. rewrite HnSub in Hb.
    eapply returns_bind; [now apply millerRabin_round_divisor|].
    intros [v|] Hv.
    + apply returns_ret. now apply Hv.
    + apply IH.
Qed.

End Divisor.

Lemma primalityTest_odd_unfold (fuel : nat) (n : Z) (options : Options) :
  5 <= n -> Z.odd n = true ->
  primalityTest fuel n options =
  (let bases :=
     if small_determinism_mode options && (n <? 341550071728321)
     then BasesArray (smallDeterminismBases n)
     else bases options in
   let nBits := bitLength n in
   let nSub := n - 1 in
   r <- ofOption (twoMultiplicity fuel nSub) ;;
   let d := Z.shiftr nSub r in
   reductionContext <- call (Call_getReductionContext n) (getReductionContext n) ;;
   oneReduced <- call (Call_montgomeryReduce 1)
                   (Ok (montgomeryReduce 1 reductionContext)) ;;
   nSubReduced <- call (Call_montgomeryReduce nSub)
                    (Ok (montgomeryReduce nSub reductionContext)) ;;
   validBases <- ofResult (validateBases bases nSub) ;;
   let numRounds :=
     match validBases with
     | Some l => List.length l
     | None =>
         match numRounds options with
         | None => getAdaptiveNumRounds nBits
         | Some k => if k <? 1 then getAdaptiveNumRounds nBits else Z.to_nat k
         end
     end in
   v <- millerRabin_rounds fuel (findDivisor options) n nSub r d
          reductionContext oneReduced nSubReduced validBases numRounds 0 ;;
   ret (PrimalityResult.make n (v_probablePrime v) (v_witness v)
          (v_divisor v))).
Proof.
  intros Hn Hodd. unfold primalityTest, primalityTest_body.
  destruct (Z.ltb_spec n 0); [lia|]. change (1 =? -1) with false. cbv iota.
  destruct (Z.ltb_spec n 2); [lia|]. destruct (Z.ltb_spec n 4); [lia|].
  rewrite truthy_land_1, Hodd. cbn [negb]. cbv zeta.
  now rewrite Z.mul_1_l.
Qed.

Lemma validateBases_range (bases : basesOption) (nSub : Z)
    (validBases : option (list Z)) :
  validateBases bases nSub = Ok validBases ->
  forall l, validBases = Some l -> Forall (fun b => 2 <= b < nSub) l.
Proof.
  destruct bases as [|l0|]; simpl; try discriminate.
  - intros [= <-] l. discriminate.
  - destruct (validateBases_map l0 nSub) as [l'|] eqn:E; [|discriminate].
    intros [= <-] l [= <-]. apply validateBases_map_range in E.
    destruct E as [-> HF]. exact HF.
Qed.

Lemma primalityTest_divisor (fuel : nat) (n : Z) (options : Options) :
  5 <= n -> Z.odd n = true ->
  returns (primalityTest fuel n options)
    (fun res => properDivisor n (PrimalityResult.divisor res)).
Proof.
  intros Hn Hodd. rewrite primalityTest_odd_unfold by assumption. cbv zeta.
  apply returns_bind with (phi := fun _ => True); [apply returns_true|].
  intros r _.
  apply returns_bind
    with (phi := fun ctx => Ctx.base ctx = n /\ wellFormed ctx).
  { apply returns_call. intros ctx Hctx.
    apply getReductionContext_wellFormed; [lia|assumption|assumption]. }
  intros ctx [Hbase Hwf].
  apply returns_bind with (phi := fun one => one = montgomeryReduce 1 ctx).
  { apply returns_call. now intros a [= <-]. }
  intros oneReduced ->.
  apply returns_bind with (phi := fun _ => True); [apply returns_true|].
  intros nSubReduced _.
  eapply returns_bind.
  { apply returns_ofResult. intros validBases Hv.
    exact (validateBases_range _ _ _ Hv). }
  intros validBases Hvalid.
  eapply returns_bind.
  { apply millerRabin_rounds_divisor; try assumption; try reflexivity.
    apply Z.shiftr_nonneg. lia. }
  intros v Hv. apply returns_ret. exact Hv.
Qed.

(** ** twoMultiplicity *)

Lemma twoMultiplicity_loop_spec (n : Z) (fuel : nat) :
  0 < n ->
  forall m,
    0 <= m ->
    (forall j, 0 <= j < m -> Z.testbit n j = false) ->
    Z.log2 n - m < Z.of_nat fuel ->
    exists r,
      twoMultiplicity_loop fuel n m = Some r /\
      m <= r <= Z.log2 n /\
      Z.testbit n r = true /\
      (forall j, 0 <= j < r -> Z.testbit n j = false).
Proof.
  intros Hn. induction fuel as [|fuel IH]; intros m Hm Hlow Hfuel.
  - pose proof (Z.bit_log2 n Hn) as Hbit. pose proof (Z.log2_nonneg n).
    rewrite Hlow in Hbit by lia. discriminate.
  - cbn [twoMultiplicity_loop]. rewrite truthy_land_bit by assumption.
    destruct (Z.testbit n m) eqn:Hbit.
    + exists m. repeat split; try lia; try assumption.
      destruct (Z.le_gt_cases m (Z.log2 n)) as [|Hgt]; [assumption|].
      rewrite Z.bits_above_log2 in Hbit by lia. discriminate.
    + destruct (IH (m + 1) ltac:(lia)) as (r & Hr & Hrange & Hset & Hclear).
      * intros j Hj. destruct (Z.eq_dec j m) as [->|]; [assumption|].
        apply Hlow. lia.
      * lia.
      * exists r. repeat split; try lia; assumption.
Qed.

Lemma twoMultiplicity_spec (fuel : nat) (n : Z) :
  0 < n -> Z.log2 n < Z.of_nat fuel ->
  exists r,
    twoMultiplicity fuel n = Some r /\
    0 <= r <= Z.log2 n /\
    Z.testbit n r = true /\
    (forall j, 0 <= j < r -> Z.testbit n j = false).
Proof.
  intros Hn Hfuel. unfold twoMultiplicity.
  destruct (Z.eqb_spec n 0); [lia|].
  apply twoMultiplicity_loop_spec; try lia.
Qed.

(** ** The sign of the input *)

Lemma signRelated_bind {A : Type} (n1 n2 : Z) (m : M A)
    (k1 k2 : A -> M PrimalityResult.t) :
  (forall a w, signRelated n1 n2 (k1 a w) (k2 a w)) ->
  forall w, signRelated n1 n2 (bind m k1 w) (bind m k2 w).
Proof.
  intros H w. unfold bind. destruct (m w) as [w1 [a|e]]; [apply H|].
  unfold signRelated. simpl. tauto.
Qed.

Lemma primalityTest_body_sign (fuel : nat) (s1 s2 m : Z) (options : Options)
    (w : world) :
  signRelated (s1 * m) (s2 * m)
    (primalityTest_body fuel s1 m options w)
    (primalityTest_body fuel s2 m options w).
Proof.
  unfold primalityTest_body.
  destruct (m <? 2); [unfold signRelated; simpl; tauto|].
  destruct (m <? 4); [unfold signRelated; simpl; tauto|].
  destruct (negb (truthy (Z.land m 1))); [unfold signRelated; simpl; tauto|].
  cbv zeta. revert w.
  do 6 (apply signRelated_bind; intros ? ?).
  unfold signRelated. simpl. tauto.
Qed.

(** ** Validation of the caller's bases *)

Lemma validateBases_map_rejects (nSub : Z) (l : list Z) :
  (exists b, In b l /\ ~ 2 <= b < nSub) ->
  exists b, In b l /\ ~ 2 <= b < nSub /\
            validateBases_map l nSub = Throw (RangeError b).
Proof.
  induction l as [|c l IH]; intros (b & Hin & Hout); [destruct Hin|].
  cbn [validateBases_map].
  destruct (Z.leb_spec 2 c); cbn [negb orb].
  - destruct (Z.ltb_spec c nSub); cbn [negb].
    + destruct Hin as [->|Hin]; [lia|].
      destruct (IH (ex_intro _ b (conj Hin Hout))) as (b' & Hin' & Hout' & ->).
      exists b'. repeat split; auto. now right.
    + exists c. repeat split; [now left|lia].
  - exists c. repeat split; [now left|lia].
Qed.

(** ** Runs that resolve *)

Lemma resolves_ret {A : Type} (a : A) (phi : A -> Prop) :
  phi a -> resolves (ret a) phi.
Proof. intros H w. exists w, a. split; [reflexivity|assumption]. Qed.

Lemma resolves_bind {A B : Type} (m : M A) (k : A -> M B)
    (phi : A -> Prop) (psi : B -> Prop) :
  resolves m phi -> (forall a, phi a -> resolves (k a) psi) ->
  resolves (bind m k) psi.
Proof.
  intros Hm Hk w. destruct (Hm w) as (w1 & a & E & Ha).
  destruct (Hk a Ha w1) as (w2 & b & E2 & Hb).
  exists w2, b. unfold bind. rewrite E. split; assumption.
Qed.

Lemma resolves_call {A : Type} (c : montgomeryCall) (a : A) (phi : A -> Prop) :
  phi a -> resolves (call c (Ok a)) phi.
Proof. intros H w. eexists _, a. split; [reflexivity|assumption]. Qed.

Lemma resolves_ofOption {A : Type} (a : A) (phi : A -> Prop) :
  phi a -> resolves (ofOption (Some a)) phi.
Proof. intros H w. exists w, a. split; [reflexivity|assumption]. Qed.

Lemma resolves_returns {A : Type} (m : M A) (phi psi : A -> Prop) :
  resolves m phi -> returns m psi -> resolves m (fun a => phi a /\ psi a).
Proof.
  intros H Hr w. destruct (H w) as (w' & a & E & Ha).
  exists w', a. split; [assumption|]. split; [assumption|].
  exact (returns_run m psi w w' a Hr E).
Qed.

Section Resolves.

Variable fuel : nat.
Variables n nSub r d : Z.
Variable ctx : Ctx.t.
Variable nSubReduced : Z.

Hypothesis n_large : 5 <= n.
Hypothesis ctx_wf : wellFormed ctx.
Hypothesis ctx_base : Ctx.base ctx = n.
Hypothesis d_nonneg : 0 <= d.
Hypothesis fuel_enough : 4 * Z.log2 n + 1 < Z.of_nat fuel.

Local Abbreviation oneReduced := (montgomeryReduce 1 ctx).

Lemma ugcd_below (a b : Z) :
  0 <= a <= n -> 0 <= b <= n -> ugcd fuel a b = Some (Z.gcd a b).
Proof.
  intros Ha Hb. apply ugcd_spec; try lia. unfold ugcd_fuel.
  pose proof (Z.log2_le_mono a n ltac:(lia)).
  pose proof (Z.log2_le_mono b n ltac:(lia)). lia.
Qed.

Lemma millerRabin_loop_resolves (count : nat) :
  forall x,
    resolves (millerRabin_loop ctx oneReduced nSubReduced count x)
      (fun _ => True).
Proof.
  induction count as [|count IH]; intros x; cbn [millerRabin_loop].
  - now apply resolves_ret.
  - apply resolves_bind with (phi := fun _ => True);
      [now apply resolves_call|].
    intros y _. destruct (y =? oneReduced); [now apply resolves_ret|].
    destruct (y =? nSubReduced); [now apply resolves_ret|]. apply IH.
Qed.

Lemma compositeBy_resolves (findDivisor : bool) (base x : Z) :
  unitForm n ctx x -> x <> oneReduced ->
  resolves (compositeBy fuel findDivisor n ctx base x) (fun _ => True).
Proof.
  intros Hx Hne. unfold compositeBy.
  destruct findDivisor; [|now apply resolves_ret].
  pose proof (unitForm_inv_range n ctx n_large ctx_wf ctx_base x Hx Hne).
  apply resolves_bind with (phi := fun xi => xi = invMontgomeryReduce x ctx);
    [now apply resolves_call|].
  intros xi ->. rewrite ugcd_below by lia.
  apply resolves_bind with (phi := fun _ => True);
    [now apply resolves_ofOption|].
  intros g _. now apply resolves_ret.
Qed.

Lemma millerRabin_test_resolves (findDivisor : bool) (base : Z) :
  0 <= base -> (findDivisor = true -> Z.gcd n base = 1) ->
  resolves
    (millerRabin_test fuel findDivisor n r d ctx oneReduced nSubReduced base)
    (fun _ => True).
Proof.
  intros Hb Hg. unfold millerRabin_test.
  apply resolves_bind
    with (phi := fun b => b = montgomeryReduce base ctx);
    [now apply resolves_call|].
  intros baseReduced ->.
  apply resolves_bind
    with (phi := fun x => x = montgomeryPow (montgomeryReduce base ctx) d ctx);
    [now apply resolves_call|].
  intros x ->.
  set (x := montgomeryPow (montgomeryReduce base ctx) d ctx).
  destruct (Z.eqb_spec x oneReduced) as [E|Hne]; cbn [orb];
    [now apply resolves_ret|].
  destruct (x =? nSubReduced); [now apply resolves_ret|].
  destruct findDivisor.
  - assert (Hx : unitForm n ctx x).
    { apply unitForm_pow; try assumption.
      apply unitForm_reduce; auto. }
    eapply resolves_bind.
    { apply resolves_returns;
        [apply millerRabin_loop_resolves
        |apply (millerRabin_loop_good n ctx nSubReduced ctx_wf _ x Hx Hne)]. }
    intros [x'| |x'] [_ Hgood]; simpl in Hgood.
    + apply resolves_bind with (phi := fun _ => True);
        [apply compositeBy_resolves; tauto|].
      intros v _. now apply resolves_ret.
    + now apply resolves_ret.
    + apply resolves_bind with (phi := fun _ => True);
        [apply compositeBy_resolves; tauto|].
      intros v _. now apply resolves_ret.
  - apply resolves_bind with (phi := fun _ => True);
      [apply millerRabin_loop_resolves|].
    intros [x'| |x'] _.
    + apply resolves_bind with (phi := fun _ => True);
        [now apply resolves_ret|].
      intros v _. now apply resolves_ret.
    + now apply resolves_ret.
    + apply resolves_bind with (phi := fun _ => True);
        [now apply resolves_ret|].
      intros v _. now apply resolves_ret.
Qed.

Lemma millerRabin_round_resolves (findDivisor : bool) (base : Z) :
  2 <= base < n - 1 ->
  resolves
    (millerRabin_round fuel findDivisor n r d ctx oneReduced nSubReduced base)
    (fun _ => True).
Proof.
  intros Hb. unfold millerRabin_round. destruct findDivisor.
  - rewrite ugcd_below by lia.
    apply resolves_bind with (phi := fun g => g = Z.gcd n base);
      [now apply resolves_ofOption|].
    intros g ->. destruct (Z.eqb_spec (Z.gcd n base) 1) as [E|Hne]; cbn [negb].
    + apply millerRabin_test_resolves; [lia|auto].
    + now apply resolves_ret.
  - apply millerRabin_test_resolves; [lia|discriminate].
Qed.

Lemma millerRabin_rounds_resolves (findDivisor : bool) (l : list Z)
    (count : nat) :
  nSub = n - 1 ->
  Forall (fun b => 2 <= b < nSub) l ->
  forall baseIndex,
    (baseIndex + count <= List.length l)%nat ->
    resolves
      (millerRabin_rounds fuel findDivisor n nSub r d ctx oneReduced
         nSubReduced (Some l) count baseIndex)
      (fun _ => True).
Proof.
  intros HnSub Hvalid.
  induction count as [|count IH]; intros baseIndex Hlen;
    cbn [millerRabin_rounds].
  - now apply resolves_ret.
  - unfold nextBase.
    destruct (nth_error l baseIndex) as [b|] eqn:E.
    2:{ apply nth_error_None in E. lia. }
    assert (Hb : 2 <= b < n - 1).
    { rewrite Forall_forall in Hvalid. rewrite <- HnSub.
      apply Hvalid. eapply nth_error_In; eassumption. }
    apply resolves_bind with (phi := fun b' => b' = b);
      [now apply resolves_ret|].
    intros b' ->.
    apply resolves_bind with (phi := fun _ => True);
      [now apply millerRabin_round_resolves|].
    intros [v|] _; [now apply resolves_ret|]. apply IH. lia.
Qed.

End Resolves.

(** ** Primes pass every round *)

Lemma shiftr_low_bits (m k : Z) :
  0 <= k -> (forall j, 0 <= j < k -> Z.testbit m j = false) ->
  m = Z.shiftr m k * 2 ^ k.
Proof.
  intros Hk Hlow. rewrite <- Z.shiftl_mul_pow2 by assumption.
  apply Z.bits_inj'. intros i Hi.
  rewrite Z.shiftl_spec by assumption.
  destruct (Z.lt_ge_cases i k) as [Hlt|Hge].
  - rewrite (Z.testbit_neg_r (Z.shiftr m k)) by lia. apply Hlow. lia.
  - rewrite Z.shiftr_spec by lia. f_equal. lia.
Qed.

Lemma sqrt_one_prime (p X : Z) :
  Z.prime p -> (X * X) mod p = 1 -> X mod p = 1 \/ X mod p = p - 1.
Proof.
  intros Hp Hsq. pose proof (Z.prime_ge_2 p Hp) as Hge.
  assert (Hdiv : (p | (X - 1) * (X + 1))).
  { apply Z.mod_divide; [lia|].
    replace ((X - 1) * (X + 1)) with (X * X - 1) by ring.
    apply Z.cong_iff_0. rewrite Hsq. symmetry. apply Z.mod_small. lia. }
  apply Z.divide_prime_mul in Hdiv; [|assumption].
  destruct Hdiv as [Hd|Hd].
  - left. transitivity (1 mod p); [|apply Z.mod_small; lia].
    apply Z.cong_iff_0. apply Z.mod_divide; [lia|assumption].
  - right. transitivity ((p - 1) mod p); [|apply Z.mod_small; lia].
    apply Z.cong_iff_0. apply Z.mod_divide; [lia|].
    replace (X - (p - 1)) with (X + 1 + -1 * p) by ring.
    apply Z.divide_add_r; [assumption|]. apply Z.divide_mul_r, Z.divide_refl.
Qed.

Section PrimeRounds.

Variable fuel : nat.
Variables n nSub r d : Z.
Variable ctx : Ctx.t.

Hypothesis n_large : 5 <= n.
Hypothesis n_prime : Z.prime n.
Hypothesis ctx_wf : wellFormed ctx.
Hypothesis ctx_base : Ctx.base ctx = n.
Hypothesis r_nonneg : 0 <= r.
Hypothesis d_nonneg : 0 <= d.
Hypothesis decomposition : n - 1 = d * 2 ^ r.
Hypothesis fuel_enough : 4 * Z.log2 n + 1 < Z.of_nat fuel.

Local Abbreviation oneReduced := (montgomeryReduce 1 ctx).
Local Abbreviation nSubReduced := (montgomeryReduce (n - 1) ctx).

Lemma represents_reduce_iff (x X v : Z) :
  represents ctx x X -> 0 <= v < n ->
  (x = montgomeryReduce v ctx <-> X mod n = v).
Proof.
  intros [Hrange Hc] Hv. rewrite ctx_base in Hrange, Hc.
  rewrite (montgomeryReduce_mod ctx ctx_wf v) by lia. rewrite ctx_base.
  rewrite Z.mod_small in Hc by lia. split.
  - intros E. rewrite E in Hc.
    pose proof (cancel_R ctx ctx_wf v X) as Hcancel. rewrite ctx_base in Hcancel.
    rewrite <- Hcancel by assumption. apply Z.mod_small. lia.
  - intros E. rewrite Hc, <- Z.mul_mod_idemp_l, E by lia. reflexivity.
Qed.

Lemma prime_loop_passes (B : Z) (count : nat) :
  B mod n <> 0 ->
  forall j x,
    0 <= j -> j + Z.of_nat count = r ->
    represents ctx x (B ^ (d * 2 ^ j)) ->
    x <> oneReduced -> x <> nSubReduced ->
    resolves (millerRabin_loop ctx oneReduced nSubReduced count x)
      (fun e => e = Inner_passed).
Proof.
  intros HB. induction count as [|count IH]; intros j x Hj Hr Hx Hne1 Hne2.
  - exfalso. apply Hne1.
    apply (represents_reduce_iff x _ 1 Hx); [lia|].
    replace j with r by lia. rewrite <- decomposition.
    now apply ZmodInv.Z.fermat_nz.
  - cbn [millerRabin_loop].
    assert (Hpow : 0 <= d * 2 ^ j).
    { apply Z.mul_nonneg_nonneg; [assumption|]. apply Z.pow_nonneg. lia. }
    pose proof (montgomerySqr_represents ctx ctx_wf x _ Hx) as Hy.
    rewrite <- Z.pow_add_r in Hy by assumption.
    replace (d * 2 ^ j + d * 2 ^ j) with (d * 2 ^ (j + 1)) in Hy
      by (rewrite Z.pow_add_r, Z.pow_1_r by lia; ring).
    apply resolves_bind with (phi := fun y => y = montgomerySqr x ctx);
      [now apply resolves_call|].
    intros y ->.
    destruct (Z.eqb_spec (montgomerySqr x ctx) oneReduced) as [E|Hny1].
    { exfalso.
      apply (represents_reduce_iff _ _ 1 Hy) in E; [|lia].
      rewrite Z.pow_add_r, Z.pow_1_r, Z.mul_assoc in E by lia.
      replace (d * 2 ^ j * 2) with (d * 2 ^ j + d * 2 ^ j) in E by ring.
      rewrite Z.pow_add_r in E by assumption.
      destruct (sqrt_one_prime n _ n_prime E) as [H1|H1].
      - apply Hne1. now apply (represents_reduce_iff x _ 1 Hx); [lia|].
      - apply Hne2. now apply (represents_reduce_iff x _ (n - 1) Hx); [lia|]. }
    destruct (Z.eqb_spec (montgomerySqr x ctx) nSubReduced) as [E|Hny2].
    { now apply resolves_ret. }
    apply (IH (j + 1)); try assumption; lia.
Qed.

Lemma prime_test_passes (findDivisor : bool) (base : Z) :
  2 <= base < n - 1 ->
  resolves
    (millerRabin_test fuel findDivisor n r d ctx oneReduced nSubReduced base)
    (fun v => v = None).
Proof.
  intros Hb. unfold millerRabin_test.
  apply resolves_bind
    with (phi := fun b => b = montgomeryReduce base ctx);
    [now apply resolves_call|].
  intros baseReduced ->.
  apply resolves_bind
    with (phi := fun x => x = montgomeryPow (montgomeryReduce base ctx) d ctx);
    [now apply resolves_call|].
  intros x ->.
  set (x := montgomeryPow (montgomeryReduce base ctx) d ctx).
  destruct (Z.eqb_spec x oneReduced) as [E|Hne1]; cbn [orb];
    [now apply resolves_ret|].
  destruct (Z.eqb_spec x nSubReduced) as [E|Hne2]; [now apply resolves_ret|].
  assert (Hx : represents ctx x (base ^ (d * 2 ^ 0))).
  { rewrite Z.pow_0_r, Z.mul_1_r.
    apply montgomeryPow_represents; try assumption.
    apply montgomeryReduce_represents; [assumption|lia]. }
  apply resolves_bind with (phi := fun e => e = Inner_passed).
  { apply (prime_loop_passes base (Z.to_nat r)) with (j := 0);
      try assumption; try lia.
    rewrite Z.mod_small; lia. }
  intros e ->. now apply resolves_ret.
Qed.



End PrimeRounds.

(** ** Runs on a validated list of bases *)

Lemma run_rejected (fuel : nat) (rnd : list Z) (n : Z) (options : Options)
    (e : exn) :
  5 <= n -> Z.odd n = true -> Z.log2 n < Z.of_nat fuel ->
  validateBases (basesInEffect n options) (n - 1) = Throw e ->
  run fuel rnd n options = (afterContext rnd n, Throw e).
Proof.
  intros Hn Hodd Hfuel Hv.
  unfold run. rewrite primalityTest_odd_unfold by assumption. cbv zeta.
  destruct (twoMultiplicity_spec fuel (n - 1) ltac:(lia)) as (r & Hr & _).
  { pose proof (Z.log2_le_mono (n - 1) n ltac:(lia)). lia. }
  destruct (getReductionContext_odd n Hodd) as (ctx & Hctx & _).
  unfold basesInEffect in Hv.
  unfold bind, call, ofOption, ofResult.
  rewrite Hr, Hctx. cbn [ret draws calls app]. rewrite Hv. reflexivity.
Qed.

Lemma run_rounds (fuel : nat) (rnd : list Z) (n : Z) (options : Options)
    (l : list Z) :
  5 <= n -> Z.odd n = true -> Z.log2 n < Z.of_nat fuel ->
  validateBases (basesInEffect n options) (n - 1) = Ok (Some l) ->
  exists r ctx,
    twoMultiplicity fuel (n - 1) = Some r /\
    0 <= r /\ n - 1 = Z.shiftr (n - 1) r * 2 ^ r /\
    getReductionContext n = Ok ctx /\
    run fuel rnd n options =
    match
      millerRabin_rounds fuel (findDivisor options) n (n - 1) r
        (Z.shiftr (n - 1) r) ctx (montgomeryReduce 1 ctx)
        (montgomeryReduce (n - 1) ctx) (Some l) (List.length l) 0
        (afterContext rnd n)
    with
    | (w, Ok v) =>
        (w, Ok (PrimalityResult.make n (v_probablePrime v) (v_witness v)
                  (v_divisor v)))
    | (w, Throw e) => (w, Throw e)
    end.
Proof.
  intros Hn Hodd Hfuel Hv.
  destruct (twoMultiplicity_spec fuel (n - 1) ltac:(lia))
    as (r & Hr & Hrange & _ & Hlow).
  { pose proof (Z.log2_le_mono (n - 1) n ltac:(lia)). lia. }
  destruct (getReductionContext_odd n Hodd) as (ctx & Hctx & _).
  exists r, ctx. split; [assumption|]. split; [lia|].
  split; [apply shiftr_low_bits; [lia|assumption]|].
  split; [assumption|].
  unfold run. rewrite primalityTest_odd_unfold by assumption. cbv zeta.
  unfold basesInEffect in Hv.
  unfold bind at 1 2 3 4 5. unfold call, ofOption, ofResult.
  rewrite Hr, Hctx. cbn [ret draws calls app]. rewrite Hv.
  unfold bind, afterContext.
  destruct (millerRabin_rounds _ _ _ _ _ _ _ _ _ _ _ _ _) as [w [v|e]];
    reflexivity.
Qed.

(** A run that stops on a composite verdict does not look at later bases. *)
Lemma millerRabin_rounds_prefix fuel findDivisor n nSub r d ctx oneReduced
    nSubReduced (l1 l2 : list Z) (count : nat) :
  forall baseIndex w w' v,
    (baseIndex + count = List.length l1)%nat ->
    millerRabin_rounds fuel findDivisor n nSub r d ctx oneReduced nSubReduced
      (Some l1) count baseIndex w = (w', Ok v) ->
    v_probablePrime v = false ->
    millerRabin_rounds fuel findDivisor n nSub r d ctx oneReduced nSubReduced
      (Some (l1 ++ l2)) (count + List.length l2) baseIndex w = (w', Ok v).
Proof.
  induction count as [|count IH]; intros baseIndex w w' v Hlen Hrun Hpp.
  - simpl in Hrun. injection Hrun as _ <-. discriminate.
  - cbn [millerRabin_rounds Nat.add] in *. unfold nextBase in *.
    destruct (nth_error l1 baseIndex) as [b|] eqn:E.
    2:{ apply nth_error_None in E. lia. }
    rewrite nth_error_app1 by lia. rewrite E.
    unfold bind at 1 in Hrun. unfold bind at 1. cbn [ret] in *.
    unfold bind at 1 in Hrun. unfold bind at 1.
    destruct (millerRabin_round fuel findDivisor n r d ctx oneReduced
                nSubReduced b w) as [w1 [[v1|]|e]].
    + exact Hrun.
    + apply IH; [lia|assumption|assumption].
    + discriminate.
Qed.

Lemma smallDeterminismBases_prefix (n : Z) :
  n < 3474749660383 ->
  exists l2, [2; 3; 5; 7; 11; 13; 17] = smallDeterminismBases n ++ l2.
Proof.
  intros Hn. unfold smallDeterminismBases.
  repeat match goal with
         | |- context [?a <? ?b] => destruct (Z.ltb_spec a b)
         end; try lia; eexists; reflexivity.
Qed.

Lemma smallDeterminismBases_valid (n : Z) :
  5 <= n -> validateBases_map (smallDeterminismBases n) (n - 1)
            = Ok (smallDeterminismBases n).
Proof.
  intros Hn. unfold smallDeterminismBases.
  repeat match goal with
         | |- context [?a <? ?b] => destruct (Z.ltb_spec a b)
         end;
    cbn [validateBases_map];
    repeat match goal with
           | |- context [?a <=? ?b] => destruct (Z.leb_spec a b); [|lia]
           | |- context [?a <? ?b] => destruct (Z.ltb_spec a b); [|lia]
           end; reflexivity.
Qed.



(** A run on a validated list of bases resolves, with the verdict of the
    rounds. *)
Lemma run_validated (fuel : nat) (rnd : list Z) (n : Z) (options : Options)
    (l : list Z) :
  5 <= n -> Z.odd n = true -> 4 * Z.log2 n + 1 < Z.of_nat fuel ->
  validateBases (basesInEffect n options) (n - 1) = Ok (Some l) ->
  exists r ctx w v,
    twoMultiplicity fuel (n - 1) = Some r /\
    0 <= r /\ n - 1 = Z.shiftr (n - 1) r * 2 ^ r /\
    getReductionContext n = Ok ctx /\ wellFormed ctx /\ Ctx.base ctx = n /\
    Forall (fun b => 2 <= b < n - 1) l /\
    millerRabin_rounds fuel (findDivisor options) n (n - 1) r
      (Z.shiftr (n - 1) r) ctx (montgomeryReduce 1 ctx)
      (montgomeryReduce (n - 1) ctx) (Some l) (List.length l) 0
      (afterContext rnd n) = (w, Ok v) /\
    run fuel rnd n options
    = (w, Ok (PrimalityResult.make n (v_probablePrime v) (v_witness v)
                (v_divisor v))).
Proof.
  intros Hn Hodd Hfuel Hv. pose proof (Z.log2_nonneg n) as Hlog.
  destruct (run_rounds fuel rnd n options l Hn Hodd ltac:(lia) Hv)
    as (r & ctx & Htwo & Hr & Hdec & Hctx & Hrun).
  destruct (getReductionContext_wellFormed n ctx ltac:(lia) Hodd Hctx)
    as [Hbase Hwf].
  pose proof (validateBases_range _ _ _ Hv l eq_refl) as Hvalid.
  destruct (millerRabin_rounds_resolves fuel n (n - 1) r (Z.shiftr (n - 1) r)
              ctx (montgomeryReduce (n - 1) ctx) Hn Hwf Hbase
              ltac:(apply Z.shiftr_nonneg; lia) Hfuel (findDivisor options) l
              (List.length l) eq_refl Hvalid 0%nat ltac:(lia)
              (afterContext rnd n))
    as (w & v & Hrounds & _).
  exists r, ctx, w, v. rewrite Hrounds in Hrun.
  split; [assumption|]. split; [assumption|]. split; [assumption|].
  split; [assumption|]. split; [assumption|]. split; [assumption|].
  split; [assumption|]. split; assumption.
Qed.

Lemma prime_23 : Z.prime 23.
Proof.
  split; [lia|]. intros k Hk Hdiv.
  apply Z.mod0_divide in Hdiv.
  assert (Hcases : k = 2 \/ k = 3 \/ k = 4 \/ k = 5 \/ k = 6 \/ k = 7 \/
                   k = 8 \/ k = 9 \/ k = 10 \/ k = 11 \/ k = 12 \/ k = 13 \/
                   k = 14 \/ k = 15 \/ k = 16 \/ k = 17 \/ k = 18 \/ k = 19 \/
                   k = 20 \/ k = 21 \/ k = 22) by lia.
  repeat (destruct Hcases as [->|Hcases]; [discriminate Hdiv|]).
  subst k. discriminate Hdiv.
Qed.

(** * The claims *)

(** C1: for an odd modulus [base >= 3] with context
    [getReductionContext base], a Montgomery form [a] in [[0, base)] and an
    exponent [exp >= 0], [montgomeryPow a exp ctx] is the Montgomery form of
    [x ^ exp mod base], where [x = invMontgomeryReduce a ctx] is the residue
    whose Montgomery form is [a]. *)
Theorem montgomeryPow_correct (base a exp : Z) (ctx : Ctx.t) :
  3 <= base -> Z.odd base = true ->
  getReductionContext base = Ok ctx ->
  0 <= a < base -> 0 <= exp ->
  0 <= montgomeryPow a exp ctx < base /\
  invMontgomeryReduce (montgomeryPow a exp ctx) ctx
  = invMontgomeryReduce a ctx ^ exp mod base /\
  montgomeryPow a exp ctx
  = montgomeryReduce (invMontgomeryReduce a ctx ^ exp mod base) ctx.
Proof.
  intros Hbase Hodd Hctx Ha Hexp.
  destruct (getReductionContext_wellFormed base ctx Hbase Hodd Hctx)
    as [Hb wf].
  rewrite <- Hb in *.
  pose proof (represents_invMontgomeryReduce ctx wf a Ha) as Hrep.
  pose proof (montgomeryPow_represents ctx wf a _ exp Hexp Hrep) as Hpow.
  repeat split; try apply Hpow.
  - now apply invMontgomeryReduce_represents.
  - rewrite montgomeryReduce_mod by (try assumption; apply Z.mod_pos_bound; lia).
    destruct Hpow as [Hrange Hc].
    rewrite Z.mul_mod_idemp_l, <- Hc by lia.
    symmetry. apply Z.mod_small. assumption.
Qed.

Lemma montgomeryPow_correct_witness :
  exists ctx,
    getReductionContext 13 = Ok ctx /\
    0 <= montgomeryPow 5 7 ctx < 13 /\
    invMontgomeryReduce (montgomeryPow 5 7 ctx) ctx
    = invMontgomeryReduce 5 ctx ^ 7 mod 13 /\
    montgomeryPow 5 7 ctx
    = montgomeryReduce (invMontgomeryReduce 5 ctx ^ 7 mod 13) ctx.
Proof.
  eexists. split; [reflexivity|].
  apply (montgomeryPow_correct 13 5 7); [lia|reflexivity|reflexivity|lia|lia].
Defined.

(** C6: for an odd modulus [base >= 3] with context
    [getReductionContext base] and [a], [b] in [[0, base)],
    [montgomeryMul a b ctx] lies in [[0, base)] and is congruent modulo [base]
    to [a * b * rInv], where [rInv] is the inverse of the auxiliary modulus
    [r]; the unfolded product already lies strictly between [- base] and
    [base], so that the result is the product itself or the product plus
    [base]: one conditional correction. *)
Theorem montgomeryMul_correct (base a b : Z) (ctx : Ctx.t) :
  3 <= base -> Z.odd base = true ->
  getReductionContext base = Ok ctx ->
  0 <= a < base -> 0 <= b < base ->
  0 <= montgomeryMul a b ctx < base /\
  montgomeryMul a b ctx mod base = (a * b * Ctx.rInv ctx) mod base /\
  (Ctx.r ctx * Ctx.rInv ctx) mod base = 1 /\
  (montgomeryMul a b ctx * Ctx.r ctx) mod base = (a * b) mod base /\
  - base < montgomeryMul_product a b ctx < base /\
  (montgomeryMul a b ctx = montgomeryMul_product a b ctx \/
   montgomeryMul a b ctx = montgomeryMul_product a b ctx + base).
Proof.
  intros Hbase Hodd Hctx Ha Hb.
  destruct (getReductionContext_wellFormed base ctx Hbase Hodd Hctx)
    as [Hbeq wf].
  rewrite <- Hbeq in *.
  destruct (montgomeryMul_spec ctx wf a b Ha Hb) as [Hrange Hc].
  destruct (montgomeryMul_product_spec ctx wf a b Ha Hb) as [Hprange _].
  split; [exact Hrange|].
  split; [now apply montgomeryMul_rInv|].
  split; [exact (wf_rInv_inverse _ wf)|].
  split; [exact Hc|].
  split; [exact Hprange|].
  unfold montgomeryMul.
  destruct (Z.eqb_spec a 0) as [Ea|Hna]; cbn [orb].
  { left. symmetry. apply montgomeryMul_product_zero. now left. }
  destruct (Z.eqb_spec b 0) as [Eb|Hnb].
  { left. symmetry. apply montgomeryMul_product_zero. now right. }
  apply (montgomeryMul_fold_spec ctx). assumption.
Qed.

Lemma montgomeryMul_correct_witness :
  exists ctx,
    getReductionContext 13 = Ok ctx /\
    0 <= montgomeryMul 5 11 ctx < 13 /\
    montgomeryMul 5 11 ctx mod 13 = (5 * 11 * Ctx.rInv ctx) mod 13 /\
    (Ctx.r ctx * Ctx.rInv ctx) mod 13 = 1 /\
    (montgomeryMul 5 11 ctx * Ctx.r ctx) mod 13 = (5 * 11) mod 13 /\
    - 13 < montgomeryMul_product 5 11 ctx < 13 /\
    (montgomeryMul 5 11 ctx = montgomeryMul_product 5 11 ctx \/
     montgomeryMul 5 11 ctx = montgomeryMul_product 5 11 ctx + 13).
Proof.
  eexists. split; [reflexivity|].
  apply (montgomeryMul_correct 13 5 11); [lia|reflexivity|reflexivity|lia|lia].
Defined.

(** C8, as the specification states it, is contradicted at zero: the binary
    representation of [0n] is the one-character string ["0"], so
    [bitLength 0] is 1 and not 0. *)
Lemma bitLength_zero_counterexample :
  toString2 0 = "0"%string /\ bitLength 0 = 1%nat /\ bitLength 0 <> 0%nat.
Proof. repeat split. discriminate. Qed.

(** C8, amended: [bitLength 0] is 1, and for every positive [x],
    [bitLength x] is the number of bits of the binary representation of [x]:
    [2 ^ (bitLength x - 1) <= x < 2 ^ bitLength x], that is
    [bitLength x = Z.log2 x + 1]. *)
Theorem bitLength_correct (x : Z) :
  bitLength 0 = 1%nat /\
  (0 < x ->
   Z.of_nat (bitLength x) = Z.log2 x + 1 /\
   2 ^ (Z.of_nat (bitLength x) - 1) <= x < 2 ^ Z.of_nat (bitLength x)).
Proof.
  split; [reflexivity|]. intros Hx. split.
  - now apply bitLength_log2.
  - now apply bitLength_spec.
Qed.

Lemma bitLength_correct_witness :
  bitLength 0 = 1%nat /\
  Z.of_nat (bitLength 2147483647) = Z.log2 2147483647 + 1 /\
  2 ^ (Z.of_nat (bitLength 2147483647) - 1) <= 2147483647
  < 2 ^ Z.of_nat (bitLength 2147483647).
Proof.
  destruct (bitLength_correct 2147483647) as [H0 H].
  split; [exact H0|]. apply H. lia.
Defined.

(** C5: for non-negative [a] and [b], [ugcd a b] finishes (a loop budget
    logarithmic in the arguments is enough) and returns the greatest common
    divisor of [a] and [b]; in particular [ugcd a a = a], [ugcd a 0 = a] and
    [ugcd 0 b = b], those three on the early returns, whatever the budget. *)
Theorem ugcd_correct (fuel : nat) (a b : Z) :
  0 <= a -> 0 <= b -> ugcd_fuel a b < Z.of_nat fuel ->
  ugcd fuel a b = Some (Z.gcd a b) /\
  (forall fuel', ugcd fuel' a a = Some a) /\
  (forall fuel', ugcd fuel' a 0 = Some a) /\
  (forall fuel', ugcd fuel' 0 b = Some b).
Proof.
  intros Ha Hb Hfuel. split; [now apply ugcd_spec|].
  split; [|split]; intros fuel'; unfold ugcd.
  - now rewrite Z.eqb_refl.
  - destruct (Z.eqb_spec a 0) as [->|Hne]; [reflexivity|].
    now rewrite Z.eqb_refl.
  - destruct (Z.eqb_spec 0 b) as [<-|Hne]; reflexivity.
Qed.

Lemma ugcd_correct_witness :
  ugcd 150 341550071728321 10670053 = Some (Z.gcd 341550071728321 10670053) /\
  (forall fuel', ugcd fuel' 341550071728321 341550071728321
                 = Some 341550071728321) /\
  (forall fuel', ugcd fuel' 341550071728321 0 = Some 341550071728321) /\
  (forall fuel', ugcd fuel' 0 10670053 = Some 10670053).
Proof.
  apply (ugcd_correct 150 341550071728321 10670053);
    [lia|lia|vm_compute; reflexivity].
Defined.

(** C10: whenever [primalityTest] resolves with a result whose
    [probablePrime] is true, the [witness] and the [divisor] of that result
    are both null. *)
Theorem probablePrime_without_witness (fuel : nat) (rnd : list Z) (n : Z)
    (options : Options) (w : world) (res : PrimalityResult.t) :
  run fuel rnd n options = (w, Ok res) ->
  PrimalityResult.probablePrime res = true ->
  PrimalityResult.witness res = None /\ PrimalityResult.divisor res = None.
Proof.
  intros Hrun. unfold run in Hrun.
  exact (returns_run _ _ _ _ _ (primalityTest_consistent fuel n options) Hrun).
Qed.

Lemma probablePrime_without_witness_witness :
  exists w,
    run 50 [0; 3; 1; 2; 12; 7] 13 (mkOptions (Some 3) BasesUndefined true false)
    = (w, Ok (PrimalityResult.make 13 true None None)) /\
    PrimalityResult.witness (PrimalityResult.make 13 true None None) = None /\
    PrimalityResult.divisor (PrimalityResult.make 13 true None None) = None.
Proof.
  eexists.
  assert (H : run 50 [0; 3; 1; 2; 12; 7] 13
                (mkOptions (Some 3) BasesUndefined true false)
              = (_, Ok (PrimalityResult.make 13 true None None)))
    by (vm_compute; reflexivity).
  split; [exact H|].
  exact (probablePrime_without_witness _ _ _ _ _ _ H eq_refl).
Defined.

(** C9: whatever the input and the options, [primalityTest] is never
    rejected with the error "base must be odd", and every modulus it passes
    to [getReductionContext] is odd. *)
Theorem base_must_be_odd_unreachable (fuel : nat) (rnd : list Z) (n : Z)
    (options : Options) :
  snd (run fuel rnd n options) <> Throw Error_base_must_be_odd /\
  (forall b,
     In (Call_getReductionContext b) (calls (fst (run fuel rnd n options))) ->
     Z.odd b = true).
Proof.
  unfold run.
  pose proof (quiet_primalityTest fuel n options (mkWorld rnd [])
                (Forall_nil _)) as H.
  destruct (primalityTest fuel n options (mkWorld rnd [])) as [w [res|e]];
    simpl.
  - split; [discriminate|]. intros b Hin.
    unfold oddContextCalls in H. rewrite Forall_forall in H.
    exact (H _ Hin).
  - destruct H as [H He]. split; [congruence|]. intros b Hin.
    unfold oddContextCalls in H. rewrite Forall_forall in H.
    exact (H _ Hin).
Qed.

Lemma base_must_be_odd_unreachable_witness :
  snd (run 50 [] 561 (mkOptions None (BasesArray [2; 3]) true false))
  <> Throw Error_base_must_be_odd /\
  In (Call_getReductionContext 561)
    (calls (fst (run 50 [] 561 (mkOptions None (BasesArray [2; 3]) true false)))) /\
  Z.odd 561 = true.
Proof.
  destruct (base_must_be_odd_unreachable 50 [] 561
              (mkOptions None (BasesArray [2; 3]) true false)) as [H1 H2].
  split; [exact H1|].
  assert (Hin : In (Call_getReductionContext 561)
                  (calls (fst (run 50 [] 561
                     (mkOptions None (BasesArray [2; 3]) true false)))))
    by (vm_compute; left; reflexivity).
  split; [exact Hin|exact (H2 561 Hin)].
Defined.

(** C3: for every odd [n >= 5], whenever [primalityTest] resolves with a
    result whose [divisor] is not null, that divisor divides [n] exactly and
    lies strictly between 1 and [n].  This holds whatever the options are
    (with [findDivisor] false the divisor of an odd [n] is always null). *)
Theorem divisor_divides (fuel : nat) (rnd : list Z) (n : Z)
    (options : Options) (w : world) (res : PrimalityResult.t) (dv : Z) :
  5 <= n -> Z.odd n = true ->
  run fuel rnd n options = (w, Ok res) ->
  PrimalityResult.divisor res = Some dv ->
  n mod dv = 0 /\ 1 < dv < n.
Proof.
  intros Hn Hodd Hrun Hdv. unfold run in Hrun.
  pose proof (returns_run _ _ _ _ _ (primalityTest_divisor fuel n options Hn Hodd)
                Hrun dv Hdv) as [Hdiv Hrange].
  split; [|assumption]. apply Z.mod_divide; [lia|assumption].
Qed.

Lemma divisor_divides_witness :
  exists w,
    run 50 [] 561 (mkOptions None (BasesArray [2; 3]) true false)
    = (w, Ok (PrimalityResult.make 561 false (Some 2) (Some 33))) /\
    561 mod 33 = 0 /\ 1 < 33 < 561.
Proof.
  eexists.
  assert (H : run 50 [] 561 (mkOptions None (BasesArray [2; 3]) true false)
              = (_, Ok (PrimalityResult.make 561 false (Some 2) (Some 33))))
    by (vm_compute; reflexivity).
  split; [exact H|].
  apply (divisor_divides 50 [] 561 _ _ _ 33 ltac:(lia) eq_refl H eq_refl).
Defined.

(** C4: for every integer [n], under the same random draws and options,
    [primalityTest (- n)] ends as [primalityTest n] does: the same error, or a
    result with the same [probablePrime] (and the same witness and divisor);
    the [n] field of each result is the input it was given, sign included. *)
Theorem negative_input_same_verdict (fuel : nat) (rnd : list Z) (n : Z)
    (options : Options) :
  sameVerdict (run fuel rnd n options) (run fuel rnd (- n) options) /\
  resultN (run fuel rnd n options) n /\
  resultN (run fuel rnd (- n) options) (- n).
Proof.
  unfold run, primalityTest.
  destruct (Z.lt_trichotomy n 0) as [Hneg|[->|Hpos]].
  - destruct (Z.ltb_spec n 0); [|lia]. destruct (Z.ltb_spec (- n) 0); [lia|].
    change (-1 =? -1) with true. change (1 =? -1) with false. cbv iota zeta.
    pose proof (primalityTest_body_sign fuel (-1) 1 (- n) options
                  (mkWorld rnd [])) as Hrel.
    replace (-1 * - n) with n in Hrel by lia.
    replace (1 * - n) with (- n) in Hrel by lia.
    exact Hrel.
  - change (- 0) with 0.
    pose proof (primalityTest_body_sign fuel 1 1 0 options (mkWorld rnd [])) as H.
    exact H.
  - destruct (Z.ltb_spec n 0); [lia|]. destruct (Z.ltb_spec (- n) 0); [|lia].
    change (-1 =? -1) with true. change (1 =? -1) with false. cbv iota zeta.
    rewrite Z.opp_involutive.
    pose proof (primalityTest_body_sign fuel 1 (-1) n options
                  (mkWorld rnd [])) as Hrel.
    replace (1 * n) with n in Hrel by lia.
    replace (-1 * n) with (- n) in Hrel by lia.
    exact Hrel.
Qed.

Lemma negative_input_same_verdict_witness :
  snd (run 50 [] 561 (mkOptions None (BasesArray [2; 3]) true false))
  = Ok (PrimalityResult.make 561 false (Some 2) (Some 33)) /\
  snd (run 50 [] (- 561) (mkOptions None (BasesArray [2; 3]) true false))
  = Ok (PrimalityResult.make (- 561) false (Some 2) (Some 33)) /\
  sameVerdict (run 50 [] 561 (mkOptions None (BasesArray [2; 3]) true false))
    (run 50 [] (- 561) (mkOptions None (BasesArray [2; 3]) true false)).
Proof.
  split; [vm_compute; reflexivity|]. split; [vm_compute; reflexivity|].
  exact (proj1 (negative_input_same_verdict 50 [] 561
                  (mkOptions None (BasesArray [2; 3]) true false))).
Defined.

(** C2, as the specification states it, fails: with [n = 5] and the base
    [4 = n - 1] the call is rejected with a range error, but only after the
    reduction context and the Montgomery forms of 1 and [n - 1] have been
    computed (lines 392-394 come before line 397). *)
Lemma range_error_after_context_counterexample :
  5 <= 5 /\ Z.odd 5 = true /\ In 4 [4] /\ ~ validBase 5 4 /\
  run 10 [] 5 (mkOptions None (BasesArray [4]) true false)
  = (mkWorld []
       [Call_getReductionContext 5; Call_montgomeryReduce 1;
        Call_montgomeryReduce 4],
     Throw (RangeError 4)) /\
  ~ rejectedBeforeMontgomery
      (run 10 [] 5 (mkOptions None (BasesArray [4]) true false)).
Proof.
  split; [lia|]. split; [reflexivity|]. split; [now left|].
  split; [unfold validBase; lia|].
  assert (H : run 10 [] 5 (mkOptions None (BasesArray [4]) true false)
              = (mkWorld []
                   [Call_getReductionContext 5; Call_montgomeryReduce 1;
                    Call_montgomeryReduce 4],
                 Throw (RangeError 4)))
    by (vm_compute; reflexivity).
  split; [exact H|]. rewrite H. intros (b & _ & Hcalls). discriminate.
Qed.

(** C2, amended: for every odd [n >= 5] and every array of bases holding a
    value outside [[2, n-2]], [primalityTest] (without
    [small_determinism_mode]) is rejected with a range error naming such a
    value, before any round runs and before any random base is drawn: by
    then it has called [getReductionContext n], [montgomeryReduce 1] and
    [montgomeryReduce (n - 1)], and nothing else.  The loop budget only has
    to cover [twoMultiplicity (n - 1)]. *)
Theorem range_error_before_rounds (fuel : nat) (rnd : list Z) (n : Z)
    (l : list Z) (rounds : option Z) (divisors : bool) :
  5 <= n -> Z.odd n = true -> Z.log2 n < Z.of_nat fuel ->
  (exists b, In b l /\ ~ validBase n b) ->
  exists b,
    In b l /\ ~ validBase n b /\
    run fuel rnd n (mkOptions rounds (BasesArray l) divisors false)
    = (mkWorld rnd
         [Call_getReductionContext n; Call_montgomeryReduce 1;
          Call_montgomeryReduce (n - 1)],
       Throw (RangeError b)).
Proof.
  intros Hn Hodd Hfuel (b0 & Hin0 & Hout0).
  destruct (validateBases_map_rejects (n - 1) l) as (b & Hin & Hout & Hmap).
  { exists b0. split; [assumption|]. unfold validBase in Hout0. lia. }
  exists b. split; [assumption|]. split; [unfold validBase; lia|].
  apply run_rejected; try assumption.
  unfold basesInEffect. cbn [small_determinism_mode bases andb validateBases].
  now rewrite Hmap.
Qed.

Lemma range_error_before_rounds_witness :
  exists b,
    In b [2; 3; 560; 7] /\ ~ validBase 561 b /\
    run 20 [5; 6] 561 (mkOptions (Some 4) (BasesArray [2; 3; 560; 7]) true false)
    = (mkWorld [5; 6]
         [Call_getReductionContext 561; Call_montgomeryReduce 1;
          Call_montgomeryReduce (561 - 1)],
       Throw (RangeError b)).
Proof.
  apply (range_error_before_rounds 20 [5; 6] 561 [2; 3; 560; 7] (Some 4) true);
    [lia|reflexivity|vm_compute; reflexivity|].
  exists 560. split; [simpl; tauto|]. unfold validBase. lia.
Defined.

(** * Further properties of the code *)

(** ** invertPowerOfTwo, twoMultiplicity and the reduction context *)

(** X1: for an odd modulus [base > 1], [invertPowerOfTwo exp base] lies
    strictly between 0 and [base] and is the inverse of [2 ^ exp] modulo
    [base]. *)
Theorem invertPowerOfTwo_inverse (exp : nat) (base : Z) :
  1 < base -> Z.odd base = true ->
  0 < invertPowerOfTwo exp base < base /\
  (invertPowerOfTwo exp base * 2 ^ Z.of_nat exp) mod base = 1.
Proof.
  intros Hbase Hodd.
  destruct (invertPowerOfTwo_loop_spec base ltac:(lia) Hodd exp 1 ltac:(lia))
    as [Hrange Hc].
  fold (invertPowerOfTwo exp base) in Hrange, Hc.
  rewrite (Z.mod_small 1) in Hc by lia.
  split; [|exact Hc].
  destruct (Z.eq_dec (invertPowerOfTwo exp base) 0) as [E|]; [|lia].
  rewrite E, Z.mul_0_l, Z.mod_0_l in Hc by lia. discriminate.
Qed.

Lemma invertPowerOfTwo_inverse_witness :
  0 < invertPowerOfTwo 10 561 < 561 /\
  (invertPowerOfTwo 10 561 * 2 ^ Z.of_nat 10) mod 561 = 1.
Proof. apply invertPowerOfTwo_inverse; [lia|reflexivity]. Defined.

Lemma twoMultiplicity_loop_exact (n r : Z) (fuel : nat) :
  Z.testbit n r = true ->
  forall m,
    0 <= m <= r ->
    (forall j, m <= j < r -> Z.testbit n j = false) ->
    r - m < Z.of_nat fuel ->
    twoMultiplicity_loop fuel n m = Some r.
Proof.
  intros Hbit. induction fuel as [|fuel IH]; intros m Hm Hlow Hfuel;
    [lia|]. cbn [twoMultiplicity_loop].
  rewrite truthy_land_bit by lia.
  destruct (Z.eq_dec m r) as [->|Hne]; [now rewrite Hbit|].
  rewrite Hlow by lia. apply IH; [lia| |lia].
  intros j Hj. apply Hlow. lia.
Qed.

(** X2: [twoMultiplicity 0] is 0; for [n > 0] the loop finishes within
    [log2 n + 1] iterations and returns the [r] with [n = d * 2 ^ r],
    [d = n >> r] odd; and for every odd [e], of either sign,
    [twoMultiplicity (e * 2 ^ r)] is [r], found in [r + 1] iterations. *)
Theorem twoMultiplicity_decomposes (fuel : nat) (n : Z) :
  twoMultiplicity fuel 0 = Some 0 /\
  (0 < n -> Z.log2 n < Z.of_nat fuel ->
   exists r,
     twoMultiplicity fuel n = Some r /\
     0 <= r <= Z.log2 n /\
     n = Z.shiftr n r * 2 ^ r /\
     Z.odd (Z.shiftr n r) = true) /\
  (forall e r,
     Z.odd e = true -> 0 <= r < Z.of_nat fuel -> n = e * 2 ^ r ->
     twoMultiplicity fuel n = Some r /\ Z.shiftr n r = e).
Proof.
  split; [reflexivity|]. split.
  - intros Hn Hfuel.
    destruct (twoMultiplicity_spec fuel n Hn Hfuel)
      as (r & Hr & Hrange & Hset & Hlow).
    exists r. split; [assumption|]. split; [assumption|]. split.
    + apply shiftr_low_bits; [lia|assumption].
    + rewrite <- Z.bit0_odd, Z.shiftr_spec by lia. exact Hset.
  - intros e r He Hr ->. split.
    + unfold twoMultiplicity.
      destruct (Z.eqb_spec (e * 2 ^ r) 0) as [E|_].
      { apply Z.mul_eq_0 in E. destruct E as [->|E]; [discriminate|].
        apply Z.pow_nonzero in E; [contradiction|lia|lia]. }
      apply twoMultiplicity_loop_exact; [|lia| |lia].
      * rewrite Z.mul_pow2_bits, Z.sub_diag, Z.bit0_odd by lia. exact He.
      * intros j Hj. apply Z.mul_pow2_bits_low. lia.
    + rewrite Z.shiftr_div_pow2 by lia. apply Z.div_mul.
      apply Z.pow_nonzero; lia.
Qed.

Lemma twoMultiplicity_decomposes_witness :
  (exists r,
     twoMultiplicity 10 560 = Some r /\
     0 <= r <= Z.log2 560 /\
     560 = Z.shiftr 560 r * 2 ^ r /\
     Z.odd (Z.shiftr 560 r) = true) /\
  twoMultiplicity 10 (-560) = Some 4 /\ Z.shiftr (-560) 4 = -35.
Proof.
  split.
  - apply (twoMultiplicity_decomposes 10 560); [lia|vm_compute; reflexivity].
  - apply (twoMultiplicity_decomposes 10 (-560)); [reflexivity|lia|reflexivity].
Defined.

(** X3: [getReductionContext] throws "base must be odd" on every even
    modulus; on an odd [base >= 3] it returns a context whose auxiliary
    modulus [r = 2 ^ bitLength base] is the smallest power of two above
    [base], with [0 < rInv < base], [0 < baseInv < r] and
    [r * rInv + base * baseInv = 1 + base * r], so that [rInv] inverts [r]
    modulo [base] and [baseInv] inverts [base] modulo [r]. *)
Theorem getReductionContext_invariants (base : Z) :
  (Z.even base = true ->
   getReductionContext base = Throw Error_base_must_be_odd) /\
  (3 <= base -> Z.odd base = true ->
   exists ctx,
     getReductionContext base = Ok ctx /\
     Ctx.base ctx = base /\
     Ctx.shift ctx = Z.of_nat (bitLength base) /\
     Ctx.r ctx = 2 ^ Ctx.shift ctx /\
     base < Ctx.r ctx <= 2 * base /\
     0 < Ctx.rInv ctx < base /\
     0 < Ctx.baseInv ctx < Ctx.r ctx /\
     Ctx.r ctx * Ctx.rInv ctx + base * Ctx.baseInv ctx = 1 + base * Ctx.r ctx).
Proof.
  split.
  - intros He. unfold getReductionContext.
    rewrite truthy_land_1, <- Z.negb_even, He. reflexivity.
  - intros Hge Hodd. unfold getReductionContext.
    rewrite truthy_land_1, Hodd. cbn [negb]. cbv zeta.
    eexists. split; [reflexivity|].
    cbn [Ctx.base Ctx.shift Ctx.r Ctx.rInv Ctx.baseInv].
    pose proof (bitLength_spec base ltac:(lia)) as [Hlow Hhigh].
    set (k := Z.of_nat (bitLength base)) in *.
    assert (Hk : 1 <= k).
    { destruct (Z.le_gt_cases 1 k); [assumption|].
      assert (k = 0) by (subst k; lia).
      replace k with 0 in Hhigh by lia. simpl in Hhigh. lia. }
    rewrite Z.shiftl_1_l.
    destruct (invertPowerOfTwo_inverse (bitLength base) base ltac:(lia) Hodd)
      as [Hinv Hc].
    fold k in Hc. set (rInv := invertPowerOfTwo (bitLength base) base) in *.
    assert (Hpow : 2 ^ k = 2 * 2 ^ (k - 1)).
    { rewrite <- Z.pow_succ_r by lia. f_equal. lia. }
    set (N := rInv * 2 ^ k - 1).
    assert (HN : 0 <= N) by (subst N; nia).
    assert (Hdiv : N = base * (N / base)).
    { apply Z.div_exact; [lia|]. subst N.
      rewrite <- Zminus_mod_idemp_l, Hc. reflexivity. }
    rewrite Z.quot_div_nonneg by lia.
    assert (Hq : 0 < N / base < 2 ^ k) by (subst N; nia).
    rewrite Z.rem_mod_nonneg, Z.mod_small by lia.
    split; [reflexivity|]. split; [reflexivity|]. split; [reflexivity|].
    split; [lia|]. split; [lia|]. split; [lia|].
    subst N. nia.
Qed.

Lemma getReductionContext_invariants_witness :
  getReductionContext 560 = Throw Error_base_must_be_odd /\
  exists ctx,
    getReductionContext 561 = Ok ctx /\
    Ctx.base ctx = 561 /\
    Ctx.shift ctx = Z.of_nat (bitLength 561) /\
    Ctx.r ctx = 2 ^ Ctx.shift ctx /\
    561 < Ctx.r ctx <= 2 * 561 /\
    0 < Ctx.rInv ctx < 561 /\
    0 < Ctx.baseInv ctx < Ctx.r ctx /\
    Ctx.r ctx * Ctx.rInv ctx + 561 * Ctx.baseInv ctx = 1 + 561 * Ctx.r ctx.
Proof.
  split.
  - apply (proj1 (getReductionContext_invariants 560)). reflexivity.
  - apply (proj2 (getReductionContext_invariants 561)); [lia|reflexivity].
Defined.

(** ** Montgomery arithmetic as arithmetic modulo [base] *)

Lemma represents_unique (ctx : Ctx.t) (x y X Y : Z) :
  wellFormed ctx ->
  represents ctx x X -> represents ctx y Y ->
  X mod Ctx.base ctx = Y mod Ctx.base ctx -> x = y.
Proof.
  intros wf [Hx Hcx] [Hy Hcy] E. pose proof (wf_base _ wf).
  rewrite <- (Z.mod_small x (Ctx.base ctx)), <- (Z.mod_small y (Ctx.base ctx))
    by lia.
  rewrite Hcx, Hcy.
  rewrite <- (Z.mul_mod_idemp_l X), <- (Z.mul_mod_idemp_l Y), E by lia.
  reflexivity.
Qed.

Lemma montgomeryPow_range (ctx : Ctx.t) (a e : Z) :
  wellFormed ctx -> 0 <= a < Ctx.base ctx -> 0 <= e ->
  0 <= montgomeryPow a e ctx < Ctx.base ctx.
Proof.
  intros wf Ha He.
  exact (proj1 (montgomeryPow_represents ctx wf a _ e He
                  (represents_invMontgomeryReduce ctx wf a Ha))).
Qed.

(** X4: converting into Montgomery form and back gives the residue:
    [invMontgomeryReduce (montgomeryReduce x) = x mod base] for [x >= 0], and
    [montgomeryReduce (invMontgomeryReduce a) = a] for [a] in [[0, base)]. *)
Theorem montgomeryReduce_round_trip (base x a : Z) (ctx : Ctx.t) :
  3 <= base -> Z.odd base = true ->
  getReductionContext base = Ok ctx ->
  (0 <= x ->
   0 <= montgomeryReduce x ctx < base /\
   invMontgomeryReduce (montgomeryReduce x ctx) ctx = x mod base) /\
  (0 <= a < base ->
   0 <= invMontgomeryReduce a ctx < base /\
   montgomeryReduce (invMontgomeryReduce a ctx) ctx = a).
Proof.
  intros Hbase Hodd Hctx.
  destruct (getReductionContext_wellFormed base ctx Hbase Hodd Hctx)
    as [Hb wf].
  rewrite <- Hb in *. split.
  - intros Hx. pose proof (montgomeryReduce_represents ctx wf x Hx) as Hrep.
    split; [apply Hrep|]. now apply invMontgomeryReduce_represents.
  - intros Ha.
    pose proof (represents_invMontgomeryReduce ctx wf a Ha) as Hrep.
    assert (Hr : 0 <= invMontgomeryReduce a ctx < Ctx.base ctx).
    { rewrite invMontgomeryReduce_mod by (try assumption; lia).
      apply Z.mod_pos_bound. lia. }
    split; [exact Hr|].
    apply (represents_unique ctx _ _ (invMontgomeryReduce a ctx)
             (invMontgomeryReduce a ctx) wf);
      [apply montgomeryReduce_represents; [assumption|lia]|assumption|reflexivity].
Qed.

Lemma montgomeryReduce_round_trip_witness :
  exists ctx,
    getReductionContext 561 = Ok ctx /\
    (0 <= montgomeryReduce 1000 ctx < 561 /\
     invMontgomeryReduce (montgomeryReduce 1000 ctx) ctx = 1000 mod 561) /\
    (0 <= invMontgomeryReduce 77 ctx < 561 /\
     montgomeryReduce (invMontgomeryReduce 77 ctx) ctx = 77).
Proof.
  eexists. split; [reflexivity|].
  destruct (montgomeryReduce_round_trip 561 1000 77 _ ltac:(lia) eq_refl eq_refl)
    as [H1 H2].
  split; [apply H1; lia|apply H2; lia].
Defined.

(** X5: [montgomeryMul] is multiplication modulo [base] carried to Montgomery
    forms: the product of the forms of [x] and [y] is the form of [x * y];
    the form of 1 is its neutral element and 0 absorbs. *)
Theorem montgomeryMul_multiplies (base x y a : Z) (ctx : Ctx.t) :
  3 <= base -> Z.odd base = true ->
  getReductionContext base = Ok ctx ->
  0 <= x -> 0 <= y -> 0 <= a < base ->
  montgomeryMul (montgomeryReduce x ctx) (montgomeryReduce y ctx) ctx
  = montgomeryReduce (x * y) ctx /\
  invMontgomeryReduce
    (montgomeryMul (montgomeryReduce x ctx) (montgomeryReduce y ctx) ctx) ctx
  = (x * y) mod base /\
  montgomeryMul a (montgomeryReduce 1 ctx) ctx = a /\
  montgomeryMul (montgomeryReduce 1 ctx) a ctx = a /\
  montgomeryMul a 0 ctx = 0 /\ montgomeryMul 0 a ctx = 0.
Proof.
  intros Hbase Hodd Hctx Hx Hy Ha.
  destruct (getReductionContext_wellFormed base ctx Hbase Hodd Hctx)
    as [Hb wf].
  rewrite <- Hb in *.
  pose proof (montgomeryReduce_represents ctx wf x Hx) as Hrx.
  pose proof (montgomeryReduce_represents ctx wf y Hy) as Hry.
  pose proof (montgomeryReduce_represents ctx wf 1 ltac:(lia)) as Hr1.
  pose proof (represents_invMontgomeryReduce ctx wf a Ha) as Hra.
  pose proof (montgomeryMul_represents ctx wf _ _ _ _ Hrx Hry) as Hxy.
  split.
  { apply (represents_unique ctx _ _ (x * y) (x * y) wf);
      [assumption|apply montgomeryReduce_represents; [assumption|nia]
      |reflexivity]. }
  split; [now apply invMontgomeryReduce_represents|].
  split.
  { apply (represents_unique ctx _ _ (invMontgomeryReduce a ctx * 1)
             (invMontgomeryReduce a ctx) wf);
      [now apply montgomeryMul_represents|assumption|now rewrite Z.mul_1_r]. }
  split.
  { apply (represents_unique ctx _ _ (1 * invMontgomeryReduce a ctx)
             (invMontgomeryReduce a ctx) wf);
      [now apply montgomeryMul_represents|assumption|now rewrite Z.mul_1_l]. }
  unfold montgomeryMul. rewrite Z.eqb_refl, orb_true_r. cbn [orb].
  split; reflexivity.
Qed.

Lemma montgomeryMul_multiplies_witness :
  exists ctx,
    getReductionContext 561 = Ok ctx /\
    montgomeryMul (montgomeryReduce 100 ctx) (montgomeryReduce 200 ctx) ctx
    = montgomeryReduce (100 * 200) ctx /\
    invMontgomeryReduce
      (montgomeryMul (montgomeryReduce 100 ctx) (montgomeryReduce 200 ctx) ctx)
      ctx
    = (100 * 200) mod 561 /\
    montgomeryMul 77 (montgomeryReduce 1 ctx) ctx = 77 /\
    montgomeryMul (montgomeryReduce 1 ctx) 77 ctx = 77 /\
    montgomeryMul 77 0 ctx = 0 /\ montgomeryMul 0 77 ctx = 0.
Proof.
  eexists. split; [reflexivity|].
  apply (montgomeryMul_multiplies 561 100 200 77);
    [lia|reflexivity|reflexivity|lia|lia|lia].
Defined.

(** X6: [montgomeryPow] obeys the laws of exponents: exponent 0 gives the
    form of 1, exponent 1 the base itself, exponent 2 the square; a sum of
    exponents gives the Montgomery product of the powers and a product of
    exponents the power of a power. *)
Theorem montgomeryPow_laws (base a e1 e2 : Z) (ctx : Ctx.t) :
  3 <= base -> Z.odd base = true ->
  getReductionContext base = Ok ctx ->
  0 <= a < base -> 0 <= e1 -> 0 <= e2 ->
  montgomeryPow a 0 ctx = montgomeryReduce 1 ctx /\
  montgomeryPow a 1 ctx = a /\
  montgomeryPow a 2 ctx = montgomerySqr a ctx /\
  montgomeryPow a (e1 + e2) ctx
  = montgomeryMul (montgomeryPow a e1 ctx) (montgomeryPow a e2 ctx) ctx /\
  montgomeryPow a (e1 * e2) ctx
  = montgomeryPow (montgomeryPow a e1 ctx) e2 ctx.
Proof.
  intros Hbase Hodd Hctx Ha He1 He2.
  destruct (getReductionContext_wellFormed base ctx Hbase Hodd Hctx)
    as [Hb wf].
  rewrite <- Hb in *.
  pose proof (represents_invMontgomeryReduce ctx wf a Ha) as Hra.
  set (A := invMontgomeryReduce a ctx) in *.
  assert (Hpow : forall e, 0 <= e -> represents ctx (montgomeryPow a e ctx) (A ^ e)).
  { intros e He. now apply montgomeryPow_represents. }
  split; [reflexivity|].
  split.
  { apply (represents_unique ctx _ _ (A ^ 1) A wf);
      [apply Hpow; lia|assumption|now rewrite Z.pow_1_r]. }
  split.
  { apply (represents_unique ctx _ _ (A ^ 2) (A * A) wf);
      [apply Hpow; lia|now apply montgomerySqr_represents
      |now rewrite Z.pow_2_r]. }
  split.
  { apply (represents_unique ctx _ _ (A ^ (e1 + e2)) (A ^ e1 * A ^ e2) wf);
      [apply Hpow; lia|apply montgomeryMul_represents; auto
      |now rewrite Z.pow_add_r]. }
  apply (represents_unique ctx _ _ (A ^ (e1 * e2)) ((A ^ e1) ^ e2) wf);
    [apply Hpow; nia
    |apply montgomeryPow_represents; auto
    |now rewrite Z.pow_mul_r].
Qed.

Lemma montgomeryPow_laws_witness :
  exists ctx,
    getReductionContext 561 = Ok ctx /\
    montgomeryPow 77 0 ctx = montgomeryReduce 1 ctx /\
    montgomeryPow 77 1 ctx = 77 /\
    montgomeryPow 77 2 ctx = montgomerySqr 77 ctx /\
    montgomeryPow 77 (35 + 12) ctx
    = montgomeryMul (montgomeryPow 77 35 ctx) (montgomeryPow 77 12 ctx) ctx /\
    montgomeryPow 77 (35 * 12) ctx
    = montgomeryPow (montgomeryPow 77 35 ctx) 12 ctx.
Proof.
  eexists. split; [reflexivity|].
  apply (montgomeryPow_laws 561 77 35 12);
    [lia|reflexivity|reflexivity|lia|lia|lia].
Defined.

(** X7: reduce, raise, reduce back is modular exponentiation:
    [invMontgomeryReduce (montgomeryPow (montgomeryReduce b) e) = b ^ e mod
    base] for [b >= 0] and [e >= 0], which is how [primalityTest] computes
    [base ^ d mod n]. *)
Theorem montgomeryPow_modpow (base b e : Z) (ctx : Ctx.t) :
  3 <= base -> Z.odd base = true ->
  getReductionContext base = Ok ctx ->
  0 <= b -> 0 <= e ->
  invMontgomeryReduce (montgomeryPow (montgomeryReduce b ctx) e ctx) ctx
  = b ^ e mod base.
Proof.
  intros Hbase Hodd Hctx Hb He.
  destruct (getReductionContext_wellFormed base ctx Hbase Hodd Hctx)
    as [Hbeq wf].
  rewrite <- Hbeq in *.
  apply invMontgomeryReduce_represents; [assumption|].
  apply montgomeryPow_represents; [assumption|assumption|].
  now apply montgomeryReduce_represents.
Qed.

Lemma montgomeryPow_modpow_witness :
  exists ctx,
    getReductionContext 561 = Ok ctx /\
    invMontgomeryReduce (montgomeryPow (montgomeryReduce 2 ctx) 35 ctx) ctx
    = 2 ^ 35 mod 561.
Proof.
  eexists. split; [reflexivity|].
  apply (montgomeryPow_modpow 561 2 35); [lia|reflexivity|reflexivity|lia|lia].
Defined.

(** ** validateBases and getAdaptiveNumRounds *)

Lemma validateBases_map_accepts (nSub : Z) (l : list Z) :
  Forall (fun b => 2 <= b < nSub) l -> validateBases_map l nSub = Ok l.
Proof.
  induction 1 as [|b l Hb _ IH]; cbn [validateBases_map]; [reflexivity|].
  destruct (Z.leb_spec 2 b); [|lia]. destruct (Z.ltb_spec b nSub); [|lia].
  cbn [negb orb]. now rewrite IH.
Qed.

Lemma validateBases_map_first_invalid (nSub : Z) (l1 l2 : list Z) (b : Z) :
  Forall (fun b => 2 <= b < nSub) l1 -> ~ 2 <= b < nSub ->
  validateBases_map (l1 ++ b :: l2) nSub = Throw (RangeError b).
Proof.
  intros Hl1 Hb. induction Hl1 as [|c l1 Hc _ IH];
    cbn [validateBases_map app].
  - destruct (Z.leb_spec 2 b); destruct (Z.ltb_spec b nSub);
      cbn [negb orb]; try reflexivity; lia.
  - destruct (Z.leb_spec 2 c); [|lia]. destruct (Z.ltb_spec c nSub); [|lia].
    cbn [negb orb]. now rewrite IH.
Qed.

(** X8: [validateBases] on an array of integers ([BigInt]s, or values that
    [BigInt(b)] at line 277 converts; an element on which that conversion
    throws is not covered).  It returns the bases of such an array, same
    elements and same order, exactly when every base lies in [[2, nSub)],
    the empty array included; otherwise it throws the range error of the
    first base, in array order, that is out of range, and an error it throws
    for such an array is always the range error of an element out of range.
    A missing [bases] gives [null] and a value that is not an array a type
    error, whatever [nSub] is. *)
Theorem validateBases_outcomes (l : list Z) (nSub : Z) :
  validateBases BasesUndefined nSub = Ok None /\
  validateBases BasesNotArray nSub = Throw TypeError /\
  (validateBases (BasesArray l) nSub = Ok (Some l) <->
   Forall (fun b => 2 <= b < nSub) l) /\
  (forall l1 b l2,
     l = l1 ++ b :: l2 -> Forall (fun b => 2 <= b < nSub) l1 ->
     ~ 2 <= b < nSub ->
     validateBases (BasesArray l) nSub = Throw (RangeError b)) /\
  (forall e, validateBases (BasesArray l) nSub = Throw e ->
     exists b, e = RangeError b /\ In b l /\ ~ 2 <= b < nSub).
Proof.
  split; [reflexivity|]. split; [reflexivity|]. split; [|split].
  - split.
    + intros H. exact (validateBases_range _ _ _ H l eq_refl).
    + intros H. cbn [validateBases]. now rewrite validateBases_map_accepts.
  - intros l1 b l2 -> Hl1 Hb. cbn [validateBases].
    now rewrite validateBases_map_first_invalid.
  - intros e. cbn [validateBases].
    induction l as [|b l IH]; cbn [validateBases_map]; [discriminate|].
    destruct (negb (2 <=? b) || negb (b <? nSub)) eqn:E.
    + intros [= <-]. exists b. split; [reflexivity|]. split; [now left|].
      destruct (Z.leb_spec 2 b); destruct (Z.ltb_spec b nSub);
        cbn [negb orb] in E; try discriminate; lia.
    + destruct (validateBases_map l nSub) as [l'|e'] eqn:E'.
      * discriminate.
      * intros [= <-]. destruct (IH eq_refl) as (c & -> & Hin & Hc).
        exists c. split; [reflexivity|]. split; [now right|assumption].
Qed.

Lemma validateBases_outcomes_witness :
  validateBases (BasesArray [2; 558; 3]) 560 = Ok (Some [2; 558; 3]) /\
  validateBases (BasesArray [2; 560; 1]) 560 = Throw (RangeError 560).
Proof.
  destruct (validateBases_outcomes [2; 558; 3] 560) as (_ & _ & [_ H1] & _).
  destruct (validateBases_outcomes [2; 560; 1] 560) as (_ & _ & _ & H2 & _).
  split.
  - apply H1. repeat constructor; lia.
  - apply (H2 [2] 560 [1]); [reflexivity|repeat constructor; lia|lia].
Defined.

(** X9: [getAdaptiveNumRounds] never asks for fewer than 2 or more than 6
    rounds, and a longer input never gets more rounds than a shorter one. *)
Theorem getAdaptiveNumRounds_monotone (bits1 bits2 : nat) :
  (2 <= getAdaptiveNumRounds bits1 <= 6)%nat /\
  ((bits1 <= bits2)%nat ->
   (getAdaptiveNumRounds bits2 <= getAdaptiveNumRounds bits1)%nat).
Proof.
  unfold getAdaptiveNumRounds.
  repeat match goal with
         | |- context [(?a <? ?b)%nat] => destruct (Nat.ltb_spec a b)
         end; lia.
Qed.

Lemma getAdaptiveNumRounds_monotone_witness :
  (getAdaptiveNumRounds 600 <= getAdaptiveNumRounds 200)%nat.
Proof.
  apply (getAdaptiveNumRounds_monotone 200 600). lia.
Defined.

(** ** The special cases of primalityTest *)

(** X10: the promise of [primalityTest] is resolved at once, with no
    Montgomery routine called, nothing drawn and no option looked at (so an
    invalid [bases] is not reported), when [|n| < 2] (not prime), when
    [|n|] is 2 or 3 (prime) and when [n] is even with [|n| >= 4] (not prime,
    divisor 2); the [n] of the result is the signed input. *)
Theorem primalityTest_special_cases (fuel : nat) (rnd : list Z) (n : Z)
    (options : Options) :
  (Z.abs n < 2 ->
   run fuel rnd n options
   = (mkWorld rnd [], Ok (PrimalityResult.make n false None None))) /\
  (2 <= Z.abs n < 4 ->
   run fuel rnd n options
   = (mkWorld rnd [], Ok (PrimalityResult.make n true None None))) /\
  (4 <= Z.abs n -> Z.even n = true ->
   run fuel rnd n options
   = (mkWorld rnd [], Ok (PrimalityResult.make n false None (Some 2)))).
Proof.
  unfold run, primalityTest, primalityTest_body. cbv zeta.
  set (sign := if n <? 0 then -1 else 1).
  set (m := if sign =? -1 then - n else n).
  assert (Hm : m = Z.abs n /\ sign * m = n).
  { subst m sign. destruct (Z.ltb_spec n 0).
    - change (-1 =? -1) with true. cbv iota. lia.
    - change (1 =? -1) with false. cbv iota. lia. }
  destruct Hm as [Hm Hsign]. rewrite Hsign, <- Hm.
  split; [|split].
  - intros H. destruct (Z.ltb_spec m 2); [reflexivity|lia].
  - intros H. destruct (Z.ltb_spec m 2); [lia|].
    destruct (Z.ltb_spec m 4); [reflexivity|lia].
  - intros H Heven. destruct (Z.ltb_spec m 2); [lia|].
    destruct (Z.ltb_spec m 4); [lia|].
    rewrite truthy_land_1.
    assert (Hodd : Z.odd m = false).
    { rewrite Hm, <- Z.negb_even.
      destruct (Z.abs_eq_or_opp n) as [->| ->];
        rewrite ?Z.even_opp, Heven; reflexivity. }
    rewrite Hodd. reflexivity.
Qed.

Lemma primalityTest_special_cases_witness :
  run 0 [7] (-1) (mkOptions None BasesNotArray true false)
  = (mkWorld [7] [], Ok (PrimalityResult.make (-1) false None None)) /\
  run 0 [7] (-3) (mkOptions None BasesNotArray true false)
  = (mkWorld [7] [], Ok (PrimalityResult.make (-3) true None None)) /\
  run 0 [7] (-10) (mkOptions None BasesNotArray true false)
  = (mkWorld [7] [], Ok (PrimalityResult.make (-10) false None (Some 2))).
Proof.
  destruct (primalityTest_special_cases 0 [7] (-1)
              (mkOptions None BasesNotArray true false)) as (H1 & _ & _).
  destruct (primalityTest_special_cases 0 [7] (-3)
              (mkOptions None BasesNotArray true false)) as (_ & H2 & _).
  destruct (primalityTest_special_cases 0 [7] (-10)
              (mkOptions None BasesNotArray true false)) as (_ & _ & H3).
  split; [apply H1; simpl; lia|].
  split; [apply H2; simpl; lia|apply H3; [simpl; lia|reflexivity]].
Defined.

(** ** Primes are never reported composite *)

Lemma prime_odd (p : Z) : Z.prime p -> 3 <= p -> Z.odd p = true.
Proof.
  intros [_ Hp] H3. destruct (Z.odd p) eqn:E; [reflexivity|exfalso].
  rewrite <- Z.negb_even in E. apply negb_false_iff in E.
  apply Z.even_spec in E. destruct E as [k ->].
  apply (Hp 2); [lia|]. exists k. ring.
Qed.

Lemma twoMultiplicity_loop_sound (n : Z) (fuel : nat) :
  forall m r,
    0 <= m ->
    (forall j, 0 <= j < m -> Z.testbit n j = false) ->
    twoMultiplicity_loop fuel n m = Some r ->
    m <= r /\ Z.testbit n r = true /\
    (forall j, 0 <= j < r -> Z.testbit n j = false).
Proof.
  induction fuel as [|fuel IH]; intros m r Hm Hlow; cbn [twoMultiplicity_loop];
    [discriminate|].
  rewrite truthy_land_bit by assumption.
  destruct (Z.testbit n m) eqn:E.
  - intros [= <-]. split; [lia|]. split; assumption.
  - intros H. apply IH in H; [|lia|].
    + destruct H as (H1 & H2 & H3). split; [lia|]. split; assumption.
    + intros j Hj. destruct (Z.eq_dec j m) as [->|]; [assumption|].
      apply Hlow. lia.
Qed.

Lemma twoMultiplicity_sound (fuel : nat) (n r : Z) :
  twoMultiplicity fuel n = Some r ->
  0 <= r /\ n = Z.shiftr n r * 2 ^ r /\
  (n <> 0 -> Z.odd (Z.shiftr n r) = true).
Proof.
  unfold twoMultiplicity. destruct (Z.eqb_spec n 0) as [->|Hn].
  - intros [= <-]. split; [lia|]. split; [reflexivity|congruence].
  - intros H. apply twoMultiplicity_loop_sound in H; [|lia|intros; lia].
    destruct H as (Hr & Hbit & Hlow).
    split; [assumption|]. split; [now apply shiftr_low_bits|].
    intros _. rewrite <- Z.bit0_odd, Z.shiftr_spec by lia. exact Hbit.
Qed.

Lemma resolves_weaken {A : Type} (m : M A) (phi : A -> Prop) :
  resolves m phi -> returns m phi.
Proof.
  intros H w _. destruct (H w) as (w' & a & E & Hphi). now rewrite E.
Qed.

Lemma prime_round_returns (fuel : nat) (n r d : Z) (ctx : Ctx.t)
    (findDivisor : bool) (base : Z) :
  5 <= n -> Z.prime n -> wellFormed ctx -> Ctx.base ctx = n ->
  0 <= r -> 0 <= d -> n - 1 = d * 2 ^ r ->
  2 <= base < n - 1 ->
  returns
    (millerRabin_round fuel findDivisor n r d ctx (montgomeryReduce 1 ctx)
       (montgomeryReduce (n - 1) ctx) base)
    (fun v => v = None).
Proof.
  intros Hn Hp wf Hbase Hr Hd Hdec Hb.
  assert (Htest :
    returns
      (millerRabin_test fuel findDivisor n r d ctx (montgomeryReduce 1 ctx)
         (montgomeryReduce (n - 1) ctx) base)
      (fun v => v = None)).
  { apply resolves_weaken. now apply prime_test_passes. }
  unfold millerRabin_round. destruct findDivisor; [|exact Htest].
  apply returns_bind with (phi := fun g => g = Z.gcd n base).
  { apply returns_ofOption. intros g Hg.
    apply (ugcd_sound fuel); [lia|lia|assumption]. }
  intros g ->. rewrite (Z.coprime_prime_small n base Hp ltac:(lia)).
  cbn [Z.eqb Pos.eqb negb]. exact Htest.
Qed.

Lemma prime_rounds_return (fuel : nat) (n nSub r d : Z) (ctx : Ctx.t)
    (findDivisor : bool) (validBases : option (list Z)) (count : nat) :
  5 <= n -> Z.prime n -> wellFormed ctx -> Ctx.base ctx = n ->
  0 <= r -> 0 <= d -> n - 1 = d * 2 ^ r ->
  nSub = n - 1 ->
  (forall l, validBases = Some l -> Forall (fun b => 2 <= b < nSub) l) ->
  forall baseIndex,
    returns
      (millerRabin_rounds fuel findDivisor n nSub r d ctx
         (montgomeryReduce 1 ctx) (montgomeryReduce (n - 1) ctx) validBases
         count baseIndex)
      (fun v => v = mkVerdict true None None).
Proof.
  intros Hn Hp wf Hbase Hr Hd Hdec HnSub Hvalid.
  induction count as [|count IH]; intros baseIndex; cbn [millerRabin_rounds].
  - now apply returns_ret.
  - apply returns_bind with (phi := fun b => 2 <= b < nSub);
      [now apply nextBase_range|].
    intros b Hb. rewrite HnSub in Hb.
    apply returns_bind with (phi := fun v => v = None);
      [now apply prime_round_returns|].
    intros v ->. apply IH.
Qed.

Lemma primalityTest_body_prime (fuel : nat) (sign m : Z) (options : Options) :
  Z.prime m ->
  returns (primalityTest_body fuel sign m options)
    (fun res => res = PrimalityResult.make (sign * m) true None None).
Proof.
  intros Hp. pose proof (proj1 Hp) as H1. unfold primalityTest_body.
  destruct (Z.ltb_spec m 2); [lia|].
  destruct (Z.ltb_spec m 4); [now apply returns_ret|].
  assert (Hodd : Z.odd m = true) by (apply prime_odd; [assumption|lia]).
  assert (Hm : 5 <= m).
  { destruct (Z.eq_dec m 4) as [->|]; [discriminate Hodd|lia]. }
  rewrite truthy_land_1, Hodd. cbn [negb]. cbv zeta.
  apply returns_bind
    with (phi := fun r => 0 <= r /\ m - 1 = Z.shiftr (m - 1) r * 2 ^ r).
  { apply returns_ofOption. intros r Hr.
    apply twoMultiplicity_sound in Hr. split; apply Hr. }
  intros r [Hr Hdec].
  apply returns_bind
    with (phi := fun ctx => Ctx.base ctx = m /\ wellFormed ctx).
  { apply returns_call. intros ctx Hctx.
    apply getReductionContext_wellFormed; [lia|assumption|assumption]. }
  intros ctx [Hbase Hwf].
  apply returns_bind with (phi := fun one => one = montgomeryReduce 1 ctx).
  { apply returns_call. now intros a [= <-]. }
  intros oneReduced ->.
  apply returns_bind
    with (phi := fun x => x = montgomeryReduce (m - 1) ctx).
  { apply returns_call. now intros a [= <-]. }
  intros nSubReduced ->.
  eapply returns_bind.
  { apply returns_ofResult. intros validBases Hv.
    exact (validateBases_range _ _ _ Hv). }
  intros validBases Hvalid.
  eapply returns_bind.
  { apply prime_rounds_return; try eassumption; try reflexivity.
    apply Z.shiftr_nonneg. lia. }
  intros v ->. now apply returns_ret.
Qed.

Lemma primalityTest_abs (fuel : nat) (n : Z) (options : Options) :
  exists sign,
    sign * Z.abs n = n /\
    primalityTest fuel n options
    = primalityTest_body fuel sign (Z.abs n) options.
Proof.
  unfold primalityTest. destruct (Z.ltb_spec n 0).
  - exists (-1). change (-1 =? -1) with true. cbv iota.
    split; [lia|]. f_equal. lia.
  - exists 1. change (1 =? -1) with false. cbv iota.
    split; [lia|]. f_equal. lia.
Qed.

(** X11: a prime is never reported composite.  Whatever the options, the
    random draws and the loop budget, a run on [n] with [|n|] prime that
    resolves does so with [probablePrime: true], no witness, no divisor and
    the signed input as [n]. *)
Theorem prime_never_composite (fuel : nat) (rnd : list Z) (n : Z)
    (options : Options) (w : world) (res : PrimalityResult.t) :
  Z.prime (Z.abs n) ->
  run fuel rnd n options = (w, Ok res) ->
  res = PrimalityResult.make n true None None.
Proof.
  intros Hp Hrun. unfold run in Hrun.
  destruct (primalityTest_abs fuel n options) as (sign & Hsign & E).
  rewrite E in Hrun.
  pose proof (returns_run _ _ _ _ _
                (primalityTest_body_prime fuel sign _ options Hp) Hrun) as H.
  cbv beta in H. now rewrite Hsign in H.
Qed.

Lemma prime_never_composite_witness :
  exists w res,
    run 30 [1; 22; 5; 7; 9; 11; 13; 15] (-23) defaultOptions = (w, Ok res) /\
    res = PrimalityResult.make (-23) true None None.
Proof.
  eexists. eexists. split; [vm_compute; reflexivity|].
  eapply (prime_never_composite 30 [1; 22; 5; 7; 9; 11; 13; 15] (-23)
            defaultOptions); [exact prime_23|vm_compute; reflexivity].
Defined.

(** ** The rounds decide strong probable primality *)

Lemma returns_impl {A : Type} (m : M A) (phi psi : A -> Prop) :
  returns m phi -> (forall a, phi a -> psi a) -> returns m psi.
Proof.
  intros H Himpl w HP. specialize (H w HP).
  destruct (m w) as [w' [a|e]]; [now apply Himpl|exact I].
Qed.

Lemma odd_decomposition (m : Z) :
  0 < m -> exists s e, 0 <= s /\ Z.odd e = true /\ m = e * 2 ^ s.
Proof.
  intros Hm.
  destruct (twoMultiplicity_spec (S (Z.to_nat (Z.log2 m))) m Hm)
    as (s & _ & Hs & Hbit & Hlow).
  { pose proof (Z.log2_nonneg m). lia. }
  exists s, (Z.shiftr m s). split; [lia|]. split.
  - rewrite <- Z.bit0_odd, Z.shiftr_spec by lia. exact Hbit.
  - apply shiftr_low_bits; [lia|assumption].
Qed.

Lemma odd_decomposition_lt (d r d' r' : Z) :
  0 <= r < r' -> Z.odd d = true -> d * 2 ^ r <> d' * 2 ^ r'.
Proof.
  intros Hr Hd E.
  replace r' with (r' - r - 1 + 1 + r) in E by lia.
  rewrite !Z.pow_add_r, Z.pow_1_r, !Z.mul_assoc in E by lia.
  apply Z.mul_cancel_r in E; [|apply Z.pow_nonzero; lia].
  rewrite E, Z.odd_mul, Bool.andb_comm in Hd. discriminate.
Qed.

Lemma odd_decomposition_unique (d r d' r' : Z) :
  0 <= r -> 0 <= r' -> Z.odd d = true -> Z.odd d' = true ->
  d * 2 ^ r = d' * 2 ^ r' -> r = r' /\ d = d'.
Proof.
  intros Hr Hr' Hd Hd' E.
  destruct (Z.lt_trichotomy r r') as [H|[H|H]].
  - exfalso. now apply (odd_decomposition_lt d r d' r').
  - subst r'. split; [reflexivity|].
    apply Z.mul_cancel_r in E; [assumption|apply Z.pow_nonzero; lia].
  - exfalso. now apply (odd_decomposition_lt d' r' d r).
Qed.

Lemma pow_mod_one (p Y k : Z) :
  1 < p -> 0 <= k -> Y mod p = 1 -> Y ^ k mod p = 1.
Proof.
  intros Hp Hk H.
  rewrite <- Z.mod_pow_l, H, Z.pow_1_l by assumption.
  apply Z.mod_1_l. assumption.
Qed.

Lemma minus_one_mod (p : Z) : 1 < p -> (-1) mod p = p - 1.
Proof.
  intros Hp. symmetry. apply (Z.mod_unique (-1) p (-1) (p - 1)); lia.
Qed.

Lemma pow_mod_minus_one (p X e : Z) :
  1 < p -> 0 <= e -> Z.odd e = true -> X mod p = p - 1 ->
  X ^ e mod p = p - 1.
Proof.
  intros Hp Hpos He H.
  rewrite <- Z.mod_pow_l, H, <- (minus_one_mod p Hp), Z.mod_pow_l.
  apply Z.odd_spec in He.
  change (-1) with (- (1)). rewrite Z.pow_opp_odd, Z.pow_1_l by assumption.
  reflexivity.
Qed.

Lemma mod_minus_one_divisor (n p X : Z) :
  1 < p -> (p | n) -> X mod n = n - 1 -> X mod p = p - 1.
Proof.
  intros Hp Hdiv H.
  rewrite <- (Z.mod_mod_divide X n p Hdiv), H.
  apply Zdivide_mod_minus; [lia|].
  replace (n - 1 - (p - 1)) with (n - p) by ring.
  apply Z.divide_sub_r; [assumption|apply Z.divide_refl].
Qed.

(** If [b ^ (d * 2 ^ r)] is [-1] modulo an odd prime [p], then [2 ^ (r + 1)]
    divides [p - 1]. *)
Lemma minus_one_power_prime (p b r d : Z) :
  Z.prime p -> 3 <= p -> 0 <= r -> 0 < d ->
  b ^ (d * 2 ^ r) mod p = p - 1 ->
  (2 ^ (r + 1) | p - 1).
Proof.
  intros Hp H3 Hr Hd Hb.
  destruct (odd_decomposition (p - 1) ltac:(lia)) as (s & e & Hs & He & Hdec).
  assert (Hepos : 0 < e).
  { pose proof (Z.pow_pos_nonneg 2 s ltac:(lia) Hs). nia. }
  assert (H2r : 0 < 2 ^ r) by (apply Z.pow_pos_nonneg; lia).
  destruct (Z.le_gt_cases s r) as [Hle|Hgt].
  - exfalso.
    assert (Hnz : b mod p <> 0).
    { intros Hz. rewrite <- Z.mod_pow_l, Hz, Z.pow_0_l, Z.mod_0_l in Hb by nia.
      lia. }
    pose proof (ZmodInv.Z.fermat_nz p b Hp Hnz) as Hf. rewrite Hdec in Hf.
    assert (H1 : b ^ (d * e * 2 ^ r) mod p = 1).
    { replace (d * e * 2 ^ r) with (e * 2 ^ s * (d * 2 ^ (r - s))).
      - rewrite Z.pow_mul_r.
        + apply pow_mod_one; [lia| |assumption].
          pose proof (Z.pow_nonneg 2 (r - s) ltac:(lia)). nia.
        + pose proof (Z.pow_nonneg 2 s ltac:(lia)). nia.
        + pose proof (Z.pow_nonneg 2 (r - s) ltac:(lia)). nia.
      - replace r with (s + (r - s)) at 2 by lia.
        rewrite Z.pow_add_r by lia. ring. }
    assert (H2 : b ^ (d * e * 2 ^ r) mod p = p - 1).
    { replace (d * e * 2 ^ r) with (d * 2 ^ r * e) by ring.
      rewrite Z.pow_mul_r by nia.
      apply pow_mod_minus_one; [lia|lia|assumption|assumption]. }
    lia.
  - exists (e * 2 ^ (s - (r + 1))). rewrite Hdec.
    replace s with (s - (r + 1) + (r + 1)) at 1 by lia.
    rewrite Z.pow_add_r by lia. ring.
Qed.

(** A product of primes that are all 1 modulo [M] is 1 modulo [M]. *)
Lemma prime_factors_congruent (M n : Z) :
  1 <= n ->
  (forall p, Z.prime p -> (p | n) -> (M | p - 1)) ->
  (M | n - 1).
Proof.
  intros Hn. assert (H0 : 0 <= n) by lia. revert n H0 Hn.
  apply (Z_lt_induction
           (fun n => 1 <= n ->
                     (forall p, Z.prime p -> (p | n) -> (M | p - 1)) ->
                     (M | n - 1))).
  intros n IH Hn Hall.
  destruct (Z.eq_dec n 1) as [->|Hne]; [apply Z.divide_0_r|].
  destruct (prime_dec n) as [Hp|Hnp].
  - apply Hall; [now apply prime_alt|apply Z.divide_refl].
  - destruct (not_prime_divide n ltac:(lia) Hnp) as (k & Hk & [q Hq]).
    assert (Hqr : 1 < q < n) by nia.
    assert (Hk1 : (M | k - 1)).
    { apply IH; [lia|lia|]. intros p Hp Hdiv. apply Hall; [assumption|].
      apply (Z.divide_trans _ k); [assumption|]. exists q. exact Hq. }
    assert (Hq1 : (M | q - 1)).
    { apply IH; [lia|lia|]. intros p Hp Hdiv. apply Hall; [assumption|].
      apply (Z.divide_trans _ q); [assumption|]. exists k. lia. }
    replace (n - 1) with ((q - 1) * k + (k - 1)) by lia.
    apply Z.divide_add_r; [|assumption]. now apply Z.divide_mul_l.
Qed.

(** For odd [n], [b ^ (n - 1)] is never [-1] modulo [n]: the last of the
    values a round looks at cannot make it pass. *)
Lemma minus_one_not_at_top (n b r d : Z) :
  3 <= n -> Z.odd n = true -> 0 <= r -> Z.odd d = true ->
  n - 1 = d * 2 ^ r ->
  b ^ (d * 2 ^ r) mod n <> n - 1.
Proof.
  intros Hn Hodd Hr Hd Hdec Hb.
  assert (H2r : 0 < 2 ^ r) by (apply Z.pow_pos_nonneg; lia).
  assert (Hdpos : 0 < d) by nia.
  assert (Hdiv : (2 ^ (r + 1) | n - 1)).
  { apply prime_factors_congruent; [lia|]. intros p Hp Hpn.
    assert (Hp3 : 3 <= p).
    { destruct Hp as [Hp1 Hp]. destruct (Z.eq_dec p 2) as [->|]; [|lia].
      exfalso. destruct Hpn as [k ->].
      rewrite Z.odd_mul, Bool.andb_comm in Hodd. discriminate. }
    apply (minus_one_power_prime p b r d); try assumption.
    apply (mod_minus_one_divisor n); [lia|assumption|assumption]. }
  destruct Hdiv as [c Hc]. rewrite Hdec, Z.pow_add_r, Z.pow_1_r in Hc by lia.
  assert (E : d = 2 * c) by nia.
  rewrite E, Z.odd_even in Hd. discriminate.
Qed.

Lemma passesRound_strongProbablePrime (n r d b : Z) :
  3 <= n -> Z.odd n = true -> 0 <= r -> Z.odd d = true ->
  n - 1 = d * 2 ^ r ->
  (passesRound n r d b <-> strongProbablePrime n b).
Proof.
  intros Hn Hodd Hr Hd Hdec. split.
  - intros [H|(i & Hi & H)]; exists r, d;
      (split; [assumption|]); (split; [assumption|]);
      (split; [assumption|]); [now left|right].
    exists i. split; [|assumption].
    destruct (Z.eq_dec i r) as [->|]; [|lia].
    exfalso. now apply (minus_one_not_at_top n b r d).
  - intros (r' & d' & Hr' & Hd' & Hdec' & H).
    destruct (odd_decomposition_unique d r d' r') as [<- <-];
      try assumption; [congruence|].
    destruct H as [H|(i & Hi & H)]; [now left|right].
    exists i. split; [lia|assumption].
Qed.

(** A base that passes a round is invertible modulo [n]. *)
Lemma passesRound_coprime (n r d b : Z) :
  3 <= n -> 0 <= r -> 0 < d -> passesRound n r d b -> Z.gcd n b = 1.
Proof.
  intros Hn Hr Hd Hpass.
  assert (Hpow : exists k v, 0 < k /\ b ^ k mod n = v /\ (v = 1 \/ v = n - 1)).
  { destruct Hpass as [H|(i & Hi & H)].
    - exists d, 1. auto.
    - exists (d * 2 ^ i), (n - 1). split; [|auto].
      pose proof (Z.pow_pos_nonneg 2 i ltac:(lia) ltac:(lia)). nia. }
  destruct Hpow as (k & v & Hk & Hv & Hcase).
  pose proof (Z.gcd_nonneg n b) as Hg0.
  pose proof (Z.gcd_divide_l n b) as Hgn.
  pose proof (Z.gcd_divide_r n b) as Hgb.
  assert (Hgp : (Z.gcd n b | b ^ k)).
  { replace k with (1 + (k - 1)) by lia.
    rewrite Z.pow_add_r, Z.pow_1_r by lia. now apply Z.divide_mul_l. }
  assert (Hgv : (Z.gcd n b | v)).
  { rewrite <- Hv, Z.mod_eq by lia. apply Z.divide_sub_r; [assumption|].
    now apply Z.divide_mul_l. }
  assert (Hg1 : (Z.gcd n b | 1)).
  { destruct Hcase as [->| ->]; [assumption|].
    replace 1 with (n - (n - 1)) by ring. now apply Z.divide_sub_r. }
  apply Z.divide_1_r_nonneg in Hg1; assumption.
Qed.

Section StrongProbablePrime.

Variable fuel : nat.
Variables n r d : Z.
Variable ctx : Ctx.t.

Hypothesis n_large : 5 <= n.
Hypothesis ctx_wf : wellFormed ctx.
Hypothesis ctx_base : Ctx.base ctx = n.
Hypothesis r_nonneg : 0 <= r.
Hypothesis d_pos : 0 < d.

Local Abbreviation oneReduced := (montgomeryReduce 1 ctx).
Local Abbreviation nSubReduced := (montgomeryReduce (n - 1) ctx).

Lemma reduce_eq_iff (x X v : Z) :
  represents ctx x X -> 0 <= v < n ->
  (x = montgomeryReduce v ctx <-> X mod n = v).
Proof.
  apply (represents_reduce_iff 0%nat n 0 ctx); assumption.
Qed.

Lemma millerRabin_loop_spec (B : Z) (count : nat) :
  forall j x,
    0 <= j -> j + Z.of_nat count = r ->
    represents ctx x (B ^ (d * 2 ^ j)) ->
    returns (millerRabin_loop ctx oneReduced nSubReduced count x)
      (fun e =>
         match e with
         | Inner_passed =>
             exists i, j < i <= r /\ B ^ (d * 2 ^ i) mod n = n - 1
         | Inner_composite _ | Inner_exhausted _ =>
             ~ exists i, j < i <= r /\ B ^ (d * 2 ^ i) mod n = n - 1
         end).
Proof.
  induction count as [|count IH]; intros j x Hj Hr Hx;
    cbn [millerRabin_loop].
  - apply returns_ret. intros (i & Hi & _). lia.
  - assert (Hpow : 0 <= d * 2 ^ j).
    { pose proof (Z.pow_nonneg 2 j ltac:(lia)). nia. }
    pose proof (montgomerySqr_represents ctx ctx_wf x _ Hx) as Hy.
    rewrite <- Z.pow_add_r in Hy by assumption.
    replace (d * 2 ^ j + d * 2 ^ j) with (d * 2 ^ (j + 1)) in Hy
      by (rewrite Z.pow_add_r, Z.pow_1_r by lia; ring).
    apply returns_bind with (phi := fun y => y = montgomerySqr x ctx).
    { apply returns_call. now intros a [= <-]. }
    intros y ->.
    destruct (Z.eqb_spec (montgomerySqr x ctx) oneReduced) as [E|Hny1].
    { apply returns_ret. intros (i & Hi & Hm).
      apply (reduce_eq_iff _ _ 1 Hy) in E; [|lia].
      assert (H1 : B ^ (d * 2 ^ i) mod n = 1).
      { replace (d * 2 ^ i) with (d * 2 ^ (j + 1) * 2 ^ (i - (j + 1))).
        - rewrite Z.pow_mul_r.
          + apply pow_mod_one; [lia| |assumption]. apply Z.pow_nonneg. lia.
          + pose proof (Z.pow_nonneg 2 (j + 1) ltac:(lia)). nia.
          + apply Z.pow_nonneg. lia.
        - rewrite <- Z.mul_assoc, <- Z.pow_add_r by lia.
          do 2 f_equal. lia. }
      lia. }
    destruct (Z.eqb_spec (montgomerySqr x ctx) nSubReduced) as [E|Hny2].
    { apply returns_ret. exists (j + 1). split; [lia|].
      now apply (reduce_eq_iff _ _ (n - 1) Hy); [lia|]. }
    assert (Hnot : B ^ (d * 2 ^ (j + 1)) mod n <> n - 1).
    { intros Hm. apply Hny2.
      now apply (reduce_eq_iff _ _ (n - 1) Hy); [lia|]. }
    apply returns_impl with (1 := IH (j + 1) _ ltac:(lia) ltac:(lia) Hy).
    intros [x'| |x'].
    + intros Hno (i & Hi & Hm). destruct (Z.eq_dec i (j + 1)) as [->|];
        [contradiction|]. apply Hno. exists i. split; [lia|assumption].
    + intros (i & Hi & Hm). exists i. split; [lia|assumption].
    + intros Hno (i & Hi & Hm). destruct (Z.eq_dec i (j + 1)) as [->|];
        [contradiction|]. apply Hno. exists i. split; [lia|assumption].
Qed.

Lemma compositeBy_witness (findDivisor : bool) (base x : Z) :
  returns (compositeBy fuel findDivisor n ctx base x)
    (fun v => v_probablePrime v = false /\ v_witness v = Some base).
Proof.
  unfold compositeBy. destruct findDivisor.
  - apply returns_bind with (phi := fun _ => True); [apply returns_true|].
    intros xi _.
    apply returns_bind with (phi := fun _ => True); [apply returns_true|].
    intros g _. apply returns_ret. now split.
  - apply returns_ret. now split.
Qed.

Lemma millerRabin_test_spec (findDivisor : bool) (base : Z) :
  0 <= base ->
  returns
    (millerRabin_test fuel findDivisor n r d ctx oneReduced nSubReduced base)
    (roundOutcome n r d base).
Proof.
  intros Hb. unfold millerRabin_test.
  apply returns_bind with (phi := fun b => b = montgomeryReduce base ctx).
  { apply returns_call. now intros a [= <-]. }
  intros baseReduced ->.
  apply returns_bind
    with (phi := fun x => x = montgomeryPow (montgomeryReduce base ctx) d ctx).
  { apply returns_call. now intros a [= <-]. }
  intros x ->.
  set (x := montgomeryPow (montgomeryReduce base ctx) d ctx).
  assert (Hx : represents ctx x (base ^ d)).
  { apply montgomeryPow_represents; [assumption|lia|].
    now apply montgomeryReduce_represents. }
  destruct (Z.eqb_spec x oneReduced) as [E|Hne1]; cbn [orb].
  { apply returns_ret. left. now apply (reduce_eq_iff _ _ 1 Hx); [lia|]. }
  destruct (Z.eqb_spec x nSubReduced) as [E|Hne2].
  { apply returns_ret. right. exists 0. split; [lia|].
    rewrite Z.pow_0_r, Z.mul_1_r.
    now apply (reduce_eq_iff _ _ (n - 1) Hx); [lia|]. }
  assert (Hx0 : represents ctx x (base ^ (d * 2 ^ 0)))
    by now rewrite Z.pow_0_r, Z.mul_1_r.
  assert (Hfail :
    (~ exists i, 0 < i <= r /\ base ^ (d * 2 ^ i) mod n = n - 1) ->
    ~ passesRound n r d base).
  { intros Hno [H|(i & Hi & H)].
    - apply Hne1. now apply (reduce_eq_iff _ _ 1 Hx); [lia|].
    - destruct (Z.eq_dec i 0) as [->|].
      + apply Hne2. rewrite Z.pow_0_r, Z.mul_1_r in H.
        now apply (reduce_eq_iff _ _ (n - 1) Hx); [lia|].
      + apply Hno. exists i. split; [lia|assumption]. }
  eapply returns_bind.
  { apply (millerRabin_loop_spec base (Z.to_nat r) 0 x); [lia|lia|assumption]. }
  intros [x'| |x'] He.
  - apply returns_bind with (1 := compositeBy_witness findDivisor base x').
    intros v [Hpp Hw]. apply returns_ret. cbn [roundOutcome]. auto.
  - apply returns_ret. destruct He as (i & Hi & H). right.
    exists i. split; [lia|assumption].
  - apply returns_bind with (1 := compositeBy_witness findDivisor base x').
    intros v [Hpp Hw]. apply returns_ret. cbn [roundOutcome]. auto.
Qed.

Lemma millerRabin_round_spec (findDivisor : bool) (base : Z) :
  0 <= base ->
  returns
    (millerRabin_round fuel findDivisor n r d ctx oneReduced nSubReduced base)
    (roundOutcome n r d base).
Proof.
  intros Hb. unfold millerRabin_round. destruct findDivisor;
    [|now apply millerRabin_test_spec].
  apply returns_bind with (phi := fun g => g = Z.gcd n base).
  { apply returns_ofOption. intros g Hg.
    apply (ugcd_sound fuel); [lia|lia|assumption]. }
  intros g ->. destruct (Z.eqb_spec (Z.gcd n base) 1) as [E|Hne]; cbn [negb].
  - now apply millerRabin_test_spec.
  - apply returns_ret. cbn [roundOutcome v_probablePrime v_witness].
    split; [|auto]. intros Hpass. apply Hne.
    apply (passesRound_coprime n r d base); try assumption; lia.
Qed.

Lemma millerRabin_rounds_spec (findDivisor : bool) (nSub : Z) (rest : list Z) :
  forall pre,
    Forall (fun b => 0 <= b) rest ->
    returns
      (millerRabin_rounds fuel findDivisor n nSub r d ctx oneReduced
         nSubReduced (Some (pre ++ rest)) (List.length rest)
         (List.length pre))
      (fun v =>
         firstFailure (passesRound n r d) rest (v_probablePrime v)
           (v_witness v)).
Proof.
  induction rest as [|b rest IH]; intros pre Hrest;
    cbn [millerRabin_rounds List.length].
  - apply returns_ret. left. cbn. auto.
  - unfold nextBase.
    rewrite nth_error_app2, Nat.sub_diag by lia. cbn [nth_error].
    apply returns_bind with (phi := fun b' => b' = b);
      [now apply returns_ret|].
    intros b' ->. pose proof (Forall_inv Hrest) as Hb.
    pose proof (Forall_inv_tail Hrest) as Hrest'. cbv beta in Hb.
    apply returns_bind with (1 := millerRabin_round_spec findDivisor b Hb).
    intros [v|] Hv; cbn [roundOutcome] in Hv.
    + apply returns_ret. destruct Hv as (Hno & Hpp & Hw). right.
      split; [assumption|]. exists [], b, rest. cbn [app]. auto.
    + specialize (IH (pre ++ [b]) Hrest').
      rewrite <- app_assoc, length_app in IH. cbn [app List.length] in IH.
      rewrite Nat.add_1_r in IH.
      apply returns_impl with (1 := IH).
      intros v [(Hpp & Hw & Hall)|(Hpp & l1 & c & l2 & -> & Hl1 & Hc & Hw)].
      * left. auto.
      * right. split; [assumption|]. exists (b :: l1), c, l2. cbn [app]. auto.
Qed.

End StrongProbablePrime.

Lemma firstFailure_iff (P Q : Z -> Prop) (l : list Z) (pp : bool)
    (w : option Z) :
  (forall b, P b <-> Q b) -> firstFailure P l pp w -> firstFailure Q l pp w.
Proof.
  intros Hiff [(Hpp & Hw & Hall)|(Hpp & l1 & b & l2 & -> & Hl1 & Hb & Hw)].
  - left. split; [assumption|]. split; [assumption|].
    eapply Forall_impl; [|eassumption]. intros a. apply Hiff.
  - right. split; [assumption|]. exists l1, b, l2.
    split; [reflexivity|]. split; [|split; [|assumption]].
    + eapply Forall_impl; [|eassumption]. intros a. apply Hiff.
    + intros H. apply Hb. now apply Hiff.
Qed.

(** X12: on a validated list of bases the run decides strong probable
    primality.  For odd [n >= 5], bases [l] that pass [validateBases] (the
    caller's, or those of the small-determinism table) and enough loop
    budget, the promise is resolved; [probablePrime] is true exactly when
    [n] is a strong probable prime to every base of [l], and otherwise
    [witness] is the first base of [l] to which it is not. *)
Theorem primalityTest_strong_probable_prime (fuel : nat) (rnd : list Z)
    (n : Z) (options : Options) (l : list Z) :
  5 <= n -> Z.odd n = true -> 4 * Z.log2 n + 1 < Z.of_nat fuel ->
  validateBases (basesInEffect n options) (n - 1) = Ok (Some l) ->
  exists w res,
    run fuel rnd n options = (w, Ok res) /\
    PrimalityResult.n res = n /\
    firstFailure (strongProbablePrime n) l
      (PrimalityResult.probablePrime res) (PrimalityResult.witness res).
Proof.
  intros Hn Hodd Hfuel Hv.
  destruct (run_validated fuel rnd n options l Hn Hodd Hfuel Hv)
    as (r & ctx & w & v & Htwo & Hr & Hdec & Hctx & Hwf & Hbase & Hvalid
        & Hrounds & Hrun).
  exists w, (PrimalityResult.make n (v_probablePrime v) (v_witness v)
               (v_divisor v)).
  split; [assumption|]. split; [reflexivity|].
  cbn [PrimalityResult.probablePrime PrimalityResult.witness].
  destruct (twoMultiplicity_sound fuel (n - 1) r Htwo) as (_ & _ & Hd).
  specialize (Hd ltac:(lia)).
  assert (H2r : 0 < 2 ^ r) by (apply Z.pow_pos_nonneg; lia).
  assert (Hdpos : 0 < Z.shiftr (n - 1) r) by nia.
  apply firstFailure_iff with (P := passesRound n r (Z.shiftr (n - 1) r)).
  { intros b. apply passesRound_strongProbablePrime; try assumption. lia. }
  refine (returns_run _ _ _ _ _
            (millerRabin_rounds_spec fuel n r (Z.shiftr (n - 1) r) ctx Hn Hwf
               Hbase Hr Hdpos (findDivisor options) (n - 1) l [] _) Hrounds).
  eapply Forall_impl; [|exact Hvalid]. cbv beta. intros; lia.
Qed.

Lemma primalityTest_strong_probable_prime_witness :
  exists w res,
    run 50 [] 561 (mkOptions None (BasesArray [50; 2; 3]) true false)
    = (w, Ok res) /\
    PrimalityResult.n res = 561 /\
    firstFailure (strongProbablePrime 561) [50; 2; 3]
      (PrimalityResult.probablePrime res) (PrimalityResult.witness res).
Proof.
  apply (primalityTest_strong_probable_prime 50 [] 561
           (mkOptions None (BasesArray [50; 2; 3]) true false) [50; 2; 3]);
    [lia|reflexivity|vm_compute; reflexivity|reflexivity].
Defined.

(** ** Random bases are the draws in range *)

Lemma drawless_ret {A : Type} (a : A) : drawless (ret a).
Proof. intros cs. exists cs, (Ok a). reflexivity. Qed.

Lemma drawless_throw {A : Type} (e : exn) : drawless (@throw A e).
Proof. intros cs. exists cs, (Throw e). reflexivity. Qed.

Lemma drawless_ofOption {A : Type} (x : option A) : drawless (ofOption x).
Proof. destruct x; [apply drawless_ret|apply drawless_throw]. Qed.

Lemma drawless_call {A : Type} (c : montgomeryCall) (x : result A) :
  drawless (call c x).
Proof. intros cs. exists (cs ++ [c]), x. reflexivity. Qed.

Lemma drawless_bind {A B : Type} (m : M A) (k : A -> M B) :
  drawless m -> (forall a, drawless (k a)) -> drawless (x <- m ;; k x).
Proof.
  intros Hm Hk cs. destruct (Hm cs) as (cs1 & [a|e] & H1).
  - destruct (Hk a cs1) as (cs2 & x & H2). exists cs2, x. intros dr.
    unfold bind. now rewrite H1, H2.
  - exists cs1, (Throw e). intros dr. unfold bind. now rewrite H1.
Qed.

Lemma drawless_millerRabin_loop ctx oneReduced nSubReduced (count : nat) :
  forall x, drawless (millerRabin_loop ctx oneReduced nSubReduced count x).
Proof.
  induction count as [|count IH]; intros x; cbn [millerRabin_loop].
  - apply drawless_ret.
  - apply drawless_bind; [apply drawless_call|]. intros y.
    destruct (y =? oneReduced); [apply drawless_ret|].
    destruct (y =? nSubReduced); [apply drawless_ret|apply IH].
Qed.

Lemma drawless_compositeBy fuel findDivisor n ctx base x :
  drawless (compositeBy fuel findDivisor n ctx base x).
Proof.
  unfold compositeBy. destruct findDivisor; [|apply drawless_ret].
  apply drawless_bind; [apply drawless_call|]. intros xi.
  apply drawless_bind; [apply drawless_ofOption|]. intros g.
  apply drawless_ret.
Qed.

Lemma drawless_millerRabin_test fuel findDivisor n r d ctx oneReduced
    nSubReduced base :
  drawless
    (millerRabin_test fuel findDivisor n r d ctx oneReduced nSubReduced base).
Proof.
  unfold millerRabin_test.
  apply drawless_bind; [apply drawless_call|]. intros baseReduced.
  apply drawless_bind; [apply drawless_call|]. intros x.
  destruct ((x =? oneReduced) || (x =? nSubReduced)); [apply drawless_ret|].
  apply drawless_bind; [apply drawless_millerRabin_loop|].
  intros [x'| |x']; try apply drawless_ret;
    (apply drawless_bind; [apply drawless_compositeBy|]);
    intros v; apply drawless_ret.
Qed.

Lemma drawless_millerRabin_round fuel findDivisor n r d ctx oneReduced
    nSubReduced base :
  drawless
    (millerRabin_round fuel findDivisor n r d ctx oneReduced nSubReduced base).
Proof.
  unfold millerRabin_round.
  destruct findDivisor; [|apply drawless_millerRabin_test].
  apply drawless_bind; [apply drawless_ofOption|]. intros g.
  destruct (negb (g =? 1)); [apply drawless_ret|].
  apply drawless_millerRabin_test.
Qed.

Lemma drawless_millerRabin_rounds fuel findDivisor n nSub r d ctx oneReduced
    nSubReduced (l : list Z) (count : nat) :
  forall baseIndex,
    drawless
      (millerRabin_rounds fuel findDivisor n nSub r d ctx oneReduced
         nSubReduced (Some l) count baseIndex).
Proof.
  induction count as [|count IH]; intros baseIndex; cbn [millerRabin_rounds].
  - apply drawless_ret.
  - apply drawless_bind.
    { unfold nextBase. destruct (nth_error l baseIndex);
        [apply drawless_ret|apply drawless_throw]. }
    intros base. apply drawless_bind; [apply drawless_millerRabin_round|].
    intros [v|]; [apply drawless_ret|apply IH].
Qed.

Lemma randomBase_loop_filter (nSub : Z) (rnd : list Z) :
  forall b t,
    filter (inRange nSub) rnd = b :: t ->
    exists rnd',
      randomBase_loop rnd nSub = Some (b, rnd') /\
      filter (inRange nSub) rnd' = t.
Proof.
  induction rnd as [|a rnd IH]; intros b t; cbn [filter randomBase_loop];
    [discriminate|].
  unfold inRange at 1.
  destruct (negb (2 <=? a) || negb (a <? nSub)); cbn [negb].
  - apply IH.
  - intros [= <- <-]. now exists rnd.
Qed.

Lemma filter_inRange_valid (nSub : Z) (rnd : list Z) :
  Forall (fun b => 2 <= b < nSub) (filter (inRange nSub) rnd).
Proof.
  apply Forall_forall. intros b Hin. apply filter_In in Hin.
  destruct Hin as [_ H]. unfold inRange in H.
  destruct (Z.leb_spec 2 b); destruct (Z.ltb_spec b nSub);
    cbn [negb orb] in H; try discriminate; lia.
Qed.

Lemma Forall_firstn {A : Type} (P : A -> Prop) (k : nat) (l : list A) :
  Forall P l -> Forall P (firstn k l).
Proof.
  intros H. revert k. induction H as [|a l Ha _ IH]; intros [|k];
    cbn [firstn]; constructor; auto.
Qed.

(** The rounds on random draws and the rounds on the list of the draws in
    range log the same calls and end alike. *)
Lemma millerRabin_rounds_random fuel findDivisor n nSub r d ctx oneReduced
    nSubReduced (count : nat) :
  forall pre rnd rnd0 cs baseIndex,
    (count <= List.length (filter (inRange nSub) rnd))%nat ->
    exists rnd' cs' x,
      millerRabin_rounds fuel findDivisor n nSub r d ctx oneReduced
        nSubReduced None count baseIndex (mkWorld rnd cs)
      = (mkWorld rnd' cs', x) /\
      millerRabin_rounds fuel findDivisor n nSub r d ctx oneReduced
        nSubReduced
        (Some (pre ++ firstn count (filter (inRange nSub) rnd)))
        count (List.length pre) (mkWorld rnd0 cs)
      = (mkWorld rnd0 cs', x).
Proof.
  induction count as [|count IH]; intros pre rnd rnd0 cs baseIndex Hlen;
    cbn [millerRabin_rounds].
  - exists rnd, cs, (Ok (mkVerdict true None None)). split; reflexivity.
  - destruct (filter (inRange nSub) rnd) as [|b t] eqn:E;
      [cbn in Hlen; lia|].
    destruct (randomBase_loop_filter nSub rnd b t E) as (rnd1 & Hdraw & Ht).
    cbn [firstn]. unfold nextBase.
    rewrite nth_error_app2, Nat.sub_diag by lia. cbn [nth_error].
    destruct (drawless_millerRabin_round fuel findDivisor n r d ctx
                oneReduced nSubReduced b cs) as (cs1 & x1 & Hround).
    unfold bind at 1. unfold randomBase. cbn [draws calls]. rewrite Hdraw.
    unfold bind at 2. cbn [ret].
    unfold bind at 1. rewrite Hround.
    unfold bind at 1. rewrite Hround.
    destruct x1 as [[v|]|e].
    + exists rnd1, cs1, (Ok v). split; reflexivity.
    + destruct (IH (pre ++ [b]) rnd1 rnd0 cs1 baseIndex) as
        (rnd' & cs' & x & H1 & H2).
      { cbn [List.length] in Hlen. rewrite Ht. lia. }
      rewrite Ht, <- app_assoc, length_app in H2.
      cbn [app List.length] in H2. rewrite Nat.add_1_r in H2.
      exists rnd', cs', x. split; assumption.
    + exists rnd1, cs1, (Throw e). split; reflexivity.
Qed.

(** A run on odd [n >= 5], step by step. *)
Lemma run_odd (fuel : nat) (rnd : list Z) (n : Z) (options : Options) :
  5 <= n -> Z.odd n = true ->
  run fuel rnd n options =
  match twoMultiplicity fuel (n - 1) with
  | None => (mkWorld rnd [], Throw OutOfFuel)
  | Some r =>
      match getReductionContext n with
      | Throw e => (mkWorld rnd [Call_getReductionContext n], Throw e)
      | Ok ctx =>
          match validateBases (basesInEffect n options) (n - 1) with
          | Throw e => (afterContext rnd n, Throw e)
          | Ok validBases =>
              match
                millerRabin_rounds fuel (findDivisor options) n (n - 1) r
                  (Z.shiftr (n - 1) r) ctx (montgomeryReduce 1 ctx)
                  (montgomeryReduce (n - 1) ctx) validBases
                  (match validBases with
                   | Some l => List.length l
                   | None => roundsInEffect n options
                   end) 0 (afterContext rnd n)
              with
              | (w, Ok v) =>
                  (w, Ok (PrimalityResult.make n (v_probablePrime v)
                            (v_witness v) (v_divisor v)))
              | (w, Throw e) => (w, Throw e)
              end
          end
      end
  end.
Proof.
  intros Hn Hodd. unfold run.
  rewrite primalityTest_odd_unfold by assumption. cbv zeta.
  fold (basesInEffect n options). fold (roundsInEffect n options).
  unfold bind, call, ofOption, ofResult, afterContext.
  destruct (twoMultiplicity fuel (n - 1)) as [r|]; cbn [ret throw];
    [|reflexivity].
  cbn [draws calls app].
  destruct (getReductionContext n) as [ctx|e]; [|reflexivity].
  destruct (validateBases (basesInEffect n options) (n - 1)) as [vb|e];
    [|reflexivity].
  destruct (millerRabin_rounds _ _ _ _ _ _ _ _ _ _ _ _ _) as [w [v|e]];
    reflexivity.
Qed.

(** The run on random draws and the run on the explicit list of the draws
    it keeps. *)
Lemma run_random_explicit (fuel : nat) (rnd : list Z) (n : Z)
    (options : Options) :
  5 <= n -> Z.odd n = true ->
  basesInEffect n options = BasesUndefined ->
  (roundsInEffect n options
   <= List.length (filter (inRange (n - 1)) rnd))%nat ->
  validateBases
    (BasesArray (acceptedDraws n (roundsInEffect n options) rnd)) (n - 1)
  = Ok (Some (acceptedDraws n (roundsInEffect n options) rnd)) /\
  exists rnd' cs x,
    run fuel rnd n options = (mkWorld rnd' cs, x) /\
    run fuel rnd n
      (mkOptions (numRounds options)
         (BasesArray (acceptedDraws n (roundsInEffect n options) rnd))
         (findDivisor options) false)
    = (mkWorld rnd cs, x).
Proof.
  intros Hn Hodd Hbases Hlen.
  set (l := acceptedDraws n (roundsInEffect n options) rnd).
  assert (Hvalid : validateBases (BasesArray l) (n - 1) = Ok (Some l)).
  { cbn [validateBases]. rewrite validateBases_map_accepts; [reflexivity|].
    apply Forall_firstn, filter_inRange_valid. }
  assert (Hl : List.length l = roundsInEffect n options).
  { apply firstn_length_le. exact Hlen. }
  split; [exact Hvalid|].
  rewrite !run_odd by assumption. rewrite Hbases.
  unfold basesInEffect at 1.
  cbn [small_determinism_mode bases findDivisor andb].
  rewrite Hvalid. cbn [validateBases]. rewrite Hl.
  destruct (twoMultiplicity fuel (n - 1)) as [r|];
    [|eexists; eexists; eexists; split; reflexivity].
  destruct (getReductionContext n) as [ctx|e];
    [|eexists; eexists; eexists; split; reflexivity].
  destruct (millerRabin_rounds_random fuel (findDivisor options) n (n - 1) r
              (Z.shiftr (n - 1) r) ctx (montgomeryReduce 1 ctx)
              (montgomeryReduce (n - 1) ctx) (roundsInEffect n options)
              [] rnd rnd
              [Call_getReductionContext n; Call_montgomeryReduce 1;
               Call_montgomeryReduce (n - 1)] 0%nat Hlen)
    as (rnd' & cs' & x & H1 & H2).
  cbn [app List.length] in H2.
  fold (acceptedDraws n (roundsInEffect n options) rnd) in H2.
  fold l in H2. unfold afterContext. rewrite H1, H2.
  destruct x as [v|e]; eexists; eexists; eexists; split; reflexivity.
Qed.

(** X13: without bases, the bases tested are the draws in range.  For odd
    [n >= 5] with no [bases] in effect and a random source that holds at
    least as many draws within [[2, n-2]] as there are rounds, the run ends
    as the run on the explicit bases made of the first such draws does: same
    result or error, same calls; draws out of range are skipped, and the run
    on explicit bases draws nothing. *)
Theorem random_bases_are_accepted_draws (fuel : nat) (rnd : list Z) (n : Z)
    (options : Options) :
  5 <= n -> Z.odd n = true ->
  basesInEffect n options = BasesUndefined ->
  (roundsInEffect n options
   <= List.length (filter (inRange (n - 1)) rnd))%nat ->
  snd (run fuel rnd n options)
  = snd (run fuel rnd n
           (mkOptions (numRounds options)
              (BasesArray (acceptedDraws n (roundsInEffect n options) rnd))
              (findDivisor options) false)) /\
  calls (fst (run fuel rnd n options))
  = calls (fst (run fuel rnd n
                  (mkOptions (numRounds options)
                     (BasesArray
                        (acceptedDraws n (roundsInEffect n options) rnd))
                     (findDivisor options) false))) /\
  draws (fst (run fuel rnd n
                (mkOptions (numRounds options)
                   (BasesArray
                      (acceptedDraws n (roundsInEffect n options) rnd))
                   (findDivisor options) false))) = rnd.
Proof.
  intros Hn Hodd Hbases Hlen.
  destruct (run_random_explicit fuel rnd n options Hn Hodd Hbases Hlen)
    as (_ & rnd' & cs & x & H1 & H2).
  rewrite H1, H2. cbn [fst snd calls draws].
  split; [reflexivity|]. split; reflexivity.
Qed.

Lemma random_bases_are_accepted_draws_witness :
  snd (run 50 [1; 50; 600; 2; 3; 7; 0; 11; 13; 17] 561
         (mkOptions (Some 3) BasesUndefined true false))
  = snd (run 50 [1; 50; 600; 2; 3; 7; 0; 11; 13; 17] 561
           (mkOptions (Some 3) (BasesArray [50; 2; 3]) true false)).
Proof.
  apply (random_bases_are_accepted_draws 50
           [1; 50; 600; 2; 3; 7; 0; 11; 13; 17] 561
           (mkOptions (Some 3) BasesUndefined true false));
    [lia|reflexivity|reflexivity|vm_compute; lia].
Defined.

(** ** What a result can hold *)

Lemma odd_abs (n : Z) : Z.odd (Z.abs n) = Z.odd n.
Proof. destruct n; reflexivity. Qed.

Lemma compositeBy_outcome fuel findDivisor n ctx base x :
  returns (compositeBy fuel findDivisor n ctx base x)
    (fun v =>
       v_probablePrime v = false /\ v_witness v = Some base /\
       (findDivisor = false -> v_divisor v = None)).
Proof.
  unfold compositeBy. destruct findDivisor.
  - apply returns_bind with (phi := fun _ => True); [apply returns_true|].
    intros xi _.
    apply returns_bind with (phi := fun _ => True); [apply returns_true|].
    intros g _. apply returns_ret. cbn. repeat split. discriminate.
  - apply returns_ret. cbn. repeat split.
Qed.

Lemma millerRabin_round_outcome fuel findDivisor n r d ctx oneReduced
    nSubReduced base :
  returns
    (millerRabin_round fuel findDivisor n r d ctx oneReduced nSubReduced base)
    (fun v =>
       forall v', v = Some v' ->
         v_probablePrime v' = false /\ v_witness v' = Some base /\
         (findDivisor = false -> v_divisor v' = None)).
Proof.
  assert (Htest :
    returns
      (millerRabin_test fuel findDivisor n r d ctx oneReduced nSubReduced base)
      (fun v =>
         forall v', v = Some v' ->
           v_probablePrime v' = false /\ v_witness v' = Some base /\
           (findDivisor = false -> v_divisor v' = None))).
  { unfold millerRabin_test.
    apply returns_bind with (phi := fun _ => True); [apply returns_true|].
    intros baseReduced _.
    apply returns_bind with (phi := fun _ => True); [apply returns_true|].
    intros x _.
    destruct ((x =? oneReduced) || (x =? nSubReduced));
      [apply returns_ret; discriminate|].
    apply returns_bind with (phi := fun _ => True); [apply returns_true|].
    intros [x'| |x'] _; try (apply returns_ret; discriminate);
      (eapply returns_bind; [apply compositeBy_outcome|]);
      intros v Hv; apply returns_ret; now intros v' [= <-]. }
  unfold millerRabin_round. destruct findDivisor; [|exact Htest].
  apply returns_bind with (phi := fun _ => True); [apply returns_true|].
  intros g _. destruct (negb (g =? 1)); [|exact Htest].
  apply returns_ret. intros v' [= <-]. cbn. repeat split. discriminate.
Qed.

Lemma millerRabin_rounds_outcome fuel findDivisor n nSub r d ctx oneReduced
    nSubReduced (validBases : option (list Z)) (count : nat) :
  (forall l, validBases = Some l -> Forall (fun b => 2 <= b < nSub) l) ->
  forall baseIndex,
    returns
      (millerRabin_rounds fuel findDivisor n nSub r d ctx oneReduced
         nSubReduced validBases count baseIndex)
      (fun v =>
         v = mkVerdict true None None \/
         (v_probablePrime v = false /\
          (findDivisor = false -> v_divisor v = None) /\
          exists b, v_witness v = Some b /\ 2 <= b < nSub)).
Proof.
  intros Hvalid.
  induction count as [|count IH]; intros baseIndex; cbn [millerRabin_rounds].
  - apply returns_ret. now left.
  - apply returns_bind with (phi := fun b => 2 <= b < nSub);
      [now apply nextBase_range|].
    intros b Hb.
    eapply returns_bind; [apply millerRabin_round_outcome|].
    intros [v|] Hv; [|apply IH].
    apply returns_ret. right. destruct (Hv v eq_refl) as (Hpp & Hw & Hd).
    split; [assumption|]. split; [assumption|]. now exists b.
Qed.

Lemma primalityTest_body_outcome (fuel : nat) (sign m : Z)
    (options : Options) :
  returns (primalityTest_body fuel sign m options)
    (fun res =>
       PrimalityResult.n res = sign * m /\
       (forall b, PrimalityResult.witness res = Some b ->
          PrimalityResult.probablePrime res = false /\
          Z.odd m = true /\ 2 <= b <= m - 2) /\
       (PrimalityResult.probablePrime res = false ->
        Z.odd m = true -> 5 <= m ->
        exists b, PrimalityResult.witness res = Some b) /\
       (findDivisor options = false -> Z.odd m = true ->
        PrimalityResult.divisor res = None)).
Proof.
  unfold primalityTest_body.
  destruct (Z.ltb_spec m 2).
  { apply returns_ret. cbn. split; [reflexivity|].
    split; [discriminate|]. split; [lia|reflexivity]. }
  destruct (Z.ltb_spec m 4).
  { apply returns_ret. cbn. split; [reflexivity|].
    split; [discriminate|]. split; [discriminate|reflexivity]. }
  rewrite truthy_land_1. destruct (Z.odd m) eqn:Hodd; cbn [negb].
  2:{ apply returns_ret. cbn. split; [reflexivity|].
      split; [discriminate|]. split; discriminate. }
  cbv zeta.
  apply returns_bind with (phi := fun _ => True); [apply returns_true|].
  intros r _.
  apply returns_bind with (phi := fun _ => True); [apply returns_true|].
  intros ctx _.
  apply returns_bind with (phi := fun _ => True); [apply returns_true|].
  intros oneReduced _.
  apply returns_bind with (phi := fun _ => True); [apply returns_true|].
  intros nSubReduced _.
  eapply returns_bind.
  { apply returns_ofResult. intros validBases Hv.
    exact (validateBases_range _ _ _ Hv). }
  intros validBases Hvalid.
  eapply returns_bind; [now apply millerRabin_rounds_outcome|].
  intros v Hv. apply returns_ret. cbn. split; [reflexivity|].
  destruct Hv as [->|(Hpp & Hd & b & Hw & Hb)]; cbn.
  - split; [discriminate|]. split; [discriminate|reflexivity].
  - split.
    + intros b' Hb'. rewrite Hw in Hb'. injection Hb' as <-.
      split; [assumption|]. split; [reflexivity|lia].
    + split; [intros; now exists b|]. intros Hfd _. now apply Hd.
Qed.

(** X14: what a result can hold.  Whatever the options, draws and budget, a
    resolved run returns the signed input as [n]; a witness is reported only
    with [probablePrime: false], only for odd [n], and lies in
    [[2, |n| - 2]]; a composite verdict on odd [|n| >= 5] always names a
    witness; and with [findDivisor: false] no divisor is reported for odd
    [n]. *)
Theorem result_invariants (fuel : nat) (rnd : list Z) (n : Z)
    (options : Options) (w : world) (res : PrimalityResult.t) :
  run fuel rnd n options = (w, Ok res) ->
  PrimalityResult.n res = n /\
  (forall b, PrimalityResult.witness res = Some b ->
     PrimalityResult.probablePrime res = false /\
     Z.odd n = true /\ 2 <= b <= Z.abs n - 2) /\
  (PrimalityResult.probablePrime res = false ->
   Z.odd n = true -> 5 <= Z.abs n ->
   exists b, PrimalityResult.witness res = Some b) /\
  (findDivisor options = false -> Z.odd n = true ->
   PrimalityResult.divisor res = None).
Proof.
  intros Hrun. unfold run in Hrun.
  destruct (primalityTest_abs fuel n options) as (sign & Hsign & E).
  rewrite E in Hrun.
  pose proof (returns_run _ _ _ _ _
                (primalityTest_body_outcome fuel sign _ options) Hrun) as H.
  cbv beta in H. now rewrite Hsign, odd_abs in H.
Qed.

Lemma result_invariants_witness :
  exists w res,
    run 50 [] (-561) (mkOptions None (BasesArray [50; 2; 3]) false false)
    = (w, Ok res) /\
    PrimalityResult.n res = -561 /\
    PrimalityResult.witness res = Some 2 /\
    PrimalityResult.divisor res = None.
Proof.
  eexists. eexists. split; [vm_compute; reflexivity|].
  destruct (result_invariants 50 [] (-561)
              (mkOptions None (BasesArray [50; 2; 3]) false false) _ _
              ltac:(vm_compute; reflexivity)) as (Hn & _ & _ & Hd).
  split; [exact Hn|]. split; [reflexivity|]. apply Hd; reflexivity.
Defined.

(** ** Small-determinism mode *)

(** X15: in small-determinism mode the caller's [bases] and [numRounds] and
    the random source are ignored.  For odd [n] with
    [5 <= n < 341550071728321] the run is the run on the explicit bases of
    the table, whatever [bases] (even one that is not an array or holds
    invalid bases) and [numRounds] are; it draws nothing and its outcome does
    not depend on the random source. *)
Theorem small_determinism_overrides (fuel : nat) (rnd rnd' : list Z) (n : Z)
    (options : Options) :
  5 <= n < 341550071728321 -> Z.odd n = true ->
  small_determinism_mode options = true ->
  run fuel rnd n options
  = run fuel rnd n
      (mkOptions None (BasesArray (smallDeterminismBases n))
         (findDivisor options) false) /\
  draws (fst (run fuel rnd n options)) = rnd /\
  snd (run fuel rnd n options) = snd (run fuel rnd' n options).
Proof.
  intros Hn Hodd Hmode.
  assert (Hbases : basesInEffect n options
                   = BasesArray (smallDeterminismBases n)).
  { unfold basesInEffect. rewrite Hmode.
    destruct (Z.ltb_spec n 341550071728321); [reflexivity|lia]. }
  rewrite !run_odd by (try assumption; lia). rewrite Hbases.
  unfold basesInEffect at 1. cbn [small_determinism_mode bases findDivisor andb].
  cbn [validateBases]. rewrite smallDeterminismBases_valid by lia.
  split; [reflexivity|].
  destruct (twoMultiplicity fuel (n - 1)) as [r|]; [|auto].
  destruct (getReductionContext n) as [ctx|e]; [|auto].
  destruct (drawless_millerRabin_rounds fuel (findDivisor options) n (n - 1)
              r (Z.shiftr (n - 1) r) ctx (montgomeryReduce 1 ctx)
              (montgomeryReduce (n - 1) ctx) (smallDeterminismBases n)
              (List.length (smallDeterminismBases n)) 0%nat
              [Call_getReductionContext n; Call_montgomeryReduce 1;
               Call_montgomeryReduce (n - 1)]) as (cs' & x & Hrounds).
  unfold afterContext. rewrite !Hrounds. destruct x as [v|e]; auto.
Qed.

Lemma small_determinism_overrides_witness :
  run 50 [4; 5] 561 (mkOptions (Some 9) BasesNotArray true true)
  = run 50 [4; 5] 561 (mkOptions None (BasesArray [2]) true false).
Proof.
  apply (small_determinism_overrides 50 [4; 5] [] 561
           (mkOptions (Some 9) BasesNotArray true true));
    [lia|reflexivity|reflexivity].
Defined.

(** ** Rejections *)

Lemma failsOnlyOutOfFuel_ret {A : Type} (a : A) : failsOnlyOutOfFuel (ret a).
Proof. intros w w' e. discriminate. Qed.

Lemma failsOnlyOutOfFuel_ofOption {A : Type} (x : option A) :
  failsOnlyOutOfFuel (ofOption x).
Proof.
  intros w w' e. unfold ofOption, ret, throw.
  destruct x; [discriminate|]. now intros [= _ <-].
Qed.

Lemma failsOnlyOutOfFuel_call {A : Type} (c : montgomeryCall) (a : A) :
  failsOnlyOutOfFuel (call c (Ok a)).
Proof. intros w w' e. discriminate. Qed.

Lemma failsOnlyOutOfFuel_bind {A B : Type} (m : M A) (k : A -> M B) :
  failsOnlyOutOfFuel m -> (forall a, failsOnlyOutOfFuel (k a)) ->
  failsOnlyOutOfFuel (x <- m ;; k x).
Proof.
  intros Hm Hk w w' e. unfold bind.
  destruct (m w) as [w1 [a|e1]] eqn:E.
  - apply Hk.
  - intros [= <- <-]. exact (Hm _ _ _ E).
Qed.

Lemma failsOnlyOutOfFuel_randomBase (nSub : Z) :
  failsOnlyOutOfFuel (randomBase nSub).
Proof.
  intros w w' e. unfold randomBase.
  destruct (randomBase_loop (draws w) nSub) as [[b l]|];
    [discriminate|congruence].
Qed.

Lemma failsOnlyOutOfFuel_millerRabin_round fuel findDivisor n r d ctx
    oneReduced nSubReduced base :
  failsOnlyOutOfFuel
    (millerRabin_round fuel findDivisor n r d ctx oneReduced nSubReduced base).
Proof.
  assert (Hcomposite : forall x,
    failsOnlyOutOfFuel (compositeBy fuel findDivisor n ctx base x)).
  { intros x. unfold compositeBy.
    destruct findDivisor; [|apply failsOnlyOutOfFuel_ret].
    apply failsOnlyOutOfFuel_bind; [apply failsOnlyOutOfFuel_call|].
    intros xi.
    apply failsOnlyOutOfFuel_bind; [apply failsOnlyOutOfFuel_ofOption|].
    intros g. apply failsOnlyOutOfFuel_ret. }
  assert (Hloop : forall count x,
    failsOnlyOutOfFuel
      (millerRabin_loop ctx oneReduced nSubReduced count x)).
  { induction count as [|count IH]; intros x; cbn [millerRabin_loop].
    - apply failsOnlyOutOfFuel_ret.
    - apply failsOnlyOutOfFuel_bind; [apply failsOnlyOutOfFuel_call|].
      intros y. destruct (y =? oneReduced); [apply failsOnlyOutOfFuel_ret|].
      destruct (y =? nSubReduced); [apply failsOnlyOutOfFuel_ret|apply IH]. }
  assert (Htest :
    failsOnlyOutOfFuel
      (millerRabin_test fuel findDivisor n r d ctx oneReduced nSubReduced
         base)).
  { unfold millerRabin_test.
    apply failsOnlyOutOfFuel_bind; [apply failsOnlyOutOfFuel_call|].
    intros baseReduced.
    apply failsOnlyOutOfFuel_bind; [apply failsOnlyOutOfFuel_call|].
    intros x.
    destruct ((x =? oneReduced) || (x =? nSubReduced));
      [apply failsOnlyOutOfFuel_ret|].
    apply failsOnlyOutOfFuel_bind; [apply Hloop|].
    intros [x'| |x']; try apply failsOnlyOutOfFuel_ret;
      (apply failsOnlyOutOfFuel_bind; [apply Hcomposite|]);
      intros v; apply failsOnlyOutOfFuel_ret. }
  unfold millerRabin_round. destruct findDivisor; [|exact Htest].
  apply failsOnlyOutOfFuel_bind; [apply failsOnlyOutOfFuel_ofOption|].
  intros g. destruct (negb (g =? 1)); [apply failsOnlyOutOfFuel_ret|].
  exact Htest.
Qed.

(** The rounds never index past the end of the bases. *)
Lemma failsOnlyOutOfFuel_millerRabin_rounds fuel findDivisor n nSub r d ctx
    oneReduced nSubReduced (validBases : option (list Z)) (count : nat) :
  forall baseIndex,
    (forall l, validBases = Some l ->
       (baseIndex + count <= List.length l)%nat) ->
    failsOnlyOutOfFuel
      (millerRabin_rounds fuel findDivisor n nSub r d ctx oneReduced
         nSubReduced validBases count baseIndex).
Proof.
  induction count as [|count IH]; intros baseIndex Hlen;
    cbn [millerRabin_rounds].
  - apply failsOnlyOutOfFuel_ret.
  - apply failsOnlyOutOfFuel_bind.
    { unfold nextBase. destruct validBases as [l|];
        [|apply failsOnlyOutOfFuel_randomBase].
      specialize (Hlen l eq_refl).
      destruct (nth_error l baseIndex) eqn:E; [apply failsOnlyOutOfFuel_ret|].
      apply nth_error_None in E. lia. }
    intros base.
    apply failsOnlyOutOfFuel_bind;
      [apply failsOnlyOutOfFuel_millerRabin_round|].
    intros [v|]; [apply failsOnlyOutOfFuel_ret|]. apply IH.
    intros l ->. specialize (Hlen l eq_refl). lia.
Qed.

Lemma validateBases_error (bases : basesOption) (nSub : Z) (e : exn) :
  validateBases bases nSub = Throw e ->
  e = TypeError \/ exists b, e = RangeError b.
Proof.
  destruct bases as [|l|]; cbn [validateBases]; [discriminate| |left; congruence].
  assert (H : forall e, validateBases_map l nSub = Throw e ->
                        exists b, e = RangeError b).
  { induction l as [|b l IH]; cbn [validateBases_map]; [discriminate|].
    intros e'. destruct (negb (2 <=? b) || negb (b <? nSub)).
    - intros [= <-]. now exists b.
    - destruct (validateBases_map l nSub) as [l'|e''];
        [discriminate|]. intros [= <-]. now apply IH. }
  destruct (validateBases_map l nSub) as [l'|e'] eqn:E; [discriminate|].
  intros [= <-]. right. now apply H.
Qed.

Lemma run_abs (fuel : nat) (rnd : list Z) (n : Z) (options : Options) :
  sameVerdict (run fuel rnd n options) (run fuel rnd (Z.abs n) options).
Proof.
  unfold run.
  destruct (primalityTest_abs fuel n options) as (s1 & _ & E1).
  destruct (primalityTest_abs fuel (Z.abs n) options) as (s2 & _ & E2).
  rewrite Z.abs_idemp in E2. rewrite E1, E2.
  apply primalityTest_body_sign.
Qed.

Lemma run_special_resolves (fuel : nat) (rnd : list Z) (n : Z)
    (options : Options) :
  0 <= n -> n < 5 \/ Z.odd n = false ->
  exists w res,
    run fuel rnd n options = (w, Ok res) /\
    PrimalityResult.probablePrime res = (2 <=? n) && (n <? 4).
Proof.
  intros H0 H. unfold run, primalityTest, primalityTest_body.
  destruct (Z.ltb_spec n 0); [lia|]. change (1 =? -1) with false. cbv iota.
  destruct (Z.ltb_spec n 2).
  { eexists; eexists; split; [reflexivity|].
    destruct (Z.leb_spec 2 n); [lia|reflexivity]. }
  destruct (Z.ltb_spec n 4).
  { eexists; eexists; split; [reflexivity|].
    destruct (Z.leb_spec 2 n); [reflexivity|lia]. }
  rewrite truthy_land_1.
  assert (Hodd : Z.odd n = false).
  { destruct H as [H|H]; [|assumption].
    assert (n = 4) as -> by lia. reflexivity. }
  rewrite Hodd. eexists; eexists; split; [reflexivity|].
  now rewrite andb_false_r.
Qed.

(** X16: on integer inputs the promise is rejected by the range and array
    checks of [validateBases] only.  Here [n] is an integer, [numRounds] is
    absent or an integer and [bases] is absent, not an array, or an array of
    integers, so that the conversions [BigInt(n)] (line 321) and [BigInt(b)]
    (line 277) cannot throw; inputs on which they throw are not covered.
    Then a run that throws a JavaScript error (anything but the model
    running out of budget or draws) is a run on odd [|n| >= 5] whose bases
    in effect [validateBases] rejects with that very error, a [TypeError] or
    a [RangeError]; it is thrown once the context is built and 1 and [n - 1]
    are reduced, before any round.  Conversely such bases always reject the
    promise that way. *)
Theorem rejected_only_by_validateBases (fuel : nat) (rnd : list Z) (n : Z)
    (options : Options) :
  (forall w e,
     run fuel rnd n options = (w, Throw e) -> e <> OutOfFuel ->
     Z.odd n = true /\ 5 <= Z.abs n /\
     w = afterContext rnd (Z.abs n) /\
     validateBases (basesInEffect (Z.abs n) options) (Z.abs n - 1) = Throw e /\
     (e = TypeError \/ exists b, e = RangeError b)) /\
  (forall e,
     Z.odd n = true -> 5 <= Z.abs n -> Z.log2 (Z.abs n) < Z.of_nat fuel ->
     validateBases (basesInEffect (Z.abs n) options) (Z.abs n - 1) = Throw e ->
     run fuel rnd n options = (afterContext rnd (Z.abs n), Throw e)).
Proof.
  pose proof (run_abs fuel rnd n options) as Habs.
  pose proof (Z.abs_nonneg n) as H0. rewrite <- (odd_abs n).
  set (m := Z.abs n) in *. split.
  - intros w e Hrun Hne. rewrite Hrun in Habs.
    destruct (run fuel rnd m options) as [w2 [r2|e2]] eqn:Hm;
      [contradiction|]. destruct Habs as [<- <-].
    destruct (Z.odd m) eqn:Hodd.
    2:{ destruct (run_special_resolves fuel rnd m options H0 (or_intror Hodd))
          as (w' & res & E & _). congruence. }
    destruct (Z.lt_ge_cases m 5) as [Hlt|Hge].
    { destruct (run_special_resolves fuel rnd m options H0 (or_introl Hlt))
        as (w' & res & E & _). congruence. }
    rewrite run_odd in Hm by assumption.
    destruct (twoMultiplicity fuel (m - 1)) as [r|];
      [|injection Hm as _ <-; contradiction].
    destruct (getReductionContext_odd m Hodd) as (ctx & Hctx & _).
    rewrite Hctx in Hm.
    destruct (validateBases (basesInEffect m options) (m - 1))
      as [vb|e'] eqn:Hv.
    + exfalso. apply Hne.
      destruct (millerRabin_rounds fuel (findDivisor options) m (m - 1) r
                  (Z.shiftr (m - 1) r) ctx (montgomeryReduce 1 ctx)
                  (montgomeryReduce (m - 1) ctx) vb
                  match vb with
                  | Some l => Datatypes.length l
                  | None => roundsInEffect m options
                  end 0 (afterContext rnd m)) as [w3 [v|e3]] eqn:Hrounds;
        [discriminate|].
      injection Hm as _ <-.
      apply (failsOnlyOutOfFuel_millerRabin_rounds _ _ _ _ _ _ _ _ _ _ _ _)
        in Hrounds; [assumption|].
      intros l ->. cbn. lia.
    + injection Hm as <- <-. split; [reflexivity|]. split; [assumption|].
      split; [reflexivity|]. split; [reflexivity|].
      exact (validateBases_error _ _ _ Hv).
  - intros e Hodd Hge Hfuel Hv.
    rewrite (run_rejected fuel rnd m options e Hge Hodd Hfuel Hv) in Habs.
    destruct (run fuel rnd n options) as [w1 [r1|e1]]; [contradiction|].
    destruct Habs as [-> ->]. reflexivity.
Qed.

Lemma rejected_only_by_validateBases_witness :
  run 50 [7] (-561) (mkOptions None BasesNotArray true false)
  = (afterContext [7] 561, Throw TypeError).
Proof.
  destruct (rejected_only_by_validateBases 50 [7] (-561)
              (mkOptions None BasesNotArray true false)) as [_ H].
  apply (H TypeError); [reflexivity|simpl; lia|vm_compute; reflexivity
                       |reflexivity].
Defined.

(** ** getRandomBitString *)

Lemma substring_0_length (k : nat) (s : string) :
  String.length (String.substring 0 k s) = Nat.min k (String.length s).
Proof.
  revert s. induction k as [|k IH]; intros [|c s]; cbn; try reflexivity.
  now rewrite IH.
Qed.

Lemma suppliedDigits_app (l1 l2 : list string) :
  suppliedDigits (l1 ++ l2) = (suppliedDigits l1 ++ suppliedDigits l2)%string.
Proof.
  induction l1 as [|s l1 IH]; cbn [suppliedDigits app]; [reflexivity|].
  rewrite IH. clear IH. induction (js_substring s 2 50) as [|c t IHt];
    cbn; [reflexivity|]. now rewrite IHt.
Qed.

Lemma string_app_assoc (a b c : string) :
  ((a ++ b) ++ c = a ++ (b ++ c))%string.
Proof. induction a as [|x a IH]; cbn; [reflexivity|now rewrite IH]. Qed.

Lemma string_app_empty_r (a : string) : (a ++ "")%string = a.
Proof. induction a as [|x a IH]; cbn; [reflexivity|now rewrite IH]. Qed.

Lemma getRandomBitString_loop_spec (numBits : nat) (randoms : list string) :
  forall bits bits' rest,
    getRandomBitString_loop randoms bits numBits = Some (bits', rest) ->
    (numBits <= String.length bits')%nat /\
    exists used,
      randoms = used ++ rest /\
      bits' = (bits ++ suppliedDigits used)%string.
Proof.
  induction randoms as [|s randoms IH]; intros bits bits' rest;
    cbn [getRandomBitString_loop];
    destruct (Nat.ltb_spec (String.length bits) numBits) as [Hlt|Hge];
    try discriminate.
  - intros [= <- <-]. split; [assumption|]. exists [].
    split; [reflexivity|]. cbn. now rewrite string_app_empty_r.
  - intros H. apply IH in H. destruct H as (Hlen & used & -> & ->).
    split; [assumption|]. exists (s :: used). split; [reflexivity|].
    cbn [suppliedDigits]. now rewrite string_app_assoc.
  - intros [= <- <-]. split; [assumption|]. exists [].
    split; [reflexivity|]. cbn. now rewrite string_app_empty_r.
Qed.

Lemma getRandomBitString_loop_total (numBits : nat) (randoms : list string) :
  forall bits,
    (numBits <= String.length (bits ++ suppliedDigits randoms))%nat ->
    exists bits' rest,
      getRandomBitString_loop randoms bits numBits = Some (bits', rest).
Proof.
  induction randoms as [|s randoms IH]; intros bits Hlen;
    cbn [getRandomBitString_loop];
    destruct (Nat.ltb_spec (String.length bits) numBits) as [Hlt|Hge];
    try (eexists; eexists; reflexivity).
  - cbn [suppliedDigits] in Hlen. rewrite string_app_empty_r in Hlen. lia.
  - apply IH. cbn [suppliedDigits] in Hlen.
    now rewrite string_app_assoc.
Qed.

Lemma binaryString_app (a b : string) :
  binaryString (a ++ b) <-> binaryString a /\ binaryString b.
Proof.
  induction a as [|c a IH]; cbn [binaryString append]; [tauto|].
  rewrite IH. tauto.
Qed.

Lemma binaryString_substring_0 (k : nat) (s : string) :
  binaryString s -> binaryString (String.substring 0 k s).
Proof.
  revert s. induction k as [|k IH]; intros [|c s]; cbn; try tauto.
  intros [Hc Hs]. split; [assumption|now apply IH].
Qed.

Lemma parseBinaryDigits_range (s : string) :
  binaryString s ->
  forall acc,
    exists v,
      parseBinaryDigits s acc = Some v /\
      acc * 2 ^ Z.of_nat (String.length s) <= v
      < (acc + 1) * 2 ^ Z.of_nat (String.length s).
Proof.
  induction s as [|c s IH]; intros Hs acc; cbn [parseBinaryDigits].
  - exists acc. split; [reflexivity|]. cbn. lia.
  - destruct Hs as [Hc Hs]. cbn [String.length].
    rewrite Nat2Z.inj_succ, Z.pow_succ_r by lia.
    destruct Hc as [-> | ->]; cbn [Ascii.eqb Bool.eqb].
    + destruct (IH Hs (2 * acc)) as (v & -> & Hv). exists v.
      split; [reflexivity|]. nia.
    + destruct (IH Hs (2 * acc + 1)) as (v & -> & Hv). exists v.
      split; [reflexivity|]. nia.
Qed.

(** X17: [getRandomBitString] returns exactly [numBits] characters, taken in
    order from the digits of the random numbers it consumed; it returns as
    soon as the supply holds [numBits] digits; and when these are binary
    digits, [BigInt("0b" + bits)] is a value below [2 ^ numBits]. *)
Theorem getRandomBitString_length (randoms : list string) (numBits : nat) :
  (forall bits rest,
     getRandomBitString randoms numBits = Some (bits, rest) ->
     String.length bits = numBits /\
     exists used,
       randoms = used ++ rest /\
       bits = js_substring (suppliedDigits used) 0 numBits) /\
  ((numBits <= String.length (suppliedDigits randoms))%nat ->
   exists bits rest,
     getRandomBitString randoms numBits = Some (bits, rest) /\
     (binaryString (suppliedDigits randoms) -> (0 < numBits)%nat ->
      exists v, BigInt_0b bits = Some v /\ 0 <= v < 2 ^ Z.of_nat numBits)).
Proof.
  assert (Hpart : forall bits rest,
    getRandomBitString randoms numBits = Some (bits, rest) ->
    String.length bits = numBits /\
    exists used,
      randoms = used ++ rest /\
      bits = js_substring (suppliedDigits used) 0 numBits).
  { intros bits rest. unfold getRandomBitString.
    destruct (getRandomBitString_loop randoms "" numBits) as [[b r]|] eqn:E;
      [|discriminate].
    intros [= <- <-]. apply getRandomBitString_loop_spec in E.
    destruct E as (Hlen & used & -> & ->). cbn [append] in *.
    unfold js_substring. rewrite Nat.sub_0_r. split.
    - rewrite substring_0_length. lia.
    - now exists used. }
  split; [exact Hpart|]. intros Hlen.
  destruct (getRandomBitString_loop_total numBits randoms "" Hlen)
    as (b & r & E).
  assert (Hrun : getRandomBitString randoms numBits
                 = Some (js_substring b 0 numBits, r)).
  { unfold getRandomBitString. now rewrite E. }
  exists (js_substring b 0 numBits), r. split; [exact Hrun|].
  intros Hbin Hpos.
  destruct (Hpart _ _ Hrun) as (Hl & used & Hused & Hbits).
  assert (Hb : binaryString (js_substring b 0 numBits)).
  { rewrite Hbits. unfold js_substring. rewrite Nat.sub_0_r.
    apply binaryString_substring_0.
    rewrite Hused, suppliedDigits_app in Hbin.
    now apply binaryString_app in Hbin. }
  destruct (parseBinaryDigits_range _ Hb 0) as (v & Hv & Hrange).
  rewrite Hl in Hrange. exists v. split; [|lia].
  unfold BigInt_0b. destruct (js_substring b 0 numBits) eqn:Es; [|exact Hv].
  cbn in Hl. lia.
Qed.

Lemma getRandomBitString_length_witness :
  exists bits rest,
    getRandomBitString ["0.1011"; "0.0111"; "0.1"]%string 6
    = Some (bits, rest) /\
    exists v, BigInt_0b bits = Some v /\ 0 <= v < 2 ^ Z.of_nat 6.
Proof.
  destruct (getRandomBitString_length ["0.1011"; "0.0111"; "0.1"]%string 6)
    as [_ H].
  destruct (H ltac:(vm_compute; lia)) as (bits & rest & Hrun & Hv).
  exists bits, rest. split; [exact Hrun|].
  apply Hv; [|lia]. vm_compute. tauto.
Defined.

(** ** Bases after the first witness *)

Lemma run_on_bases (fuel : nat) (rnd : list Z) (n : Z) (options : Options)
    (w : world) (res : PrimalityResult.t) (l : list Z) :
  5 <= n -> Z.odd n = true ->
  validateBases (basesInEffect n options) (n - 1) = Ok (Some l) ->
  run fuel rnd n options = (w, Ok res) ->
  exists r ctx v,
    twoMultiplicity fuel (n - 1) = Some r /\
    getReductionContext n = Ok ctx /\
    millerRabin_rounds fuel (findDivisor options) n (n - 1) r
      (Z.shiftr (n - 1) r) ctx (montgomeryReduce 1 ctx)
      (montgomeryReduce (n - 1) ctx) (Some l) (List.length l) 0
      (afterContext rnd n) = (w, Ok v) /\
    res = PrimalityResult.make n (v_probablePrime v) (v_witness v)
            (v_divisor v).
Proof.
  intros Hn Hodd Hv Hrun. rewrite run_odd in Hrun by assumption.
  destruct (twoMultiplicity fuel (n - 1)) as [r|]; [|discriminate].
  destruct (getReductionContext n) as [ctx|e]; [|discriminate].
  rewrite Hv in Hrun.
  destruct (millerRabin_rounds _ _ _ _ _ _ _ _ _ _ _ _ _) as [w' [v|e]] eqn:E;
    [|discriminate].
  injection Hrun as <- <-. exists r, ctx, v. auto.
Qed.

(** X18: bases after the first witness are validated but never tested.  If
    the run on the bases [l1] finds [n] composite, the run on [l1 ++ l2]
    ends in the same world (same calls, same draws left) with the same
    result, whatever the valid bases [l2] are. *)
Theorem later_bases_not_tested (fuel : nat) (rnd : list Z) (n : Z)
    (l1 l2 : list Z) (rounds : option Z) (divisors : bool) (w : world)
    (res : PrimalityResult.t) :
  5 <= n -> Z.odd n = true ->
  Forall (validBase n) l2 ->
  run fuel rnd n (mkOptions rounds (BasesArray l1) divisors false)
  = (w, Ok res) ->
  PrimalityResult.probablePrime res = false ->
  run fuel rnd n (mkOptions rounds (BasesArray (l1 ++ l2)) divisors false)
  = (w, Ok res).
Proof.
  intros Hn Hodd Hl2 Hrun Hpp.
  assert (Hv1 : validateBases (BasesArray l1) (n - 1) = Ok (Some l1)).
  { rewrite run_odd in Hrun by assumption.
    destruct (twoMultiplicity fuel (n - 1)); [|discriminate].
    destruct (getReductionContext n); [|discriminate].
    unfold basesInEffect in Hrun.
    cbn [small_determinism_mode bases andb] in Hrun.
    destruct (validateBases (BasesArray l1) (n - 1)) as [[l|]|e] eqn:E;
      try discriminate.
    - cbn [validateBases] in E.
      destruct (validateBases_map l1 (n - 1)) as [l'|] eqn:Em;
        [|discriminate].
      apply validateBases_map_range in Em. destruct Em as [-> _].
      now injection E as <-.
    - cbn [validateBases] in E.
      destruct (validateBases_map l1 (n - 1)); discriminate. }
  destruct (run_on_bases fuel rnd n
              (mkOptions rounds (BasesArray l1) divisors false) w res l1 Hn
              Hodd Hv1 Hrun)
    as (r & ctx & v & Htwo & Hctx & Hrounds & ->).
  cbn [findDivisor PrimalityResult.probablePrime] in *.
  rewrite run_odd by assumption. rewrite Htwo, Hctx.
  unfold basesInEffect. cbn [small_determinism_mode bases andb findDivisor].
  assert (Hv : validateBases (BasesArray (l1 ++ l2)) (n - 1)
               = Ok (Some (l1 ++ l2))).
  { cbn [validateBases]. rewrite validateBases_map_accepts; [reflexivity|].
    apply Forall_app. split.
    - exact (validateBases_range _ _ _ Hv1 l1 eq_refl).
    - eapply Forall_impl; [|exact Hl2]. unfold validBase. intros; lia. }
  rewrite Hv, length_app.
  rewrite (millerRabin_rounds_prefix fuel divisors n (n - 1) r
             (Z.shiftr (n - 1) r) ctx (montgomeryReduce 1 ctx)
             (montgomeryReduce (n - 1) ctx) l1 l2 (List.length l1) 0%nat
             (afterContext rnd n) w v eq_refl Hrounds Hpp).
  reflexivity.
Qed.

Lemma later_bases_not_tested_witness :
  exists w res,
    run 50 [] 561 (mkOptions None (BasesArray [50; 2; 3; 5; 7]) true false)
    = (w, Ok res) /\
    PrimalityResult.witness res = Some 2.
Proof.
  eexists. eexists. split; [|shelve].
  apply (later_bases_not_tested 50 [] 561 [50; 2] [3; 5; 7] None true);
    [lia|reflexivity|repeat constructor; unfold validBase; lia
    |vm_compute; reflexivity|reflexivity].
  Unshelve. reflexivity.
Defined.

(** ** What a passing verdict certifies *)

Lemma sqr_minus_one_mod (n X : Z) :
  2 < n -> X mod n = n - 1 -> X ^ 2 mod n = 1.
Proof.
  intros Hn H. rewrite <- Z.mod_pow_l, H.
  symmetry. apply (Z.mod_unique ((n - 1) ^ 2) n (n - 2) 1); [lia|].
  rewrite Z.pow_2_r. ring.
Qed.

Lemma passesRound_fermat (n r d b : Z) :
  3 <= n -> Z.odd n = true -> 0 <= r -> Z.odd d = true -> 0 < d ->
  n - 1 = d * 2 ^ r ->
  passesRound n r d b -> b ^ (n - 1) mod n = 1.
Proof.
  intros Hn Hodd Hr Hd Hdpos Hdec Hpass. rewrite Hdec.
  destruct Hpass as [H|(i & Hi & H)].
  - rewrite Z.pow_mul_r by (try apply Z.pow_nonneg; lia).
    apply pow_mod_one; [lia|apply Z.pow_nonneg; lia|assumption].
  - destruct (Z.eq_dec i r) as [->|Hne].
    { exfalso. now apply (minus_one_not_at_top n b r d). }
    assert (H2i : 0 < 2 ^ i) by (apply Z.pow_pos_nonneg; lia).
    replace (d * 2 ^ r) with (d * 2 ^ i * 2 * 2 ^ (r - i - 1)).
    + rewrite (Z.pow_mul_r b (d * 2 ^ i * 2))
        by (try apply Z.pow_nonneg; nia).
      rewrite (Z.pow_mul_r b (d * 2 ^ i)) by nia.
      apply pow_mod_one; [lia|apply Z.pow_nonneg; lia|].
      apply sqr_minus_one_mod; [lia|assumption].
    + replace r with (i + 1 + (r - i - 1)) at 2 by lia.
      rewrite !Z.pow_add_r, Z.pow_1_r by lia. ring.
Qed.

(** X19: what [probablePrime: true] certifies.  When a run on odd [n >= 5]
    with validated bases [l] resolves with [probablePrime: true], every base
    of [l] is coprime to [n] and satisfies Fermat's congruence
    [b ^ (n - 1) = 1] modulo [n]. *)
Theorem probablePrime_certifies_fermat (fuel : nat) (rnd : list Z) (n : Z)
    (options : Options) (l : list Z) (w : world) (res : PrimalityResult.t) :
  5 <= n -> Z.odd n = true ->
  validateBases (basesInEffect n options) (n - 1) = Ok (Some l) ->
  run fuel rnd n options = (w, Ok res) ->
  PrimalityResult.probablePrime res = true ->
  Forall (fun b => Z.gcd n b = 1 /\ b ^ (n - 1) mod n = 1) l.
Proof.
  intros Hn Hodd Hv Hrun Hpp.
  destruct (run_on_bases fuel rnd n options w res l Hn Hodd Hv Hrun)
    as (r & ctx & v & Htwo & Hctx & Hrounds & ->).
  cbn [PrimalityResult.probablePrime] in Hpp.
  destruct (twoMultiplicity_sound fuel (n - 1) r Htwo) as (Hr & Hdec & Hd).
  specialize (Hd ltac:(lia)).
  assert (H2r : 0 < 2 ^ r) by (apply Z.pow_pos_nonneg; lia).
  assert (Hdpos : 0 < Z.shiftr (n - 1) r) by nia.
  destruct (getReductionContext_wellFormed n ctx ltac:(lia) Hodd Hctx)
    as [Hbase Hwf].
  pose proof (validateBases_range _ _ _ Hv l eq_refl) as Hvalid.
  assert (Hspec :
    firstFailure (passesRound n r (Z.shiftr (n - 1) r)) l
      (v_probablePrime v) (v_witness v)).
  { refine (returns_run _ _ _ _ _
              (millerRabin_rounds_spec fuel n r (Z.shiftr (n - 1) r) ctx Hn
                 Hwf Hbase Hr Hdpos (findDivisor options) (n - 1) l [] _)
              Hrounds).
    eapply Forall_impl; [|exact Hvalid]. cbv beta. intros; lia. }
  destruct Hspec as [(_ & _ & Hall)|(Hfalse & _)]; [|congruence].
  eapply Forall_impl; [|exact Hall]. cbv beta. intros b Hb. split.
  - apply (passesRound_coprime n r (Z.shiftr (n - 1) r) b);
      try assumption; lia.
  - apply (passesRound_fermat n r (Z.shiftr (n - 1) r) b);
      try assumption; lia.
Qed.

Lemma probablePrime_certifies_fermat_witness :
  Forall (fun b => Z.gcd 561 b = 1 /\ b ^ (561 - 1) mod 561 = 1) [50; 101].
Proof.
  eapply (probablePrime_certifies_fermat 50 [] 561
            (mkOptions None (BasesArray [50; 101]) true false) [50; 101]);
    [lia|reflexivity|reflexivity|vm_compute; reflexivity|reflexivity].
Defined.

(** ** The verdict does not depend on the mode *)

(** A run on validated bases resolves, and its verdict follows the rounds. *)
Lemma run_validated_passes (fuel : nat) (rnd : list Z) (n : Z)
    (options : Options) (l : list Z) :
  5 <= n -> Z.odd n = true -> 4 * Z.log2 n + 1 < Z.of_nat fuel ->
  validateBases (basesInEffect n options) (n - 1) = Ok (Some l) ->
  exists r w v,
    twoMultiplicity fuel (n - 1) = Some r /\
    0 <= r /\ Z.odd (Z.shiftr (n - 1) r) = true /\
    n - 1 = Z.shiftr (n - 1) r * 2 ^ r /\
    run fuel rnd n options
    = (w, Ok (PrimalityResult.make n (v_probablePrime v) (v_witness v)
                (v_divisor v))) /\
    firstFailure (passesRound n r (Z.shiftr (n - 1) r)) l
      (v_probablePrime v) (v_witness v).
Proof.
  intros Hn Hodd Hfuel Hv.
  destruct (run_validated fuel rnd n options l Hn Hodd Hfuel Hv)
    as (r & ctx & w & v & Htwo & Hr & Hdec & Hctx & Hwf & Hbase & Hvalid
        & Hrounds & Hrun).
  exists r, w, v.
  destruct (twoMultiplicity_sound fuel (n - 1) r Htwo) as (_ & _ & Hd).
  specialize (Hd ltac:(lia)).
  assert (H2r : 0 < 2 ^ r) by (apply Z.pow_pos_nonneg; lia).
  assert (Hdpos : 0 < Z.shiftr (n - 1) r) by nia.
  split; [assumption|]. split; [assumption|]. split; [assumption|].
  split; [assumption|]. split; [assumption|].
  refine (returns_run _ _ _ _ _
            (millerRabin_rounds_spec fuel n r (Z.shiftr (n - 1) r) ctx Hn Hwf
               Hbase Hr Hdpos (findDivisor options) (n - 1) l [] _) Hrounds).
  eapply Forall_impl; [|exact Hvalid]. cbv beta. intros; lia.
Qed.

Lemma first_failure_unique (P : Z -> Prop) (l1 : list Z) :
  forall l1' b b' l2 l2',
    l1 ++ b :: l2 = l1' ++ b' :: l2' ->
    Forall P l1 -> ~ P b -> Forall P l1' -> ~ P b' -> b = b'.
Proof.
  induction l1 as [|a l1 IH]; intros [|c l1'] b b' l2 l2' E H1 Hb H1' Hb';
    cbn [app] in E.
  - now injection E.
  - injection E as -> _. exfalso. apply Hb. exact (Forall_inv H1').
  - injection E as <- _. exfalso. apply Hb'. exact (Forall_inv H1).
  - injection E as _ E.
    exact (IH l1' b b' l2 l2' E (Forall_inv_tail H1) Hb
             (Forall_inv_tail H1') Hb').
Qed.

Lemma firstFailure_unique (P : Z -> Prop) (l : list Z) (pp pp' : bool)
    (w w' : option Z) :
  firstFailure P l pp w -> firstFailure P l pp' w' -> pp = pp' /\ w = w'.
Proof.
  intros [(-> & -> & Hall)|(-> & l1 & b & l2 & -> & Hl1 & Hb & ->)]
         [(-> & -> & Hall')|(-> & l1' & b' & l2' & E & Hl1' & Hb' & ->)].
  - now split.
  - exfalso. apply Hb'. rewrite E in Hall. apply Forall_app in Hall.
    exact (Forall_inv (proj2 Hall)).
  - exfalso. apply Hb. apply Forall_app in Hall'.
    exact (Forall_inv (proj2 Hall')).
  - split; [reflexivity|]. f_equal.
    exact (first_failure_unique P l1 l1' b b' l2 l2' E Hl1 Hb Hl1' Hb').
Qed.

(** X20: the default, random mode decides strong probable primality of the
    draws it keeps.  For odd [n >= 5] with no [bases] in effect, enough loop
    budget and a random source holding at least as many draws within
    [[2, n-2]] as there are rounds, the promise is resolved, with
    [probablePrime] true exactly when [n] is a strong probable prime to each
    of the first such draws, and otherwise with the first of them to which
    it is not as [witness]. *)
Theorem random_run_decides (fuel : nat) (rnd : list Z) (n : Z)
    (options : Options) :
  5 <= n -> Z.odd n = true -> 4 * Z.log2 n + 1 < Z.of_nat fuel ->
  basesInEffect n options = BasesUndefined ->
  (roundsInEffect n options
   <= List.length (filter (inRange (n - 1)) rnd))%nat ->
  exists w res,
    run fuel rnd n options = (w, Ok res) /\
    PrimalityResult.n res = n /\
    firstFailure (strongProbablePrime n)
      (acceptedDraws n (roundsInEffect n options) rnd)
      (PrimalityResult.probablePrime res) (PrimalityResult.witness res).
Proof.
  intros Hn Hodd Hfuel Hbases Hlen.
  destruct (run_random_explicit fuel rnd n options Hn Hodd Hbases Hlen)
    as (Hvalid & rnd' & cs & x & Hrun & Hexplicit).
  destruct (run_validated_passes fuel rnd n
              (mkOptions (numRounds options)
                 (BasesArray (acceptedDraws n (roundsInEffect n options) rnd))
                 (findDivisor options) false)
              (acceptedDraws n (roundsInEffect n options) rnd)
              Hn Hodd Hfuel Hvalid)
    as (r & w & v & _ & Hr & Hd & Hdec & Hres & Hspec).
  rewrite Hexplicit in Hres. injection Hres as _ ->.
  eexists. eexists. split; [exact Hrun|]. split; [reflexivity|].
  cbn [PrimalityResult.probablePrime PrimalityResult.witness].
  apply firstFailure_iff with (P := passesRound n r (Z.shiftr (n - 1) r));
    [|assumption].
  intros b. apply passesRound_strongProbablePrime; try assumption. lia.
Qed.

Lemma random_run_decides_witness :
  exists w res,
    run 50 [1; 50; 600; 2; 3; 7; 0; 11; 13; 17] 561
      (mkOptions (Some 3) BasesUndefined true false) = (w, Ok res) /\
    PrimalityResult.n res = 561 /\
    firstFailure (strongProbablePrime 561) [50; 2; 3]
      (PrimalityResult.probablePrime res) (PrimalityResult.witness res).
Proof.
  apply (random_run_decides 50 [1; 50; 600; 2; 3; 7; 0; 11; 13; 17] 561
           (mkOptions (Some 3) BasesUndefined true false));
    [lia|reflexivity|vm_compute; reflexivity|reflexivity|vm_compute; lia].
Defined.

(** X21: [findDivisor] does not change the verdict.  For odd [n >= 5], bases
    that pass [validateBases] and enough loop budget, the runs with
    [findDivisor] true and false both resolve, with the same [probablePrime]
    and the same [witness]; the second reports no divisor. *)
Theorem findDivisor_keeps_verdict (fuel : nat) (rnd : list Z) (n : Z)
    (rounds : option Z) (bs : basesOption) (mode : bool) (l : list Z) :
  5 <= n -> Z.odd n = true -> 4 * Z.log2 n + 1 < Z.of_nat fuel ->
  validateBases (basesInEffect n (mkOptions rounds bs true mode)) (n - 1)
  = Ok (Some l) ->
  exists w1 w2 res1 res2,
    run fuel rnd n (mkOptions rounds bs true mode) = (w1, Ok res1) /\
    run fuel rnd n (mkOptions rounds bs false mode) = (w2, Ok res2) /\
    PrimalityResult.probablePrime res1 = PrimalityResult.probablePrime res2 /\
    PrimalityResult.witness res1 = PrimalityResult.witness res2 /\
    PrimalityResult.divisor res2 = None.
Proof.
  intros Hn Hodd Hfuel Hv.
  destruct (run_validated_passes fuel rnd n (mkOptions rounds bs true mode) l
              Hn Hodd Hfuel Hv)
    as (r1 & w1 & v1 & Htwo1 & _ & _ & _ & Hrun1 & Hspec1).
  destruct (run_validated_passes fuel rnd n (mkOptions rounds bs false mode) l
              Hn Hodd Hfuel Hv)
    as (r2 & w2 & v2 & Htwo2 & _ & _ & _ & Hrun2 & Hspec2).
  assert (r2 = r1) as -> by congruence.
  destruct (firstFailure_unique _ _ _ _ _ _ Hspec1 Hspec2) as [Hpp Hw].
  eexists. eexists. eexists. eexists.
  split; [exact Hrun1|]. split; [exact Hrun2|].
  cbn [PrimalityResult.probablePrime PrimalityResult.witness
       PrimalityResult.divisor].
  split; [assumption|]. split; [assumption|].
  unfold run in Hrun2.
  destruct (primalityTest_abs fuel n (mkOptions rounds bs false mode))
    as (sign & Hsign & E).
  rewrite E in Hrun2.
  pose proof (returns_run _ _ _ _ _
                (primalityTest_body_outcome fuel sign _ _) Hrun2)
    as (_ & _ & _ & Hnone).
  cbn [PrimalityResult.divisor findDivisor] in Hnone.
  apply Hnone; [reflexivity|]. now rewrite odd_abs.
Qed.

Lemma findDivisor_keeps_verdict_witness :
  exists w1 w2 res1 res2,
    run 50 [] 561 (mkOptions None (BasesArray [50; 2; 3]) true false)
    = (w1, Ok res1) /\
    run 50 [] 561 (mkOptions None (BasesArray [50; 2; 3]) false false)
    = (w2, Ok res2) /\
    PrimalityResult.probablePrime res1 = PrimalityResult.probablePrime res2 /\
    PrimalityResult.witness res1 = PrimalityResult.witness res2 /\
    PrimalityResult.divisor res2 = None.
Proof.
  apply (findDivisor_keeps_verdict 50 [] 561 None (BasesArray [50; 2; 3])
           false [50; 2; 3]);
    [lia|reflexivity|vm_compute; reflexivity|reflexivity].
Defined.

(** ** A witness that is a Fermat liar yields a divisor *)

(** A square root of 1 modulo [n] other than 1 and [-1] shares a proper
    factor with [n]. *)
Lemma sqrt_one_divisor (n a : Z) :
  5 <= n -> 0 <= a < n -> (a * a) mod n = 1 -> a <> 1 -> a <> n - 1 ->
  1 <= a - 1 /\ (Z.gcd (a - 1) n | n) /\ 1 < Z.gcd (a - 1) n < n.
Proof.
  intros Hn Ha Hsq H1 Hm1.
  assert (Ha0 : a <> 0).
  { intros ->. rewrite Z.mul_0_l, Z.mod_0_l in Hsq by lia. discriminate. }
  split; [lia|]. split; [apply Z.gcd_divide_r|].
  pose proof (Z.gcd_nonneg (a - 1) n) as Hg0.
  pose proof (Z.gcd_divide_l (a - 1) n) as Hgl.
  assert (Hgle : Z.gcd (a - 1) n <= a - 1)
    by (apply Z.divide_pos_le; [lia|assumption]).
  assert (Hgne0 : Z.gcd (a - 1) n <> 0).
  { intros H0. apply Z.gcd_eq_0 in H0. lia. }
  assert (Hgne1 : Z.gcd (a - 1) n <> 1).
  { intros Hg. apply Zmod_divide_minus in Hsq; [|lia].
    replace (a * a - 1) with ((a - 1) * (a + 1)) in Hsq by ring.
    apply Z.gauss in Hsq; [|now rewrite Z.gcd_comm].
    apply Z.divide_pos_le in Hsq; lia. }
  lia.
Qed.

Section FermatLiar.

Variable fuel : nat.
Variables n r d : Z.
Variable ctx : Ctx.t.

Hypothesis n_large : 5 <= n.
Hypothesis ctx_wf : wellFormed ctx.
Hypothesis ctx_base : Ctx.base ctx = n.
Hypothesis r_nonneg : 0 <= r.
Hypothesis d_pos : 0 < d.

Local Abbreviation oneReduced := (montgomeryReduce 1 ctx).
Local Abbreviation nSubReduced := (montgomeryReduce (n - 1) ctx).

(** When [B ^ (d * 2 ^ r)] is 1, the loop of lines 441-459 is left with a
    square root of 1 other than 1 and [-1], or on a pass. *)
Lemma millerRabin_loop_fermat (B : Z) (count : nat) :
  B ^ (d * 2 ^ r) mod n = 1 ->
  forall j x,
    0 <= j -> j + Z.of_nat count = r ->
    represents ctx x (B ^ (d * 2 ^ j)) ->
    x <> oneReduced -> x <> nSubReduced ->
    returns (millerRabin_loop ctx oneReduced nSubReduced count x)
      (fun e =>
         match e with
         | Inner_composite x' =>
             exists X,
               represents ctx x' X /\ (X * X) mod n = 1 /\
               X mod n <> 1 /\ X mod n <> n - 1
         | Inner_passed => True
         | Inner_exhausted _ => False
         end).
Proof.
  intros Hfermat.
  induction count as [|count IH]; intros j x Hj Hr Hx Hne1 Hne2;
    cbn [millerRabin_loop].
  - exfalso. apply Hne1.
    apply (reduce_eq_iff n ctx n_large ctx_wf ctx_base x _ 1 Hx); [lia|].
    now replace j with r by lia.
  - assert (Hpow : 0 <= d * 2 ^ j).
    { pose proof (Z.pow_nonneg 2 j ltac:(lia)). nia. }
    pose proof (montgomerySqr_represents ctx ctx_wf x _ Hx) as Hy.
    apply returns_bind with (phi := fun y => y = montgomerySqr x ctx).
    { apply returns_call. now intros a [= <-]. }
    intros y ->.
    destruct (Z.eqb_spec (montgomerySqr x ctx) oneReduced) as [E|Hny1].
    { apply returns_ret. exists (B ^ (d * 2 ^ j)).
      split; [assumption|]. split; [|split].
      - now apply (reduce_eq_iff n ctx n_large ctx_wf ctx_base _ _ 1 Hy);
          [lia|].
      - intros H. apply Hne1.
        now apply (reduce_eq_iff n ctx n_large ctx_wf ctx_base x _ 1 Hx);
          [lia|].
      - intros H. apply Hne2.
        now apply (reduce_eq_iff n ctx n_large ctx_wf ctx_base x _ (n - 1)
                     Hx); [lia|]. }
    destruct (Z.eqb_spec (montgomerySqr x ctx) nSubReduced) as [E|Hny2].
    { now apply returns_ret. }
    apply (IH (j + 1)); try assumption; try lia.
    rewrite <- Z.pow_add_r in Hy by assumption.
    replace (d * 2 ^ j + d * 2 ^ j) with (d * 2 ^ (j + 1)) in Hy
      by (rewrite Z.pow_add_r, Z.pow_1_r by lia; ring).
    exact Hy.
Qed.

Lemma compositeBy_sqrt_one (base x X : Z) :
  represents ctx x X -> (X * X) mod n = 1 ->
  X mod n <> 1 -> X mod n <> n - 1 ->
  returns (compositeBy fuel true n ctx base x)
    (fun v => exists g, v_divisor v = Some g /\ (g | n) /\ 1 < g < n).
Proof.
  intros Hx Hsq H1 Hm1. unfold compositeBy.
  apply returns_bind with (phi := fun xi => xi = X mod n).
  { apply returns_call. intros a [= <-]. rewrite <- ctx_base.
    now apply invMontgomeryReduce_represents. }
  intros xi ->.
  assert (Hrange : 0 <= X mod n < n) by (apply Z.mod_pos_bound; lia).
  assert (Hsq' : (X mod n * (X mod n)) mod n = 1)
    by (rewrite <- Z.mul_mod by lia; assumption).
  destruct (sqrt_one_divisor n (X mod n) n_large Hrange Hsq' H1 Hm1)
    as (Hpos & Hdiv & Hg).
  apply returns_bind with (phi := fun g => g = Z.gcd (X mod n - 1) n).
  { apply returns_ofOption. intros g Hgcd.
    apply (ugcd_sound fuel); [lia|lia|assumption]. }
  intros g ->. apply returns_ret. cbn [v_divisor].
  destruct (Z.eqb_spec (Z.gcd (X mod n - 1) n) 1) as [E|_]; [lia|].
  eexists. split; [reflexivity|]. split; assumption.
Qed.

Lemma millerRabin_round_fermat (base : Z) :
  2 <= base < n - 1 ->
  base ^ (d * 2 ^ r) mod n = 1 ->
  returns
    (millerRabin_round fuel true n r d ctx oneReduced nSubReduced base)
    (fun v =>
       forall v', v = Some v' ->
         exists g, v_divisor v' = Some g /\ (g | n) /\ 1 < g < n).
Proof.
  intros Hb Hfermat. unfold millerRabin_round.
  apply returns_bind with (phi := fun g => g = Z.gcd n base).
  { apply returns_ofOption. intros g Hg.
    apply (ugcd_sound fuel); [lia|lia|assumption]. }
  intros g ->.
  destruct (Z.eqb_spec (Z.gcd n base) 1) as [Hcoprime|Hne]; cbn [negb].
  2:{ apply returns_ret. intros v' [= <-]. cbn [v_divisor].
      eexists. split; [reflexivity|].
      pose proof (Z.gcd_nonneg n base) as Hg0.
      pose proof (Z.gcd_divide_r n base) as Hgb.
      apply Z.divide_pos_le in Hgb; [|lia].
      assert (Z.gcd n base <> 0) by (rewrite Z.gcd_eq_0; lia).
      split; [apply Z.gcd_divide_l|lia]. }
  unfold millerRabin_test.
  apply returns_bind with (phi := fun b => b = montgomeryReduce base ctx).
  { apply returns_call. now intros a [= <-]. }
  intros baseReduced ->.
  apply returns_bind
    with (phi := fun x => x = montgomeryPow (montgomeryReduce base ctx) d ctx).
  { apply returns_call. now intros a [= <-]. }
  intros x ->.
  set (x := montgomeryPow (montgomeryReduce base ctx) d ctx).
  destruct (Z.eqb_spec x oneReduced) as [E|Hne1]; cbn [orb];
    [apply returns_ret; discriminate|].
  destruct (Z.eqb_spec x nSubReduced) as [E|Hne2];
    [apply returns_ret; discriminate|].
  assert (Hx : represents ctx x (base ^ (d * 2 ^ 0))).
  { rewrite Z.pow_0_r, Z.mul_1_r.
    apply montgomeryPow_represents; [assumption|lia|].
    apply montgomeryReduce_represents; [assumption|lia]. }
  eapply returns_bind.
  { apply (millerRabin_loop_fermat base (Z.to_nat r) Hfermat 0 x);
      try assumption; lia. }
  intros [x'| |x'] He.
  - destruct He as (X & HX & Hsq & H1 & Hm1).
    eapply returns_bind; [exact (compositeBy_sqrt_one base x' X HX Hsq H1 Hm1)|].
    intros v Hv. apply returns_ret. now intros v' [= <-].
  - apply returns_ret. discriminate.
  - contradiction.
Qed.

Lemma millerRabin_rounds_fermat (nSub : Z) (validBases : option (list Z))
    (count : nat) :
  nSub = n - 1 ->
  (forall l, validBases = Some l -> Forall (fun b => 2 <= b < nSub) l) ->
  forall baseIndex,
    returns
      (millerRabin_rounds fuel true n nSub r d ctx oneReduced nSubReduced
         validBases count baseIndex)
      (fun v =>
         forall b, v_witness v = Some b -> b ^ (d * 2 ^ r) mod n = 1 ->
           exists g, v_divisor v = Some g /\ (g | n) /\ 1 < g < n).
Proof.
  intros HnSub Hvalid.
  induction count as [|count IH]; intros baseIndex; cbn [millerRabin_rounds].
  - apply returns_ret. discriminate.
  - apply returns_bind with (phi := fun b => 2 <= b < nSub);
      [now apply nextBase_range|].
    intros base Hb. rewrite HnSub in Hb.
    destruct (Z.eq_dec (base ^ (d * 2 ^ r) mod n) 1) as [Hfermat|Hnot].
    + eapply returns_bind; [exact (millerRabin_round_fermat base Hb Hfermat)|].
      intros [v|] Hv; [|apply IH].
      apply returns_ret. intros b _ _. now apply Hv.
    + eapply returns_bind; [apply millerRabin_round_outcome|].
      intros [v|] Hv; [|apply IH].
      apply returns_ret. intros b Hw Hf.
      destruct (Hv v eq_refl) as (_ & Hw' & _).
      rewrite Hw' in Hw. injection Hw as <-. contradiction.
Qed.

End FermatLiar.

(** X22: a witness that is a Fermat liar always comes with a divisor.  When
    a run on odd [n >= 5] with [findDivisor] true resolves with a witness
    [b] such that [b ^ (n - 1) = 1] modulo [n] (so that Fermat's test would
    not have caught [n]), the result holds a divisor of [n] other than 1 and
    [n]. *)
Theorem fermat_liar_witness_gives_divisor (fuel : nat) (rnd : list Z) (n : Z)
    (options : Options) (w : world) (res : PrimalityResult.t) (b : Z) :
  5 <= n -> Z.odd n = true -> findDivisor options = true ->
  run fuel rnd n options = (w, Ok res) ->
  PrimalityResult.witness res = Some b ->
  b ^ (n - 1) mod n = 1 ->
  exists g,
    PrimalityResult.divisor res = Some g /\ (g | n) /\ 1 < g < n.
Proof.
  intros Hn Hodd Hfd Hrun Hw Hfermat.
  rewrite run_odd in Hrun by assumption. rewrite Hfd in Hrun.
  destruct (twoMultiplicity fuel (n - 1)) as [r|] eqn:Htwo; [|discriminate].
  destruct (getReductionContext n) as [ctx|e] eqn:Hctx; [|discriminate].
  destruct (validateBases (basesInEffect n options) (n - 1)) as [vb|e] eqn:Hv;
    [|discriminate].
  destruct (millerRabin_rounds _ _ _ _ _ _ _ _ _ _ _ _ _) as [w' [v|e]] eqn:E;
    [|discriminate].
  injection Hrun as _ <-.
  cbn [PrimalityResult.witness PrimalityResult.divisor] in *.
  destruct (twoMultiplicity_sound fuel (n - 1) r Htwo) as (Hr & Hdec & _).
  assert (H2r : 0 < 2 ^ r) by (apply Z.pow_pos_nonneg; lia).
  assert (Hdpos : 0 < Z.shiftr (n - 1) r) by nia.
  destruct (getReductionContext_wellFormed n ctx ltac:(lia) Hodd Hctx)
    as [Hbase Hwf].
  refine (returns_run _ _ _ _ _
            (millerRabin_rounds_fermat fuel n r (Z.shiftr (n - 1) r) ctx Hn
               Hwf Hbase Hr Hdpos (n - 1) vb _ eq_refl
               (validateBases_range _ _ _ Hv) 0%nat) E b Hw _).
  now rewrite <- Hdec.
Qed.

Lemma fermat_liar_witness_gives_divisor_witness :
  exists w res g,
    run 50 [] 561 (mkOptions None (BasesArray [50; 2; 3]) true false)
    = (w, Ok res) /\
    PrimalityResult.divisor res = Some g /\ (g | 561) /\ 1 < g < 561.
Proof.
  assert (Hrun : exists w res,
    run 50 [] 561 (mkOptions None (BasesArray [50; 2; 3]) true false)
    = (w, Ok res) /\ PrimalityResult.witness res = Some 2)
    by (eexists; eexists; split; vm_compute; reflexivity).
  destruct Hrun as (w & res & Hrun & Hw).
  destruct (fermat_liar_witness_gives_divisor 50 [] 561
              (mkOptions None (BasesArray [50; 2; 3]) true false) w res 2
              ltac:(lia) eq_refl eq_refl Hrun Hw
              ltac:(vm_compute; reflexivity)) as (g & Hg).
  exists w, res, g. split; [exact Hrun|exact Hg].
Defined.

(** ** Small-determinism mode below 2047 *)

Lemma trialDivision_prime (n : Z) (k : nat) :
  n < (Z.of_nat k + 2) * (Z.of_nat k + 2) ->
  (trialDivision n k = true <-> Z.prime n).
Proof.
  intros Hk. unfold trialDivision. rewrite andb_true_iff, forallb_forall.
  split.
  - intros [H1 Hall]. apply Z.ltb_lt in H1. split; [assumption|].
    intros m Hm [q Hq].
    assert (Hq1 : 1 < q < n) by nia.
    assert (Hsmall : exists d, 2 <= d /\ d * d <= n /\ (d | n)).
    { destruct (Z.le_gt_cases m q).
      - exists m. split; [lia|]. split; [nia|]. now exists q.
      - exists q. split; [lia|]. split; [nia|]. exists m. lia. }
    destruct Hsmall as (d & Hd2 & Hdd & Hdiv).
    assert (Hin : In d (map Z.of_nat (seq 2 k))).
    { apply in_map_iff. exists (Z.to_nat d). split; [lia|].
      apply in_seq. nia. }
    specialize (Hall d Hin). apply orb_true_iff in Hall.
    destruct Hall as [Hlt|Hnd].
    + apply Z.ltb_lt in Hlt. lia.
    + apply negb_true_iff, Z.eqb_neq in Hnd. apply Hnd.
      apply Z.mod_divide; [lia|assumption].
  - intros [H1 Hp]. split; [now apply Z.ltb_lt|].
    intros d Hin. apply in_map_iff in Hin.
    destruct Hin as (i & <- & Hi). apply in_seq in Hi.
    destruct (Z.ltb_spec n (Z.of_nat i * Z.of_nat i)) as [|Hle];
      [reflexivity|]. cbn [orb]. apply negb_true_iff, Z.eqb_neq.
    intros Hmod. apply (Hp (Z.of_nat i)); [nia|].
    apply Z.mod_divide; [lia|assumption].
Qed.

Lemma agreesWithTrialDivision_spec (fuel : nat) (lo : Z) (count k : nat) :
  agreesWithTrialDivision fuel lo count k = true ->
  forall i,
    (i < count)%nat ->
    verdictOf (run fuel [] (lo + 2 * Z.of_nat i) smallDeterminism)
    = Some (trialDivision (lo + 2 * Z.of_nat i) k).
Proof.
  unfold agreesWithTrialDivision. rewrite forallb_forall.
  intros Hall i Hi. specialize (Hall i). cbv zeta in Hall.
  destruct (verdictOf (run fuel [] (lo + 2 * Z.of_nat i) smallDeterminism))
    as [b|].
  - f_equal. apply Bool.eqb_prop. apply Hall. apply in_seq. lia.
  - discriminate Hall. apply in_seq. lia.
Qed.

Lemma smallDeterminism_agrees_below_2047 :
  agreesWithTrialDivision 50 5 1021 44 = true.
Proof. vm_compute. reflexivity. Qed.

(** X23: in small-determinism mode the verdict is exact below 2047.  For
    every [n] with [|n| < 2047], with [small_determinism_mode] on and a loop
    budget above 41, the promise is resolved and [probablePrime] is true
    exactly when [|n|] is prime, whatever the other options and the random
    source are. *)
Theorem small_determinism_exact_below_2047 (fuel : nat) (rnd : list Z)
    (n : Z) (options : Options) :
  small_determinism_mode options = true ->
  Z.abs n < 2047 -> 41 < Z.of_nat fuel ->
  exists w res,
    run fuel rnd n options = (w, Ok res) /\
    (PrimalityResult.probablePrime res = true <-> Z.prime (Z.abs n)).
Proof.
  intros Hmode Hn Hfuel.
  pose proof (run_abs fuel rnd n options) as Habs.
  pose proof (Z.abs_nonneg n) as H0.
  set (m := Z.abs n) in *.
  assert (Hm : exists w res,
    run fuel rnd m options = (w, Ok res) /\
    (PrimalityResult.probablePrime res = true <-> Z.prime m)).
  { destruct (Z.odd m) eqn:Hodd.
    2:{ destruct (run_special_resolves fuel rnd m options H0
                    (or_intror Hodd)) as (w & res & Hrun & Hpp).
        exists w, res. split; [assumption|]. rewrite Hpp.
        destruct (Z.eq_dec m 2) as [->|Hne2];
          [split; [intros _; exact Z.prime_2|reflexivity]|].
        split.
        - intros H. apply andb_true_iff in H. destruct H as [H2 H4].
          apply Z.leb_le in H2. apply Z.ltb_lt in H4.
          assert (m = 3) as E by lia. rewrite E in Hodd. discriminate.
        - intros [H1 Hp]. exfalso. apply (Hp 2); [lia|].
          rewrite <- Z.negb_even in Hodd. apply negb_false_iff in Hodd.
          apply Z.even_spec in Hodd. destruct Hodd as [q ->].
          exists q. ring. }
    destruct (Z.lt_ge_cases m 5) as [Hlt|Hge].
    { destruct (run_special_resolves fuel rnd m options H0 (or_introl Hlt))
        as (w & res & Hrun & Hpp).
      exists w, res. split; [assumption|]. rewrite Hpp.
      assert (m = 1 \/ m = 3) as [-> | ->].
      { destruct (Z.eq_dec m 0) as [E|]; [rewrite E in Hodd; discriminate|].
        destruct (Z.eq_dec m 2) as [E|]; [rewrite E in Hodd; discriminate|].
        destruct (Z.eq_dec m 4) as [E|]; [rewrite E in Hodd; discriminate|].
        lia. }
      - split; [discriminate|]. intros H. now apply Z.not_prime_1 in H.
      - split; [intros _; exact Z.prime_3|reflexivity]. }
    assert (Hlog : Z.log2 m <= 10).
    { apply Z.lt_succ_r. apply Z.log2_lt_pow2; lia. }
    assert (Hvalid : forall opts,
      small_determinism_mode opts = true ->
      validateBases (basesInEffect m opts) (m - 1)
      = Ok (Some (smallDeterminismBases m))).
    { intros opts Ho. unfold basesInEffect. rewrite Ho.
      destruct (Z.ltb_spec m 341550071728321); [|lia].
      cbn [andb validateBases]. now rewrite smallDeterminismBases_valid. }
    destruct (run_validated_passes fuel rnd m options _ Hge Hodd
                ltac:(lia) (Hvalid options Hmode))
      as (r1 & w1 & v1 & _ & Hr1 & Hd1 & Hdec1 & Hrun1 & Hspec1).
    destruct (run_validated_passes 50 [] m smallDeterminism _ Hge Hodd
                ltac:(lia) (Hvalid smallDeterminism eq_refl))
      as (r2 & w2 & v2 & _ & Hr2 & Hd2 & Hdec2 & Hrun2 & Hspec2).
    destruct (odd_decomposition_unique _ r1 _ r2 Hr1 Hr2 Hd1 Hd2
                ltac:(congruence)) as [<- _].
    destruct (firstFailure_unique _ _ _ _ _ _ Hspec1 Hspec2) as [Hpp _].
    exists w1, (PrimalityResult.make m (v_probablePrime v1) (v_witness v1)
                  (v_divisor v1)).
    split; [assumption|]. cbn [PrimalityResult.probablePrime]. rewrite Hpp.
    apply Z.odd_spec in Hodd. destruct Hodd as [q Hq].
    assert (Hi : (Z.to_nat (q - 2) < 1021)%nat) by lia.
    pose proof (agreesWithTrialDivision_spec 50 5 1021 44
                  smallDeterminism_agrees_below_2047 (Z.to_nat (q - 2)) Hi)
      as Hcheck.
    replace (5 + 2 * Z.of_nat (Z.to_nat (q - 2))) with m in Hcheck by lia.
    rewrite Hrun2 in Hcheck. unfold verdictOf in Hcheck.
    cbn [snd PrimalityResult.probablePrime] in Hcheck.
    injection Hcheck as Hcheck. rewrite Hcheck.
    apply trialDivision_prime. change (Z.of_nat 44) with 44. lia. }
  destruct Hm as (w & res & Hrun & Hiff).
  rewrite Hrun in Habs.
  destruct (run fuel rnd n options) as [w' [res'|e]]; [|contradiction].
  destruct Habs as (-> & Hpp & _).
  exists w, res'. split; [reflexivity|]. now rewrite Hpp.
Qed.

Lemma small_determinism_exact_below_2047_witness :
  exists w res,
    run 50 [] (-2041) smallDeterminism = (w, Ok res) /\
    (PrimalityResult.probablePrime res = true <-> Z.prime (Z.abs (-2041))).
Proof.
  apply (small_determinism_exact_below_2047 50 [] (-2041) smallDeterminism);
    [reflexivity|vm_compute; reflexivity|vm_compute; reflexivity].
Defined.

(** ** The cost of a run *)

Lemma countCalls_app (p : montgomeryCall -> bool) (l1 l2 : list montgomeryCall) :
  countCalls p (l1 ++ l2) = (countCalls p l1 + countCalls p l2)%nat.
Proof. unfold countCalls. now rewrite filter_app, length_app. Qed.

Lemma spends_weaken {A : Type} (m : M A) (p s p' s' : nat) :
  spends m p s -> (p <= p')%nat -> (s <= s')%nat -> spends m p' s'.
Proof.
  intros H Hp Hs w. destruct (H w) as (cs & E & H1 & H2).
  exists cs. split; [assumption|]. lia.
Qed.

Lemma spends_pure {A : Type} (m : M A) :
  (forall w, calls (fst (m w)) = calls w) -> spends m 0 0.
Proof.
  intros H w. exists []. rewrite app_nil_r. split; [apply H|].
  cbn. lia.
Qed.

Lemma spends_ret {A : Type} (a : A) : spends (ret a) 0 0.
Proof. apply spends_pure. reflexivity. Qed.

Lemma spends_throw {A : Type} (e : exn) : spends (@throw A e) 0 0.
Proof. apply spends_pure. reflexivity. Qed.

Lemma spends_ofOption {A : Type} (x : option A) : spends (ofOption x) 0 0.
Proof. destruct x; [apply spends_ret|apply spends_throw]. Qed.

Lemma spends_randomBase (nSub : Z) : spends (randomBase nSub) 0 0.
Proof.
  apply spends_pure. intros w. unfold randomBase.
  destruct (randomBase_loop (draws w) nSub) as [[b l]|]; reflexivity.
Qed.

Lemma spends_call {A : Type} (c : montgomeryCall) (x : result A) :
  spends (call c x)
    (if isPow c then 1 else 0) (if isSqr c then 1 else 0).
Proof.
  intros w. exists [c]. split; [reflexivity|].
  unfold countCalls. cbn [filter].
  destruct (isPow c); destruct (isSqr c); cbn; lia.
Qed.

Lemma spends_bind {A B : Type} (m : M A) (k : A -> M B) (p1 s1 p2 s2 : nat) :
  spends m p1 s1 -> (forall a, spends (k a) p2 s2) ->
  spends (x <- m ;; k x) (p1 + p2) (s1 + s2).
Proof.
  intros Hm Hk w. unfold bind. destruct (Hm w) as (cs1 & E1 & Hp1 & Hs1).
  destruct (m w) as [w1 [a|e]]; cbn [fst] in *.
  - destruct (Hk a w1) as (cs2 & E2 & Hp2 & Hs2).
    exists (cs1 ++ cs2). rewrite E2, E1, app_assoc, !countCalls_app.
    split; [reflexivity|]. lia.
  - exists cs1. split; [assumption|]. lia.
Qed.

Lemma spends_step {A B : Type} (m : M A) (k : A -> M B) (p s : nat) :
  spends m 0 0 -> (forall a, spends (k a) p s) -> spends (x <- m ;; k x) p s.
Proof. intros Hm Hk. exact (spends_bind m k 0 0 p s Hm Hk). Qed.

Lemma spends_millerRabin_loop ctx oneReduced nSubReduced (count : nat) :
  forall x,
    spends (millerRabin_loop ctx oneReduced nSubReduced count x) 0 count.
Proof.
  induction count as [|count IH]; intros x; cbn [millerRabin_loop].
  - apply spends_ret.
  - apply (spends_bind _ _ 0 1 0 count).
    { exact (spends_call (Call_montgomerySqr x) _). }
    intros y.
    destruct (y =? oneReduced);
      [apply spends_weaken with (1 := spends_ret _); lia|].
    destruct (y =? nSubReduced);
      [apply spends_weaken with (1 := spends_ret _); lia|apply IH].
Qed.

Lemma spends_compositeBy fuel findDivisor n ctx base x :
  spends (compositeBy fuel findDivisor n ctx base x) 0 0.
Proof.
  unfold compositeBy. destruct findDivisor; [|apply spends_ret].
  apply spends_step; [exact (spends_call (Call_invMontgomeryReduce x) _)|].
  intros xi. apply spends_step; [apply spends_ofOption|].
  intros g. apply spends_ret.
Qed.

Lemma spends_millerRabin_round fuel findDivisor n r d ctx oneReduced
    nSubReduced base :
  spends
    (millerRabin_round fuel findDivisor n r d ctx oneReduced nSubReduced base)
    1 (Z.to_nat r).
Proof.
  assert (Htest :
    spends
      (millerRabin_test fuel findDivisor n r d ctx oneReduced nSubReduced
         base) 1 (Z.to_nat r)).
  { unfold millerRabin_test.
    apply spends_step; [exact (spends_call (Call_montgomeryReduce base) _)|].
    intros baseReduced.
    apply (spends_bind _ _ 1 0 0 (Z.to_nat r)).
    { exact (spends_call (Call_montgomeryPow baseReduced d) _). }
    intros x.
    destruct ((x =? oneReduced) || (x =? nSubReduced));
      [apply spends_weaken with (1 := spends_ret _); lia|].
    apply spends_weaken with (p := (0 + 0)%nat) (s := (Z.to_nat r + 0)%nat);
      [|lia|lia].
    apply spends_bind; [apply spends_millerRabin_loop|].
    intros [x'| |x']; try apply spends_ret;
      (apply spends_step; [apply spends_compositeBy|]);
      intros v; apply spends_ret. }
  unfold millerRabin_round. destruct findDivisor; [|exact Htest].
  apply spends_step; [apply spends_ofOption|].
  intros g. destruct (negb (g =? 1)); [|exact Htest].
  apply spends_weaken with (1 := spends_ret _); lia.
Qed.

Lemma spends_millerRabin_rounds fuel findDivisor n nSub r d ctx oneReduced
    nSubReduced validBases (count : nat) :
  forall baseIndex,
    spends
      (millerRabin_rounds fuel findDivisor n nSub r d ctx oneReduced
         nSubReduced validBases count baseIndex)
      count (count * Z.to_nat r).
Proof.
  induction count as [|count IH]; intros baseIndex; cbn [millerRabin_rounds].
  - apply spends_ret.
  - apply spends_weaken
      with (p := (0 + (1 + count))%nat)
           (s := (0 + (Z.to_nat r + count * Z.to_nat r))%nat);
      [|lia|lia].
    apply spends_bind.
    { unfold nextBase. destruct validBases as [l|];
        [|apply spends_randomBase].
      destruct (nth_error l baseIndex); [apply spends_ret|apply spends_throw]. }
    intros base. apply spends_bind; [apply spends_millerRabin_round|].
    intros [v|]; [|apply IH].
    apply spends_weaken with (1 := spends_ret _); lia.
Qed.

Lemma twoMultiplicity_le_log2 (fuel : nat) (n r : Z) :
  0 < n -> twoMultiplicity fuel n = Some r -> 0 <= r <= Z.log2 n.
Proof.
  intros Hn. unfold twoMultiplicity.
  destruct (Z.eqb_spec n 0); [lia|]. intros H.
  apply twoMultiplicity_loop_sound in H; [|lia|intros; lia].
  destruct H as (Hr & Hbit & _). split; [assumption|].
  destruct (Z.le_gt_cases r (Z.log2 n)) as [|Hgt]; [assumption|].
  rewrite Z.bits_above_log2 in Hbit by lia. discriminate.
Qed.

Lemma spends_bind_ret {A B : Type} (a : A) (k : A -> M B) (p s : nat) :
  spends (k a) p s -> spends (x <- ret a ;; k x) p s.
Proof. intros H w. exact (H w). Qed.

Lemma spends_primalityTest_body (fuel : nat) (sign m : Z)
    (options : Options) :
  spends (primalityTest_body fuel sign m options)
    (roundsBudget m options)
    (roundsBudget m options * Z.to_nat (Z.log2 m)).
Proof.
  unfold primalityTest_body.
  destruct (Z.ltb_spec m 2);
    [apply spends_weaken with (1 := spends_ret _); lia|].
  destruct (Z.ltb_spec m 4);
    [apply spends_weaken with (1 := spends_ret _); lia|].
  destruct (negb (truthy (Z.land m 1)));
    [apply spends_weaken with (1 := spends_ret _); lia|].
  cbv zeta. fold (basesInEffect m options). fold (roundsInEffect m options).
  destruct (twoMultiplicity fuel (m - 1)) as [r|] eqn:Htwo.
  2:{ apply spends_weaken with (p := 0%nat) (s := 0%nat); [|lia|lia].
      apply spends_pure. intros w. reflexivity. }
  apply twoMultiplicity_le_log2 in Htwo; [|lia].
  assert (Hr : (Z.to_nat r <= Z.to_nat (Z.log2 m))%nat).
  { pose proof (Z.log2_le_mono (m - 1) m ltac:(lia)). lia. }
  apply spends_weaken
    with (p := roundsBudget m options)
         (s := (roundsBudget m options * Z.to_nat r)%nat); [|lia|nia].
  apply (spends_bind_ret r).
  apply spends_step; [exact (spends_call (Call_getReductionContext m) _)|].
  intros ctx.
  apply spends_step; [exact (spends_call (Call_montgomeryReduce 1) _)|].
  intros oneReduced.
  apply spends_step; [exact (spends_call (Call_montgomeryReduce (m - 1)) _)|].
  intros nSubReduced. unfold roundsBudget.
  destruct (validateBases (basesInEffect m options) (m - 1)) as [vb|e].
  2:{ apply spends_pure. intros w. reflexivity. }
  apply (spends_bind_ret vb).
  destruct vb as [l|].
  - apply spends_weaken
      with (p := (Datatypes.length l + 0)%nat)
           (s := (Datatypes.length l * Z.to_nat r + 0)%nat); [|lia|lia].
    apply spends_bind; [apply spends_millerRabin_rounds|].
    intros v. apply spends_ret.
  - apply spends_weaken
      with (p := (roundsInEffect m options + 0)%nat)
           (s := (roundsInEffect m options * Z.to_nat r + 0)%nat);
      [|lia|lia].
    apply spends_bind; [apply spends_millerRabin_rounds|].
    intros v. apply spends_ret.
Qed.

(** X24: the Montgomery work of a whole run is bounded by its number of
    rounds.  With [numRounds] absent or an integer, and whatever the input,
    the other options, the draws and the budget, the number of calls of
    [montgomeryPow] that [primalityTest] makes in a run is at most the number
    of rounds: [bases.length] for the bases in effect, or else [numRounds],
    or the adaptive number (and none when the bases are rejected); the
    number of its calls of [montgomerySqr] in the run is at most that number
    of rounds times [log2 |n|]. *)
Theorem rounds_bounded (fuel : nat) (rnd : list Z) (n : Z)
    (options : Options) :
  (countCalls isPow (calls (fst (run fuel rnd n options)))
   <= roundsBudget (Z.abs n) options)%nat /\
  (countCalls isSqr (calls (fst (run fuel rnd n options)))
   <= roundsBudget (Z.abs n) options * Z.to_nat (Z.log2 (Z.abs n)))%nat.
Proof.
  unfold run.
  destruct (primalityTest_abs fuel n options) as (sign & _ & E).
  rewrite E.
  destruct (spends_primalityTest_body fuel sign (Z.abs n) options
              (mkWorld rnd [])) as (cs & Hcs & Hpow & Hsqr).
  rewrite Hcs. cbn [calls app]. split; assumption.
Qed.

(** ** A witness that shares a factor with n *)

Lemma millerRabin_round_gcd fuel n r d ctx oneReduced nSubReduced base :
  0 <= n -> 0 <= base ->
  returns
    (millerRabin_round fuel true n r d ctx oneReduced nSubReduced base)
    (fun v =>
       forall v', v = Some v' ->
         v_witness v' = Some base /\
         (Z.gcd n base <> 1 -> v_divisor v' = Some (Z.gcd n base))).
Proof.
  intros Hn Hb.
  assert (Hw :
    returns
      (millerRabin_round fuel true n r d ctx oneReduced nSubReduced base)
      (fun v => forall v', v = Some v' -> v_witness v' = Some base)).
  { apply returns_impl with (1 := millerRabin_round_outcome _ _ _ _ _ _ _ _ _).
    intros v H v' Hv'. now destruct (H v' Hv') as (_ & Hwit & _). }
  assert (Hd :
    returns
      (millerRabin_round fuel true n r d ctx oneReduced nSubReduced base)
      (fun v =>
         forall v', v = Some v' ->
           Z.gcd n base <> 1 -> v_divisor v' = Some (Z.gcd n base))).
  { unfold millerRabin_round.
    apply returns_bind with (phi := fun g => g = Z.gcd n base).
    { apply returns_ofOption. intros g Hg.
      apply (ugcd_sound fuel); assumption. }
    intros g ->.
    destruct (Z.eqb_spec (Z.gcd n base) 1) as [E|Hne]; cbn [negb].
    - apply returns_impl with (1 := returns_true _). intros v _ v' _ Hne.
      contradiction.
    - apply returns_ret. now intros v' [= <-] _. }
  intros w' _. specialize (Hw w' I). specialize (Hd w' I).
  destruct (millerRabin_round fuel true n r d ctx oneReduced nSubReduced base
              w') as [w1 [v|e]]; [|exact I].
  intros v' Hv'. split; [now apply Hw|now apply Hd].
Qed.

Lemma millerRabin_rounds_gcd fuel n nSub r d ctx oneReduced nSubReduced
    (validBases : option (list Z)) (count : nat) :
  0 <= n ->
  (forall l, validBases = Some l -> Forall (fun b => 2 <= b < nSub) l) ->
  forall baseIndex,
    returns
      (millerRabin_rounds fuel true n nSub r d ctx oneReduced nSubReduced
         validBases count baseIndex)
      (fun v =>
         forall b, v_witness v = Some b -> Z.gcd n b <> 1 ->
           v_divisor v = Some (Z.gcd n b)).
Proof.
  intros Hn Hvalid.
  induction count as [|count IH]; intros baseIndex; cbn [millerRabin_rounds].
  - apply returns_ret. discriminate.
  - apply returns_bind with (phi := fun b => 2 <= b < nSub);
      [now apply nextBase_range|].
    intros base Hb.
    eapply returns_bind;
      [apply (millerRabin_round_gcd fuel n r d ctx oneReduced nSubReduced
                base Hn); lia|].
    intros [v|] Hv; [|apply IH].
    apply returns_ret. intros b Hw Hne.
    destruct (Hv v eq_refl) as [Hw' Hd].
    rewrite Hw' in Hw. injection Hw as <-. now apply Hd.
Qed.

(** X25: a witness that shares a factor with [n] comes with that factor.
    When a run on odd [n >= 5] with [findDivisor] true resolves with a
    witness [b] that is not coprime to [n], the divisor reported is
    [gcd(n, b)]. *)
Theorem shared_factor_witness_gives_gcd (fuel : nat) (rnd : list Z) (n : Z)
    (options : Options) (w : world) (res : PrimalityResult.t) (b : Z) :
  5 <= n -> Z.odd n = true -> findDivisor options = true ->
  run fuel rnd n options = (w, Ok res) ->
  PrimalityResult.witness res = Some b ->
  Z.gcd n b <> 1 ->
  PrimalityResult.divisor res = Some (Z.gcd n b).
Proof.
  intros Hn Hodd Hfd Hrun Hw Hne.
  rewrite run_odd in Hrun by assumption. rewrite Hfd in Hrun.
  destruct (twoMultiplicity fuel (n - 1)) as [r|]; [|discriminate].
  destruct (getReductionContext n) as [ctx|e]; [|discriminate].
  destruct (validateBases (basesInEffect n options) (n - 1)) as [vb|e] eqn:Hv;
    [|discriminate].
  destruct (millerRabin_rounds _ _ _ _ _ _ _ _ _ _ _ _ _) as [w' [v|e]] eqn:E;
    [|discriminate].
  injection Hrun as _ <-.
  cbn [PrimalityResult.witness PrimalityResult.divisor] in *.
  exact (returns_run _ _ _ _ _
           (millerRabin_rounds_gcd fuel n (n - 1) r (Z.shiftr (n - 1) r) ctx
              (montgomeryReduce 1 ctx) (montgomeryReduce (n - 1) ctx) vb _
              ltac:(lia) (validateBases_range _ _ _ Hv) 0%nat) E b Hw Hne).
Qed.

Lemma shared_factor_witness_gives_gcd_witness :
  exists w res,
    run 50 [] 561 (mkOptions None (BasesArray [50; 33; 2]) true false)
    = (w, Ok res) /\
    PrimalityResult.witness res = Some 33 /\
    PrimalityResult.divisor res = Some (Z.gcd 561 33).
Proof.
  assert (Hrun : exists w res,
    run 50 [] 561 (mkOptions None (BasesArray [50; 33; 2]) true false)
    = (w, Ok res) /\ PrimalityResult.witness res = Some 33)
    by (eexists; eexists; split; vm_compute; reflexivity).
  destruct Hrun as (w & res & Hrun & Hw).
  exists w, res. split; [exact Hrun|]. split; [exact Hw|].
  apply (shared_factor_witness_gives_gcd 50 [] 561
           (mkOptions None (BasesArray [50; 33; 2]) true false) w res 33);
    [lia|reflexivity|reflexivity|exact Hrun|exact Hw|].
  vm_compute. discriminate.
Defined.

(** * Explicit bases against the table of small-determinism mode

    C7 compares two calls round by round.  It is settled here, after the
    characterisation of a run by strong probable primality on which it
    rests. *)


(** The same claim also fails on a negative input of large magnitude, where
    [small_determinism_mode] has no effect and random bases are drawn: the
    strong pseudoprime 341550071728321 passes the seven explicit bases but
    not the base 23. *)
Lemma explicit_bases_negative_example :
  - 341550071728321 < 3474749660383 /\
  snd (run 200 [23] (- 341550071728321) explicitBases)
  = Ok (PrimalityResult.make (- 341550071728321) true None None) /\
  snd (run 200 [23] (- 341550071728321) smallDeterminism)
  = Ok (PrimalityResult.make (- 341550071728321) false (Some 23)
          (Some 10670053)).
Proof. split; [lia|]. split; vm_compute; reflexivity. Qed.







(** ** The rows of the table, checked on a range *)

Module MachineFacts.
Import Uint63.














End MachineFacts.



